(** * meshscanner: a shallow embedding of the scan engine

    The development follows the Python package [meshscanner]
    (cli.py, ip_range.py, models.py, storage.py, banner_grabber.py,
    port_scanner.py, scanner.py, config.py) and, around it, the cost
    model of mesh_scanner_service.py and the ledger that service
    charges (ledger_store.py, ledger_service.py, client.py).

    Python values are modelled by Rocq data: [int] by [Z] (or [N] where the code only ever holds a
    natural number), [str] by [string] (code points below 256) or, for
    decoded banners, by the list of its code points, [bytes] by
    [list Byte.byte], exceptions by an explicit [result] type.  Network
    peers, the clock and database faults are given by a "world" that
    the theorems quantify over.

    Part I holds the definitions, Part II the theorems. *)

From Stdlib Require Import ZArith NArith List String Ascii Bool Lia.
From Stdlib Require Import Permutation Sorted.
Import ListNotations.

Open Scope string_scope.
Open Scope list_scope.

(* ################################################################# *)
(** * Part I: definitions *)

(* ================================================================= *)
(** ** The Python runtime the package relies on *)

Module Py.

(** Exceptions that cross a function boundary in the package. *)
Inductive exn : Type :=
| ValueError (msg : string)
| AddressValueError (msg : string)
| NetmaskValueError (msg : string)
| UnicodeDecodeError (pos : nat)
| DatabaseError (msg : string)
| OverflowError (msg : string)
| UnicodeEncodeError (msg : string).

Inductive result (A : Type) : Type :=
| Return (a : A)
| Raise (e : exn).
Arguments Return {A} a.
Arguments Raise {A} e.

Definition bind {A B} (m : result A) (k : A -> result B) : result B :=
  match m with
  | Return a => k a
  | Raise e => Raise e
  end.

Definition raises {A} (m : result A) : bool :=
  match m with Return _ => false | Raise _ => true end.

(** *** str *)

Definition code (c : ascii) : N := N_of_ascii c.

(** [str.isspace] on code points below 256. *)
Definition isspace (c : ascii) : bool :=
  let n := code c in
  ((9 <=? n) && (n <=? 13) || (28 <=? n) && (n <=? 32)
   || (n =? 133) || (n =? 160))%N.

(** ASCII decimal digit, the only digits below code point 256 that
    [int] accepts. *)
Definition isdigit (c : ascii) : bool :=
  let n := code c in ((48 <=? n) && (n <=? 57))%N.

Definition digit_val (c : ascii) : N := (code c - 48)%N.

Fixpoint all_digits (s : string) : bool :=
  match s with
  | EmptyString => true
  | String c s' => isdigit c && all_digits s'
  end.

(** [c in s] *)
Fixpoint contains (c : ascii) (s : string) : bool :=
  match s with
  | EmptyString => false
  | String d s' => Ascii.eqb d c || contains c s'
  end.

(** [s.split(sep)] for a one-character separator. *)
Fixpoint split (sep : ascii) (s : string) : list string :=
  match s with
  | EmptyString => [EmptyString]
  | String c s' =>
      if Ascii.eqb c sep then EmptyString :: split sep s'
      else match split sep s' with
           | p :: ps => String c p :: ps
           | [] => [String c EmptyString]
           end
  end.

(** [s.split(sep, 1)]: at most one cut, at the first separator. *)
Fixpoint split1 (sep : ascii) (s : string) : list string :=
  match s with
  | EmptyString => [EmptyString]
  | String c s' =>
      if Ascii.eqb c sep then [EmptyString; s']
      else match split1 sep s' with
           | p :: ps => String c p :: ps
           | [] => [String c EmptyString]
           end
  end.

(** [sep.join(parts)] *)
Fixpoint join (sep : string) (parts : list string) : string :=
  match parts with
  | [] => EmptyString
  | [p] => p
  | p :: ps => (p ++ sep ++ join sep ps)%string
  end.

Fixpoint lstrip (s : string) : string :=
  match s with
  | EmptyString => EmptyString
  | String c s' => if isspace c then lstrip s' else s
  end.

Fixpoint rstrip (s : string) : string :=
  match s with
  | EmptyString => EmptyString
  | String c s' =>
      match rstrip s' with
      | EmptyString => if isspace c then EmptyString else String c EmptyString
      | r => String c r
      end
  end.

Definition strip (s : string) : string := rstrip (lstrip s).

(** Truth value of a string: non-empty. *)
Definition truthy (s : string) : bool :=
  match s with EmptyString => false | _ => true end.

(** *** int *)

(** The digit part of an integer literal: digits, single underscores
    allowed between digits. *)
Fixpoint int_digits (s : string) (acc : N) (after_digit : bool) : option N :=
  match s with
  | EmptyString => if after_digit then Some acc else None
  | String c s' =>
      if isdigit c then int_digits s' (10 * acc + digit_val c)%N true
      else if Ascii.eqb c "_"%char then
             if after_digit then int_digits s' acc false else None
           else None
  end.

(** The whitespace [int] skips around a literal: the ASCII blanks, and
    the Unicode spaces NEL and NBSP, which are turned into a blank
    before the literal is read.  Unlike [str.isspace] it does not hold
    of the separators 0x1C to 0x1F. *)
Definition int_isspace (c : ascii) : bool :=
  let n := code c in
  ((9 <=? n) && (n <=? 13) || (n =? 32) || (n =? 133) || (n =? 160))%N.

Fixpoint int_lstrip (s : string) : string :=
  match s with
  | EmptyString => EmptyString
  | String c s' => if int_isspace c then int_lstrip s' else s
  end.

Fixpoint int_rstrip (s : string) : string :=
  match s with
  | EmptyString => EmptyString
  | String c s' =>
      match int_rstrip s' with
      | EmptyString => if int_isspace c then EmptyString else String c EmptyString
      | r => String c r
      end
  end.

Definition int_strip (s : string) : string := int_rstrip (int_lstrip s).

(** The default of [sys.get_int_max_str_digits()]: a decimal literal
    with more digits is refused (CPython 3.11 and later, and the
    security releases of the earlier lines). *)
Definition int_max_str_digits : N := 4300.

(** The digits of a literal, underscores not counted. *)
Fixpoint count_digits (s : string) : N :=
  match s with
  | EmptyString => 0
  | String c s' => ((if isdigit c then 1 else 0) + count_digits s')%N
  end.

(** The value of the digit part [d] of a literal, [sign] applied. *)
Definition int_value (sign : N -> Z) (d : string) : result Z :=
  match int_digits d 0 false with
  | Some n =>
      if (int_max_str_digits <? count_digits d)%N then
        Raise (ValueError "Exceeds the limit (4300 digits) for integer string conversion")
      else Return (sign n)
  | None => Raise (ValueError "invalid literal for int() with base 10")
  end.

(** [int(s)] (base 10): surrounding whitespace, one optional sign. *)
Definition int (s : string) : result Z :=
  match int_strip s with
  | String "-"%char d => int_value (fun n => (- Z.of_N n)%Z) d
  | String "+"%char d => int_value Z.of_N d
  | d => int_value Z.of_N d
  end.

(** [str(n)] for a natural number. *)
Definition digit_char (d : N) : ascii := ascii_of_N (48 + d).

Fixpoint str_digits (fuel : nat) (n : N) (acc : string) : string :=
  match fuel with
  | O => acc
  | S f =>
      let acc' := String (digit_char (n mod 10)) acc in
      if (n / 10 =? 0)%N then acc' else str_digits f (n / 10) acc'
  end.

Definition str_of_N (n : N) : string :=
  str_digits (S (N.size_nat n)) n EmptyString.

(** [range(start, stop)] *)
Definition range (start stop : Z) : list Z :=
  map (fun i => (start + Z.of_nat i)%Z) (seq 0 (Z.to_nat (stop - start))).

(** [set(l)]: the distinct elements (in an order the caller must not
    rely on; here the order of last occurrence). *)
Definition set (l : list Z) : list Z := nodup Z.eq_dec l.

(** [sorted(l)] on integers: a stable ascending sort. *)
Fixpoint insert_sorted (x : Z) (l : list Z) : list Z :=
  match l with
  | [] => [x]
  | y :: l' => if (x <? y)%Z then x :: l else y :: insert_sorted x l'
  end.

Definition sorted (l : list Z) : list Z :=
  fold_right insert_sorted [] l.

End Py.

Notation "x <- m ;; k" := (Py.bind m (fun x => k))
  (at level 61, m at next level, right associativity).

(* ================================================================= *)
(** ** cli.py *)

Module cli.
Import Py.

(** One iteration of the loop over [parts]. *)
Definition parse_part (part : string) : result (list Z) :=
  if contains "-"%char part then
    match split1 "-"%char part with
    | [start_str; end_str] =>
        start <- int start_str ;;
        end_ <- int end_str ;;
        Return (range start (end_ + 1))
    | _ => Raise (ValueError "not enough values to unpack")
    end
  else
    port <- int part ;;
    Return [port].

Fixpoint parse_parts (parts : list string) (result_ : list Z)
  : result (list Z) :=
  match parts with
  | [] => Return result_
  | part :: rest =>
      ports <- parse_part part ;;
      parse_parts rest (result_ ++ ports)
  end.

Definition parse_ports (ports_str : string) : result (list Z) :=
  let parts :=
    map strip (filter (fun p => truthy (strip p)) (split ","%char ports_str)) in
  result_ <- parse_parts parts [] ;;
  Return (sorted (set result_)).

End cli.

(* ================================================================= *)
(** ** The standard [ipaddress] module, as far as [expand_cidr] uses it

    IPv4 text is modelled in full, as CPython 3.9.5 and later read it
    (no leading zeros in an octet; a /32 network has its one address as
    host).  The textual syntax of IPv6 addresses differs
    between interpreter versions and is a parameter of the model: the
    two class methods [_ip_int_from_string] and [_string_from_ip_int] of
    [IPv6Address].  Everything else (prefix handling, masking with
    [strict=False], host enumeration) is modelled for both families. *)

Module ipaddress.
Import Py.

Inductive version : Type := IPv4 | IPv6.

Definition _max_prefixlen (v : version) : N :=
  match v with IPv4 => 32 | IPv6 => 128 end%N.

Definition _ALL_ONES (v : version) : N := (2 ^ _max_prefixlen v - 1)%N.

(** An address object: the integer [_ip] and, for IPv6, the scope id. *)
Record Address : Type := mkAddress {
  addr_version : version;
  _ip : N;
  _scope_id : option string
}.

(** A network object.  [network_address] is an address object,
    [prefixlen] the prefix length. *)
Record Network : Type := mkNetwork {
  net_version : version;
  network_address : Address;
  prefixlen : N
}.

Definition _ip_int_from_prefix (v : version) (prefixlen : N) : N :=
  N.lxor (_ALL_ONES v) (N.shiftr (_ALL_ONES v) prefixlen).

Definition netmask (n : Network) : N :=
  _ip_int_from_prefix (net_version n) (prefixlen n).

Definition hostmask (n : Network) : N :=
  N.lxor (netmask n) (_ALL_ONES (net_version n)).

Definition broadcast_address (n : Network) : N :=
  N.lor (_ip (network_address n)) (hostmask n).

(** *** Parsing IPv4 text *)

Definition _parse_octet (octet_str : string) : result N :=
  if negb (truthy octet_str) then
    Raise (ValueError "Empty octet not permitted")
  else if negb (all_digits octet_str) then
    Raise (ValueError "Only decimal digits permitted")
  else if (3 <? String.length octet_str)%nat then
    Raise (ValueError "At most 3 characters permitted")
  else if negb (String.eqb octet_str "0")
          && match octet_str with
             | String c _ => Ascii.eqb c "0"%char
             | EmptyString => false
             end then
    Raise (ValueError "Leading zeros are not permitted")
  else
    octet_int <- int octet_str ;;
    if (255 <? octet_int)%Z then
      Raise (ValueError "Octet > 255 not permitted")
    else Return (Z.to_N octet_int).

Fixpoint _parse_octets (octets : list string) : result (list N) :=
  match octets with
  | [] => Return []
  | o :: rest =>
      b <- _parse_octet o ;;
      bs <- _parse_octets rest ;;
      Return (b :: bs)
  end.

(** [int.from_bytes(bs, 'big')] *)
Definition from_bytes_big (bs : list N) : N :=
  fold_left (fun acc b => (acc * 256 + b)%N) bs 0%N.

(** [IPv4Address._ip_int_from_string]; the [ValueError] of an octet is
    re-raised as [AddressValueError]. *)
Definition IPv4_ip_int_from_string (ip_str : string) : result N :=
  if negb (truthy ip_str) then
    Raise (AddressValueError "Address cannot be empty")
  else
    let octets := split "."%char ip_str in
    if negb (List.length octets =? 4)%nat then
      Raise (AddressValueError "Expected 4 octets")
    else
      match _parse_octets octets with
      | Return bs => Return (from_bytes_big bs)
      | Raise _ => Raise (AddressValueError "invalid octet")
      end.

(** [IPv4Address(addr_str)] *)
Definition IPv4Address (addr_str : string) : result Address :=
  if contains "/"%char addr_str then
    Raise (AddressValueError "Unexpected '/'")
  else
    ip <- IPv4_ip_int_from_string addr_str ;;
    Return (mkAddress IPv4 ip None).

(** [ip_int.to_bytes(4, 'big')] *)
Definition to_bytes4_big (ip_int : N) : list N :=
  [ (ip_int / 16777216) mod 256; (ip_int / 65536) mod 256;
    (ip_int / 256) mod 256; ip_int mod 256 ]%N.

(** [IPv4Address._string_from_ip_int] *)
Definition IPv4_string_from_ip_int (ip_int : N) : string :=
  join "." (map str_of_N (to_bytes4_big ip_int)).

(** *** Prefixes and netmasks *)

(** The part after the slash: a string, or the default integer. *)
Inductive mask_arg : Type :=
| MaskStr (s : string)
| MaskInt (n : Z).

(** [_split_addr_prefix] on a string argument. *)
Definition _split_addr_prefix (v : version) (address : string)
  : result (string * mask_arg) :=
  match split "/"%char address with
  | [a] => Return (a, MaskInt (Z.of_N (_max_prefixlen v)))
  | [a; m] => Return (a, MaskStr m)
  | _ => Raise (AddressValueError "Only one '/' permitted")
  end.

Definition _report_invalid_netmask {A} : result A :=
  Raise (NetmaskValueError "is not a valid netmask").

Definition _prefix_from_prefix_string (v : version) (prefixlen_str : string)
  : result N :=
  if negb (truthy prefixlen_str && all_digits prefixlen_str) then
    _report_invalid_netmask
  else
    match int prefixlen_str with
    | Raise _ => _report_invalid_netmask
    | Return prefixlen =>
        if negb ((0 <=? prefixlen)%Z
                 && (prefixlen <=? Z.of_N (_max_prefixlen v))%Z) then
          _report_invalid_netmask
        else Return (Z.to_N prefixlen)
    end.

Fixpoint trailing_zeros_pos (p : positive) : N :=
  match p with
  | xO q => N.succ (trailing_zeros_pos q)
  | _ => 0%N
  end.

Definition _count_righthand_zero_bits (number bits : N) : N :=
  match number with
  | N0 => bits
  | Npos p => N.min bits (trailing_zeros_pos p)
  end.

(** [_prefix_from_ip_int]: [None] stands for the [ValueError] that the
    caller catches. *)
Definition _prefix_from_ip_int (v : version) (ip_int : N) : option N :=
  let trailing_zeroes := _count_righthand_zero_bits ip_int (_max_prefixlen v) in
  let prefixlen := (_max_prefixlen v - trailing_zeroes)%N in
  let leading_ones := N.shiftr ip_int trailing_zeroes in
  let all_ones := (N.shiftl 1 prefixlen - 1)%N in
  if negb (leading_ones =? all_ones)%N then None else Some prefixlen.

(** [_prefix_from_ip_string]: a netmask or a hostmask in dotted form. *)
Definition _prefix_from_ip_string (ip_str : string) : result N :=
  match IPv4_ip_int_from_string ip_str with
  | Raise _ => _report_invalid_netmask
  | Return ip_int =>
      match _prefix_from_ip_int IPv4 ip_int with
      | Some p => Return p
      | None =>
          match _prefix_from_ip_int IPv4 (N.lxor ip_int (_ALL_ONES IPv4)) with
          | Some p => Return p
          | None => _report_invalid_netmask
          end
      end
  end.

Definition _make_netmask (v : version) (arg : mask_arg) : result N :=
  match arg with
  | MaskInt prefixlen =>
      if negb ((0 <=? prefixlen)%Z
               && (prefixlen <=? Z.of_N (_max_prefixlen v))%Z) then
        _report_invalid_netmask
      else Return (Z.to_N prefixlen)
  | MaskStr s =>
      match v with
      | IPv4 =>
          match _prefix_from_prefix_string IPv4 s with
          | Return p => Return p
          | Raise (NetmaskValueError _) => _prefix_from_ip_string s
          | Raise e => Raise e
          end
      | IPv6 => _prefix_from_prefix_string IPv6 s
      end
  end.

(** *** Networks *)

(** The common tail of [IPv4Network.__init__] and
    [IPv6Network.__init__]: host bits are an error when [strict], and
    are masked away otherwise. *)
Definition _init_network (v : version) (address : Address) (prefixlen : N)
    (strict : bool) : result Network :=
  let packed := _ip address in
  let mask := _ip_int_from_prefix v prefixlen in
  if negb (N.land packed mask =? packed)%N then
    if strict then Raise (ValueError "has host bits set")
    else Return (mkNetwork v (mkAddress v (N.land packed mask) None) prefixlen)
  else Return (mkNetwork v address prefixlen).

Definition IPv4Network (address : string) (strict : bool) : result Network :=
  am <- _split_addr_prefix IPv4 address ;;
  a <- IPv4Address (fst am) ;;
  p <- _make_netmask IPv4 (snd am) ;;
  _init_network IPv4 a p strict.

(** What an iteration over [network.hosts()] draws from: a lazy integer
    range wrapped into address objects, or a one-element list. *)
Inductive host_iter : Type :=
| IterRange (v : version) (start stop : N)
| IterList (l : list Address).

(** [Network.hosts()].  With a prefix one short of the maximum it is
    [__iter__] (every address of the block); with the maximal prefix
    the single address; otherwise IPv4 leaves out the network and the
    broadcast address and IPv6 the network address. *)
Definition hosts (n : Network) : host_iter :=
  let v := net_version n in
  let network := _ip (network_address n) in
  let broadcast := broadcast_address n in
  if (prefixlen n =? _max_prefixlen v - 1)%N then
    IterRange v network (broadcast + 1)
  else if (prefixlen n =? _max_prefixlen v)%N then
    IterList [network_address n]
  else
    match v with
    | IPv4 => IterRange v (network + 1) broadcast
    | IPv6 => IterRange v (network + 1) (broadcast + 1)
    end.

Definition iter_next (it : host_iter) : option (Address * host_iter) :=
  match it with
  | IterRange v start stop =>
      if (start <? stop)%N
      then Some (mkAddress v start None, IterRange v (start + 1) stop)
      else None
  | IterList [] => None
  | IterList (a :: l) => Some (a, IterList l)
  end.

(** How many addresses the iterator still yields. *)
Definition iter_len (it : host_iter) : N :=
  match it with
  | IterRange _ start stop => (stop - start)%N
  | IterList l => N.of_nat (List.length l)
  end.

Section IPv6Text.

Variable IPv6_ip_int_from_string : string -> result N.
Variable IPv6_string_from_ip_int : N -> string.

(** [IPv6Address._split_scope_id] *)
Definition _split_scope_id (ip_str : string) : result (string * option string) :=
  match split1 "%"%char ip_str with
  | [addr; scope_id] =>
      if negb (truthy scope_id) || contains "%"%char scope_id then
        Raise (AddressValueError "Invalid IPv6 address")
      else Return (addr, Some scope_id)
  | _ => Return (ip_str, None)
  end.

(** [IPv6Address(addr_str)] *)
Definition IPv6Address (addr_str : string) : result Address :=
  if contains "/"%char addr_str then
    Raise (AddressValueError "Unexpected '/'")
  else
    as_ <- _split_scope_id addr_str ;;
    match IPv6_ip_int_from_string (fst as_) with
    | Return ip => Return (mkAddress IPv6 ip (snd as_))
    | Raise _ => Raise (AddressValueError "invalid IPv6 address")
    end.

Definition IPv6Network (address : string) (strict : bool) : result Network :=
  am <- _split_addr_prefix IPv6 address ;;
  a <- IPv6Address (fst am) ;;
  p <- _make_netmask IPv6 (snd am) ;;
  _init_network IPv6 a p strict.

(** [ip_network(address, strict)]: IPv4 first, then IPv6; only the two
    parse errors are caught, the [ValueError] for host bits escapes. *)
Definition ip_network (address : string) (strict : bool) : result Network :=
  match IPv4Network address strict with
  | Return n => Return n
  | Raise (AddressValueError _) | Raise (NetmaskValueError _) =>
      match IPv6Network address strict with
      | Return n => Return n
      | Raise (AddressValueError _) | Raise (NetmaskValueError _) =>
          Raise (ValueError "does not appear to be an IPv4 or IPv6 network")
      | Raise e => Raise e
      end
  | Raise e => Raise e
  end.

(** [str(address)] *)
Definition str_address (a : Address) : string :=
  match addr_version a with
  | IPv4 => IPv4_string_from_ip_int (_ip a)
  | IPv6 =>
      let ip_str := IPv6_string_from_ip_int (_ip a) in
      match _scope_id a with
      | Some scope_id => (ip_str ++ "%" ++ scope_id)%string
      | None => ip_str
      end
  end.

End IPv6Text.

End ipaddress.

(* ================================================================= *)
(** ** ip_range.py *)

Module ip_range.
Import Py ipaddress.

Section IPv6Text.

Variable IPv6_ip_int_from_string : string -> result N.
Variable IPv6_string_from_ip_int : N -> string.

(** The test that leaves the loop: [max_hosts is not None and
    idx >= max_hosts]. *)
Definition stop_now (max_hosts : option Z) (idx : Z) : bool :=
  match max_hosts with
  | Some m => (m <=? idx)%Z
  | None => false
  end.

(** The loop [for idx, host in enumerate(hosts)].  [fuel] bounds the
    number of iterations. *)
Fixpoint expand_loop (fuel : nat) (it : host_iter) (idx : Z)
    (max_hosts : option Z) (result_ : list string) : list string :=
  match fuel with
  | O => result_
  | S fuel' =>
      match iter_next it with
      | None => result_
      | Some (host, it') =>
          if stop_now max_hosts idx then result_
          else expand_loop fuel' it' (idx + 1) max_hosts
                 (result_ ++ [str_address IPv6_string_from_ip_int host])
      end
  end.

(** Iterations after which the loop has certainly ended: the iterator
    is exhausted, or [idx] has reached the cap.  More fuel gives the
    same list ([loop_fuel_enough] below). *)
Definition loop_fuel (it : host_iter) (max_hosts : option Z) : nat :=
  match max_hosts with
  | None => N.to_nat (iter_len it)
  | Some m => N.to_nat (N.min (iter_len it) (Z.to_N m))
  end.

Definition expand_cidr (cidr : string) (max_hosts : option Z)
  : result (list string) :=
  network <- ip_network IPv6_ip_int_from_string cidr false ;;
  let hosts_ := hosts network in
  Return (expand_loop (loop_fuel hosts_ max_hosts) hosts_ 0 max_hosts []).

End IPv6Text.

End ip_range.

(* ================================================================= *)
(** ** bytes.decode *)

Module codecs.
Import Py.

(** A decoded text: the sequence of its code points. *)
Definition text : Type := list N.

Inductive errors : Type := strict | ignore.

Definition is_continuation (b : N) : bool := ((128 <=? b) && (b <=? 191))%N.

(** One step of the UTF-8 decoder at a lead byte [ch] followed by [rest]:
    a code point and the number of bytes it used, or a malformed
    sequence and the number of bytes the error covers. *)
Inductive utf8_step : Type :=
| Decoded (cp : N) (used : nat)
| Malformed (covers : nat).

Definition low6 (b : N) : N := N.land b 63.

Definition utf8_decode_one (ch : N) (rest : list N) : utf8_step :=
  if (ch <? 128)%N then Decoded ch 1
  else if (ch <? 194)%N then Malformed 1
  else if (ch <? 224)%N then
    match rest with
    | [] => Malformed 1
    | ch2 :: _ =>
        if is_continuation ch2
        then Decoded (N.lor (N.shiftl (N.land ch 31) 6) (low6 ch2)) 2
        else Malformed 1
    end
  else if (ch <? 240)%N then
    match rest with
    | [] => Malformed 1
    | ch2 :: rest2 =>
        if negb (is_continuation ch2)
           || (if (ch2 <? 160)%N then (ch =? 224)%N else (ch =? 237)%N)
        then Malformed 1
        else
          match rest2 with
          | [] => Malformed 2
          | ch3 :: _ =>
              if is_continuation ch3
              then Decoded (N.lor (N.shiftl (N.land ch 15) 12)
                              (N.lor (N.shiftl (low6 ch2) 6) (low6 ch3))) 3
              else Malformed 2
          end
    end
  else if (ch <? 245)%N then
    match rest with
    | [] => Malformed 1
    | ch2 :: rest2 =>
        if negb (is_continuation ch2)
           || (if (ch2 <? 144)%N then (ch =? 240)%N else (ch =? 244)%N)
        then Malformed 1
        else
          match rest2 with
          | [] => Malformed 2
          | ch3 :: rest3 =>
              if negb (is_continuation ch3) then Malformed 2
              else
                match rest3 with
                | [] => Malformed 3
                | ch4 :: _ =>
                    if is_continuation ch4
                    then Decoded
                           (N.lor (N.shiftl (N.land ch 7) 18)
                              (N.lor (N.shiftl (low6 ch2) 12)
                                 (N.lor (N.shiftl (low6 ch3) 6) (low6 ch4)))) 4
                    else Malformed 3
                end
          end
    end
  else Malformed 1.

(** The decoding loop.  With [strict] a malformed sequence raises
    [UnicodeDecodeError]; with [ignore] the bytes the error covers are
    skipped and decoding goes on. *)
Fixpoint utf8_loop (fuel : nat) (e : errors) (pos : nat) (s : list N)
    (out : text) : result text :=
  match fuel, s with
  | _, [] => Return out
  | O, _ :: _ => Return out
  | S fuel', ch :: rest =>
      match utf8_decode_one ch rest with
      | Decoded cp used =>
          utf8_loop fuel' e (pos + used) (skipn (used - 1) rest) (out ++ [cp])
      | Malformed covers =>
          match e with
          | strict => Raise (UnicodeDecodeError pos)
          | ignore =>
              utf8_loop fuel' e (pos + covers) (skipn (covers - 1) rest) out
          end
      end
  end.

Inductive encoding : Type := utf_8 | latin_1.

(** [data.decode(encoding, errors)] *)
Definition decode (data : list Byte.byte) (enc : encoding) (e : errors)
  : result text :=
  let ns := map Byte.to_N data in
  match enc with
  | utf_8 => utf8_loop (List.length ns) e 0 ns []
  | latin_1 => Return ns
  end.

End codecs.

(* ================================================================= *)
(** ** The network, as the scanner sees it *)

Module net.

(** What happens on one TCP connection attempt, decided by the peer and
    the deadline: whether [open_connection] completes within the
    timeout, whether writing succeeds, what [read] delivers before the
    timeout ([None]: it raises), whether closing raises. *)
Record connection : Type := mkConnection {
  connects : bool;
  write_ok : bool;
  arrives : option (list Byte.byte);
  close_ok : bool
}.

(** [reader.read(n)]: at most [n] bytes; everything up to EOF when [n]
    is negative. *)
Definition read (n : Z) (data : list Byte.byte) : list Byte.byte :=
  if (n <? 0)%Z then data else firstn (Z.to_nat n) data.

End net.

(* ================================================================= *)
(** ** port_scanner.py *)

Module port_scanner.

(** [check_port]: [True] if the connection is established, [False] on
    every exception; an exception while closing is swallowed. *)
Definition check_port (c : net.connection) : bool :=
  if net.connects c then
    (if net.close_ok c then true else true)
  else false.

End port_scanner.

(* ================================================================= *)
(** ** banner_grabber.py *)

Module banner_grabber.
Import Py codecs.

(** The decoding step shared by both functions:
    [try: data.decode("utf-8", "ignore")
     except UnicodeDecodeError: data.decode("latin-1", "ignore")].
    Any other exception reaches the enclosing [except Exception]. *)
Definition decode_banner (data : list Byte.byte) : result text :=
  match decode data utf_8 ignore with
  | Return t => Return t
  | Raise (UnicodeDecodeError _) => decode data latin_1 ignore
  | Raise e => Raise e
  end.

(** The part of both functions after the read. *)
Definition after_read (data : list Byte.byte) : option text :=
  match data with
  | [] => None
  | _ =>
      match decode_banner data with
      | Return t => Some t
      | Raise _ => None
      end
  end.

Definition grab_http_banner (c : net.connection) (max_bytes : Z)
  : option text :=
  if negb (net.connects c) then None
  else if negb (net.write_ok c) then None
  else
    match net.arrives c with
    | None => None
    | Some sent => after_read (net.read max_bytes sent)
    end.

Definition grab_raw_banner (c : net.connection) (max_bytes : Z)
  : option text :=
  if negb (net.connects c) then None
  else
    match net.arrives c with
    | None => None
    | Some sent => after_read (net.read max_bytes sent)
    end.

End banner_grabber.

(* ================================================================= *)
(** ** models.py *)

Module models.
Import Py.

(** A naive [datetime]. *)
Record datetime : Type := mkDatetime {
  year : N; month : N; day : N;
  hour : N; minute : N; second : N; microsecond : N
}.

(** ["%0*d"]: decimal, padded with zeros on the left to [width]. *)
Definition zfill (width : nat) (n : N) : string :=
  let s := str_of_N n in
  (String.concat EmptyString (repeat "0" (width - String.length s)) ++ s)%string.

(** [datetime.isoformat()] of a naive value. *)
Definition isoformat (d : datetime) : string :=
  (zfill 4 (year d) ++ "-" ++ zfill 2 (month d) ++ "-" ++ zfill 2 (day d)
   ++ "T" ++ zfill 2 (hour d) ++ ":" ++ zfill 2 (minute d) ++ ":"
   ++ zfill 2 (second d)
   ++ (if (microsecond d =? 0)%N then EmptyString
       else "." ++ zfill 6 (microsecond d))
  )%string.

(** A [str] given by a literal or computed by [str()], as a text. *)
Definition text_of_string (s : string) : codecs.text :=
  map code (list_ascii_of_string s).

Record ScanResult : Type := mkScanResult {
  ip : string;
  port : Z;
  is_open : bool;
  service : option string;
  banner : option codecs.text;
  scanned_at : option datetime
}.

(** The values a record dictionary holds. *)
Inductive value : Type :=
| VNone
| VStr (t : codecs.text)
| VInt (n : Z)
| VBool (b : bool)
| VDatetime (d : datetime).

(** The dictionary of [asdict]: exactly the six field names. *)
Record record : Type := mkRecord {
  d_ip : value;
  d_port : value;
  d_is_open : value;
  d_service : value;
  d_banner : value;
  d_scanned_at : value
}.

Definition of_option {A} (f : A -> value) (o : option A) : value :=
  match o with Some a => f a | None => VNone end.

Definition asdict (r : ScanResult) : record :=
  mkRecord (VStr (text_of_string (ip r))) (VInt (port r)) (VBool (is_open r))
    (of_option (fun s => VStr (text_of_string s)) (service r))
    (of_option VStr (banner r))
    (of_option VDatetime (scanned_at r)).

(** [ScanResult.to_record]; [utcnow] is the clock reading at the call. *)
Definition to_record (utcnow : datetime) (self : ScanResult) : record :=
  let d := asdict self in
  match d_scanned_at d with
  | VNone =>
      mkRecord (d_ip d) (d_port d) (d_is_open d) (d_service d) (d_banner d)
        (VStr (text_of_string (isoformat utcnow)))
  | VDatetime t =>
      mkRecord (d_ip d) (d_port d) (d_is_open d) (d_service d) (d_banner d)
        (VStr (text_of_string (isoformat t)))
  | _ => d
  end.

End models.

(* ================================================================= *)
(** ** config.py *)

Module config.

(** [timeout] is a float number of seconds; the model keeps it in
    milliseconds.  It only reaches the network calls, whose outcome is
    given by [net.connection]. *)
Record ScannerConfig : Type := mkScannerConfig {
  timeout : Z;
  max_hosts : Z;
  concurrency : Z;
  banner_max_bytes : Z
}.

Definition default : ScannerConfig := mkScannerConfig 2000 512 200 2048.

Definition or_else (o : option Z) (d : Z) : Z :=
  match o with Some x => x | None => d end.

Definition copy_with (self : ScannerConfig)
    (timeout_ max_hosts_ concurrency_ banner_max_bytes_ : option Z)
  : ScannerConfig :=
  mkScannerConfig (or_else timeout_ (timeout self))
    (or_else max_hosts_ (max_hosts self))
    (or_else concurrency_ (concurrency self))
    (or_else banner_max_bytes_ (banner_max_bytes self)).

End config.

(* ================================================================= *)
(** ** storage.py, over a model of the sqlite3 connection *)

Module storage.
Import Py models.

(** A value stored in a column. *)
Inductive sqlval : Type :=
| SqlNull
| SqlInteger (n : Z)
| SqlText (t : codecs.text).

(** A row of the table [scans]. *)
Record Row : Type := mkRow {
  c_id : Z;
  c_ip : sqlval;
  c_port : sqlval;
  c_is_open : sqlval;
  c_service : sqlval;
  c_banner : sqlval;
  c_scanned_at : sqlval
}.

(** The database file: [None] while the table [scans] does not exist,
    otherwise its committed rows, oldest first. *)
Definition database : Type := option (list Row).

(** An open connection: the file, and the rows written by the open
    transaction ([None] outside a transaction). *)
Record Connection : Type := mkConnection {
  disk : database;
  txn : option (list Row)
}.

(** The integers SQLite stores: 64-bit signed. *)
Definition int64 (n : Z) : bool :=
  ((-9223372036854775808 <=? n) && (n <=? 9223372036854775807))%Z.

(** A [str] is bound in UTF-8, which encodes every code point of a
    [str] but the surrogates. *)
Definition is_surrogate (c : N) : bool := ((55296 <=? c) && (c <=? 57343))%N.

Definition encodable (t : codecs.text) : bool :=
  forallb (fun c => negb (is_surrogate c)) t.

(** The default adapter for [datetime]: [val.isoformat(" ")]. *)
Definition adapt_datetime (d : datetime) : string :=
  (zfill 4 (year d) ++ "-" ++ zfill 2 (month d) ++ "-" ++ zfill 2 (day d)
   ++ " " ++ zfill 2 (hour d) ++ ":" ++ zfill 2 (minute d) ++ ":"
   ++ zfill 2 (second d)
   ++ (if (microsecond d =? 0)%N then EmptyString
       else "." ++ zfill 6 (microsecond d))
  )%string.

(** How a Python value is bound to a statement parameter.  An [int]
    outside 64 bits and a [str] that UTF-8 cannot encode are refused. *)
Definition adapt (v : value) : result sqlval :=
  match v with
  | VNone => Return SqlNull
  | VStr t =>
      if encodable t then Return (SqlText t)
      else Raise (UnicodeEncodeError "surrogates not allowed")
  | VInt n =>
      if int64 n then Return (SqlInteger n)
      else Raise (OverflowError
                    "Python int too large to convert to SQLite INTEGER")
  | VBool b => Return (SqlInteger (if b then 1 else 0))
  | VDatetime d => Return (SqlText (text_of_string (adapt_datetime d)))
  end.

(** Truth value, for [1 if rec["is_open"] else 0]. *)
Definition truth (v : value) : bool :=
  match v with
  | VNone => false
  | VStr t => match t with [] => false | _ => true end
  | VInt n => negb (n =? 0)%Z
  | VBool b => b
  | VDatetime _ => true
  end.

Definition is_null (v : sqlval) : bool :=
  match v with SqlNull => true | _ => false end.

(** [sqlite3.connect(path)]; [fault]: the call fails. *)
Definition connect (fault : bool) (db : database) : result Connection :=
  if fault then Raise (DatabaseError "unable to open database file")
  else Return (mkConnection db None).

(** [CREATE TABLE IF NOT EXISTS scans ...] and the three indexes,
    followed by [commit]. *)
Definition init_db (db : database) : database :=
  match db with
  | None => Some []
  | Some rows => Some rows
  end.

(** [conn.execute("BEGIN")] *)
Definition execute_begin (fault : bool) (c : Connection) : result Connection :=
  if fault then Raise (DatabaseError "database is locked")
  else
    match txn c with
    | Some _ =>
        Raise (DatabaseError "cannot start a transaction within a transaction")
    | None => Return (mkConnection (disk c) (Some []))
    end.

(** AUTOINCREMENT: one more than the largest id handed out so far. *)
Definition next_id (rows : list Row) : Z :=
  (fold_right Z.max 0 (map c_id rows) + 1)%Z.

(** The largest id a row can have; once it is taken, no row can be
    added. *)
Definition max_rowid : Z := 9223372036854775807.

(** [conn.execute("INSERT INTO scans (...) VALUES (?, ?, ?, ?, ?, ?)",
    params)].  The statement fails on an I/O fault, when the table is
    missing, when a parameter cannot be bound (they are bound in
    order), when the ids are used up, or when a NOT NULL column would
    receive NULL; a failed statement leaves the connection as it was.
    Outside a transaction the module opens one first. *)
Definition execute_insert (fault : bool) (c : Connection)
    (v_ip v_port v_is_open v_service v_banner v_scanned_at : value)
  : result Connection :=
  if fault then Raise (DatabaseError "disk I/O error")
  else
    match disk c with
    | None => Raise (DatabaseError "no such table: scans")
    | Some rows =>
        p_ip <- adapt v_ip ;;
        p_port <- adapt v_port ;;
        p_is_open <- adapt v_is_open ;;
        p_service <- adapt v_service ;;
        p_banner <- adapt v_banner ;;
        p_scanned_at <- adapt v_scanned_at ;;
        let pending := match txn c with Some l => l | None => [] end in
        if (max_rowid <? next_id (rows ++ pending))%Z
        then Raise (DatabaseError "database or disk is full")
        else if is_null p_ip || is_null p_port || is_null p_is_open
                || is_null p_scanned_at
        then Raise (DatabaseError "NOT NULL constraint failed")
        else
          let row := mkRow (next_id (rows ++ pending))
                       p_ip p_port p_is_open p_service p_banner p_scanned_at in
          Return (mkConnection (disk c) (Some (pending ++ [row])))
    end.

(** [conn.commit()]: the rows of the open transaction reach the file
    together, or (on a fault) none does and the transaction stays open. *)
Definition commit (fault : bool) (c : Connection) : result Connection :=
  if fault then Raise (DatabaseError "database or disk is full")
  else
    match txn c, disk c with
    | Some pending, Some rows => Return (mkConnection (Some (rows ++ pending)) None)
    | _, _ => Return (mkConnection (disk c) None)
    end.

(** [conn.close()]: an open transaction is rolled back. *)
Definition close (c : Connection) : database := disk c.

(** What can go wrong during one call, and the clock:
    [fault k] tells whether the [k]-th database call fails for a
    reason outside the program (the file cannot be opened, is locked,
    or cannot be written; 0: connect, 1: BEGIN, 2+i: the i-th INSERT,
    then COMMIT); [utcnow i] is the clock reading during the i-th
    [to_record].  What a statement refuses by itself (a parameter
    that cannot be bound, no id left) is part of the statement. *)
Record world : Type := mkWorld {
  fault : nat -> bool;
  utcnow : nat -> datetime
}.

(** The loop [for r in results]: the connection when the loop was
    left, and how it was left. *)
Fixpoint insert_loop (w : world) (i : nat) (c : Connection)
    (results : list ScanResult) : Connection * result unit :=
  match results with
  | [] => (c, Return tt)
  | r :: rest =>
      let rec := to_record (utcnow w i) r in
      match execute_insert (fault w (2 + i)) c
              (d_ip rec) (d_port rec)
              (VInt (if truth (d_is_open rec) then 1 else 0))
              (d_service rec) (d_banner rec) (d_scanned_at rec) with
      | Return c' => insert_loop w (S i) c' rest
      | Raise e => (c, Raise e)
      end
  end.

(** [save_results]: the database file after the call, and the outcome.
    The [finally] clause closes the connection on every path. *)
Definition save_results (w : world) (db : database)
    (results : list ScanResult) : database * result unit :=
  match connect (fault w 0) db with
  | Raise e => (db, Raise e)
  | Return conn =>
      match execute_begin (fault w 1) conn with
      | Raise e => (close conn, Raise e)
      | Return conn1 =>
          match insert_loop w 0 conn1 results with
          | (conn2, Raise e) => (close conn2, Raise e)
          | (conn2, Return _) =>
              match commit (fault w (2 + List.length results)) conn2 with
              | Raise e => (close conn2, Raise e)
              | Return conn3 => (close conn3, Return tt)
              end
          end
      end
  end.

(** *** Reading back *)

(** [ORDER BY id DESC] *)
Fixpoint insert_by_id_desc (r : Row) (l : list Row) : list Row :=
  match l with
  | [] => [r]
  | y :: l' =>
      if (c_id y <? c_id r)%Z then r :: l else y :: insert_by_id_desc r l'
  end.

Definition order_by_id_desc (rows : list Row) : list Row :=
  fold_right insert_by_id_desc [] rows.

(** The Python value a fetched column holds. *)
Definition python_value (v : sqlval) : value :=
  match v with
  | SqlNull => VNone
  | SqlInteger n => VInt n
  | SqlText t => VStr t
  end.

Section Fromisoformat.

(** [datetime.fromisoformat], a parameter of the model. *)
Variable fromisoformat : codecs.text -> result datetime.

(** The [ScanResult] built from one fetched row, given by the values
    of its six fields: [is_open] goes through [bool], and [scanned_at]
    through [fromisoformat] when the column holds a string. *)
Definition result_of_row (row : Row) : result record :=
  ts <- match c_scanned_at row with
        | SqlText s => d <- fromisoformat s ;; Return (VDatetime d)
        | _ => Return VNone
        end ;;
  Return (mkRecord (python_value (c_ip row)) (python_value (c_port row))
            (VBool (truth (python_value (c_is_open row))))
            (python_value (c_service row)) (python_value (c_banner row)) ts).

(** The loop over the fetched rows. *)
Fixpoint results_of_rows (rows : list Row) : result (list record) :=
  match rows with
  | [] => Return []
  | row :: rest =>
      r <- result_of_row row ;;
      rs <- results_of_rows rest ;;
      Return (r :: rs)
  end.

(** [get_last_n]; [fault]: the connection or the query fails.  The
    parameter of [LIMIT ?] is bound like any other; once bound, a
    negative limit is no limit. *)
Definition get_last_n (fault : bool) (db : database) (limit : Z)
  : result (list record) :=
  if fault then Raise (DatabaseError "unable to open database file")
  else
    match db with
    | None => Raise (DatabaseError "no such table: scans")
    | Some rows =>
        p_limit <- adapt (VInt limit) ;;
        match p_limit with
        | SqlInteger n =>
            let ordered := order_by_id_desc rows in
            results_of_rows
              (if (n <? 0)%Z then ordered else firstn (Z.to_nat n) ordered)
        | _ => Raise (DatabaseError "datatype mismatch")
        end
    end.

End Fromisoformat.

End storage.

(* ================================================================= *)
(** ** scanner.py *)

Module scanner.
Import Py models config.

(** The outside world of one scan.  Tasks are numbered in creation
    order; [probe i] is the connection attempt of [check_port] in task
    [i], [sniff i] the one of the banner grab, [utcnow i] the clock when
    the task builds its result. *)
Record world : Type := mkWorld {
  probe : nat -> net.connection;
  sniff : nat -> net.connection;
  utcnow : nat -> datetime
}.

(** [port in (80, 8080, 8000, 443)] *)
Definition is_http_port (port : Z) : bool :=
  ((port =? 80) || (port =? 8080) || (port =? 8000) || (port =? 443))%Z.

(** The result a task builds when the port is closed. *)
Definition closed_result (w : world) (i : nat) (host : string) (port : Z)
  : ScanResult :=
  mkScanResult host port false None None (Some (utcnow w i)).

(** The result a task builds after the banner grab. *)
Definition open_result (w : world) (cfg : ScannerConfig) (i : nat)
    (host : string) (port : Z) : ScanResult :=
  if is_http_port port then
    mkScanResult host port true (Some "http")
      (banner_grabber.grab_http_banner (sniff w i) (banner_max_bytes cfg))
      (Some (utcnow w i))
  else
    mkScanResult host port true (Some "unknown")
      (banner_grabber.grab_raw_banner (sniff w i) (banner_max_bytes cfg))
      (Some (utcnow w i)).

(** The value [_scan_host_port] returns, once it has run to its end. *)
Definition _scan_host_port (w : world) (cfg : ScannerConfig) (i : nat)
    (host : string) (port : Z) : ScanResult :=
  if port_scanner.check_port (probe w i)
  then open_result w cfg i host port
  else closed_result w i host port.

(** Where a task of [_scan_host_port] is suspended. *)
Inductive phase : Type :=
| AwaitSem
| AwaitCheck
| AwaitBanner
| Returned (r : ScanResult).

Record task : Type := mkTask {
  t_host : string;
  t_port : Z;
  t_phase : phase
}.

(** The state of one [run_scan] call: the value of the semaphore, the
    tasks in creation order, and [results], filled in completion
    order. *)
Record state : Type := mkState {
  sem_value : Z;
  tasks : list task;
  results : list ScanResult
}.

Fixpoint set_nth {A} (i : nat) (x : A) (l : list A) : list A :=
  match l, i with
  | [], _ => []
  | _ :: l', O => x :: l'
  | y :: l', S i' => y :: set_nth i' x l'
  end.

(** The task leaves [async with sem], returns [r], and [as_completed]
    hands [r] to the collecting loop. *)
Definition finish (st : state) (i : nat) (t : task) (r : ScanResult) : state :=
  mkState (sem_value st + 1)
    (set_nth i (mkTask (t_host t) (t_port t) (Returned r)) (tasks st))
    (results st ++ [r]).

(** The event loop resumes task [i] and runs it to its next suspension
    point; [None] when the task cannot run (it waits for the semaphore,
    or it is over). *)
Definition resume (w : world) (cfg : ScannerConfig) (st : state) (i : nat)
  : option state :=
  match nth_error (tasks st) i with
  | None => None
  | Some t =>
      match t_phase t with
      | AwaitSem =>
          if (0 <? sem_value st)%Z then
            Some (mkState (sem_value st - 1)
                    (set_nth i (mkTask (t_host t) (t_port t) AwaitCheck)
                       (tasks st))
                    (results st))
          else None
      | AwaitCheck =>
          if port_scanner.check_port (probe w i) then
            Some (mkState (sem_value st)
                    (set_nth i (mkTask (t_host t) (t_port t) AwaitBanner)
                       (tasks st))
                    (results st))
          else Some (finish st i t (closed_result w i (t_host t) (t_port t)))
      | AwaitBanner =>
          Some (finish st i t (open_result w cfg i (t_host t) (t_port t)))
      | Returned _ => None
      end
  end.

(** A schedule: the tasks the event loop resumes, in order. *)
Fixpoint run (w : world) (cfg : ScannerConfig) (st : state)
    (schedule : list nat) : option state :=
  match schedule with
  | [] => Some st
  | i :: rest =>
      match resume w cfg st i with
      | Some st' => run w cfg st' rest
      | None => None
      end
  end.


(** Past the admission of the semaphore and not yet finished. *)
Definition is_active (t : task) : bool :=
  match t_phase t with AwaitCheck | AwaitBanner => true | _ => false end.

Definition active (st : state) : nat :=
  List.length (filter is_active (tasks st)).


(** [for host in hosts: for port in ports: create_task(...)] *)
Definition create_tasks (hosts : list string) (ports : list Z) : list task :=
  flat_map (fun host => map (fun port => mkTask host port AwaitSem) ports)
    hosts.

(** [asyncio.Semaphore(value)] *)
Definition Semaphore (value : Z) : result Z :=
  if (value <? 0)%Z then Raise (ValueError "Semaphore initial value must be >= 0")
  else Return value.

Section IPv6Text.

Variable IPv6_ip_int_from_string : string -> result N.
Variable IPv6_string_from_ip_int : N -> string.

(** [run_scan] up to the point where all tasks are created. *)
Definition run_scan_start (cidr : string) (ports : list Z)
    (cfg : ScannerConfig) : result state :=
  hosts <- ip_range.expand_cidr IPv6_ip_int_from_string
             IPv6_string_from_ip_int cidr (Some (max_hosts cfg)) ;;
  sem <- Semaphore (concurrency cfg) ;;
  Return (mkState sem (create_tasks hosts ports) []).

End IPv6Text.



End scanner.

(* ================================================================= *)
(** ** Notions used to state the properties *)

Module props.
Import Py.

(** Every character of [s] satisfies [P]. *)
Fixpoint chars_in (P : ascii -> bool) (s : string) : bool :=
  match s with
  | EmptyString => true
  | String c s' => P c && chars_in P s'
  end.

(** The number a digit string denotes when read after [acc]. *)
Fixpoint horner (s : string) (acc : N) : N :=
  match s with
  | EmptyString => acc
  | String c s' => horner s' (10 * acc + digit_val c)%N
  end.

(** The grammar of a port list: single integers and inclusive ranges
    joined by a hyphen, separated by commas. *)
Inductive port_item : Type :=
| Single (n : N)
| Span (lo hi : N).

Definition render_item (it : port_item) : string :=
  match it with
  | Single n => str_of_N n
  | Span lo hi => (str_of_N lo ++ "-" ++ str_of_N hi)%string
  end.

Definition render (items : list port_item) : string :=
  join "," (map render_item items).

(** The ports an item contributes, in the order the loop appends them. *)
Definition ports_of (it : port_item) : list Z :=
  match it with
  | Single n => [Z.of_N n]
  | Span lo hi => range (Z.of_N lo) (Z.of_N hi + 1)
  end.

Definition not_space (c : ascii) : bool := negb (isspace c).

(** The ports an item denotes. *)
Definition denotes (it : port_item) (p : Z) : Prop :=
  match it with
  | Single n => p = Z.of_N n
  | Span lo hi => (Z.of_N lo <= p <= Z.of_N hi)%Z
  end.

(** The numbers of an item are written with at most 4300 digits, the
    most [int] reads. *)
Definition within_int_limit (it : port_item) : Prop :=
  match it with
  | Single n => (n < 10 ^ int_max_str_digits)%N
  | Span lo hi =>
      (lo < 10 ^ int_max_str_digits)%N /\ (hi < 10 ^ int_max_str_digits)%N
  end.

(** [2 ** 32] *)
Definition two32 : N := 4294967296.

(** Printing and reading back the octet [b] gives [b]. *)
Definition octet_roundtrip (b : N) : bool :=
  match ipaddress._parse_octet (str_of_N b) with
  | Return b' => (b' =? b)%N
  | Raise _ => false
  end.

(** The prefix [p] splits the address bits of family [v] into a
    netmask and its complement, the low [max - p] bits. *)
Definition mask_ok (v : ipaddress.version) (p : N) : bool :=
  let m := ipaddress._ip_int_from_prefix v p in
  let h := N.lxor m (ipaddress._ALL_ONES v) in
  ((h =? N.ones (ipaddress._max_prefixlen v - p))
   && (N.land m h =? 0)
   && (N.lor m h =? N.ones (ipaddress._max_prefixlen v)))%N.

(** A network as [ip_network] builds it: the prefix fits the family,
    and the network address fits the family and has no host bits. *)
Definition wf_network (n : ipaddress.Network) : Prop :=
  (ipaddress.prefixlen n <= ipaddress._max_prefixlen (ipaddress.net_version n))%N
  /\ (ipaddress._ip (ipaddress.network_address n)
      < 2 ^ ipaddress._max_prefixlen (ipaddress.net_version n))%N
  /\ N.land (ipaddress._ip (ipaddress.network_address n)) (ipaddress.netmask n)
     = ipaddress._ip (ipaddress.network_address n)
  /\ ipaddress.addr_version (ipaddress.network_address n)
     = ipaddress.net_version n.

(** [len] consecutive integers from [start]. *)
Definition N_seq (start : N) (len : nat) : list N :=
  map (fun i => (start + N.of_nat i)%N) (seq 0 len).

(** Everything an iterator yields, in order. *)
Definition iter_all (it : ipaddress.host_iter) : list ipaddress.Address :=
  match it with
  | ipaddress.IterRange v start stop =>
      map (fun x => ipaddress.mkAddress v x None)
        (N_seq start (N.to_nat (stop - start)))
  | ipaddress.IterList l => l
  end.

(** How many more hosts the cap admits at index [idx], [n] without a
    cap. *)
Definition cap_left (max_hosts : option Z) (idx : Z) (n : nat) : nat :=
  match max_hosts with
  | None => n
  | Some m => Z.to_nat (m - idx)
  end.

(** The two errors [ip_network] catches. *)
Definition is_parse_error (e : exn) : bool :=
  match e with
  | AddressValueError _ | NetmaskValueError _ => true
  | _ => false
  end.

(** Where the hosts of a network lie: inside the block of the
    network, of its family; when the prefix leaves at least two host
    bits, above the network address and, for IPv4, below the broadcast
    address. *)
Definition in_block (n : ipaddress.Network) (a : ipaddress.Address) : Prop :=
  ipaddress.addr_version a = ipaddress.net_version n
  /\ (ipaddress._ip (ipaddress.network_address n) <= ipaddress._ip a
      <= ipaddress.broadcast_address n)%N
  /\ ((ipaddress.prefixlen n + 2
       <= ipaddress._max_prefixlen (ipaddress.net_version n))%N ->
      (ipaddress._ip (ipaddress.network_address n) < ipaddress._ip a)%N
      /\ (ipaddress.net_version n = ipaddress.IPv4 ->
          (ipaddress._ip a < ipaddress.broadcast_address n)%N)).

(** Strictly between the network address and the broadcast address. *)
Definition strictly_inside (n : ipaddress.Network) (a : ipaddress.Address)
  : Prop :=
  ipaddress.addr_version a = ipaddress.net_version n
  /\ (ipaddress._ip (ipaddress.network_address n) < ipaddress._ip a
      < ipaddress.broadcast_address n)%N.

(** The reading of "at most [k] addresses, all distinct, each within
    the usable host range, network and broadcast address excluded" for
    one range specification and one cap. *)
Definition usable_hosts_only
    (IPv6_ip_int_from_string : string -> result N)
    (IPv6_string_from_ip_int : N -> string)
    (cidr : string) (k : Z) : Prop :=
  forall net hosts_,
    ipaddress.ip_network IPv6_ip_int_from_string cidr false = Return net ->
    ip_range.expand_cidr IPv6_ip_int_from_string IPv6_string_from_ip_int
      cidr (Some k) = Return hosts_ ->
    (Z.of_nat (List.length hosts_) <= k)%Z
    /\ NoDup hosts_
    /\ forall s, In s hosts_ ->
         exists a, s = ipaddress.str_address IPv6_string_from_ip_int a
                   /\ strictly_inside net a.

(** What [IPv4Network.__init__] and [IPv6Network.__init__] read from
    their argument before they look at the host bits: the address and
    the prefix length. *)
Definition IPv4_parts (address : string) : result (ipaddress.Address * N) :=
  am <- ipaddress._split_addr_prefix ipaddress.IPv4 address ;;
  a <- ipaddress.IPv4Address (fst am) ;;
  p <- ipaddress._make_netmask ipaddress.IPv4 (snd am) ;;
  Return (a, p).

Definition IPv6_parts (IPv6_ip_int_from_string : string -> result N)
    (address : string) : result (ipaddress.Address * N) :=
  am <- ipaddress._split_addr_prefix ipaddress.IPv6 address ;;
  a <- ipaddress.IPv6Address IPv6_ip_int_from_string (fst am) ;;
  p <- ipaddress._make_netmask ipaddress.IPv6 (snd am) ;;
  Return (a, p).

(** The range specification [cidr] reads as the address [a] with
    prefix length [p] in family [v], the families tried as
    [ip_network] tries them: IPv4 first, IPv6 when that fails. *)
Definition reads_as (IPv6_ip_int_from_string : string -> result N)
    (cidr : string) (v : ipaddress.version) (a : ipaddress.Address) (p : N)
  : Prop :=
  match v with
  | ipaddress.IPv4 => IPv4_parts cidr = Return (a, p)
  | ipaddress.IPv6 =>
      raises (IPv4_parts cidr) = true
      /\ IPv6_parts IPv6_ip_int_from_string cidr = Return (a, p)
  end.

(** The address [a] has bits set below the prefix length [p]. *)
Definition has_host_bits (v : ipaddress.version) (a : ipaddress.Address)
    (p : N) : Prop :=
  N.land (ipaddress._ip a) (ipaddress._ip_int_from_prefix v p)
  <> ipaddress._ip a.

(** The network that contains [a] under the prefix length [p]. *)
Definition containing_network (v : ipaddress.version) (a : ipaddress.Address)
    (p : N) : ipaddress.Network :=
  ipaddress.mkNetwork v
    (ipaddress.mkAddress v
       (N.land (ipaddress._ip a) (ipaddress._ip_int_from_prefix v p)) None)
    p.

(** An instance of the IPv6 text parameters for closed examples: a
    reader that accepts nothing and a printer in plain decimal. *)
Definition no_ip6_reader : string -> result N :=
  fun _ => Raise (AddressValueError "no IPv6 text").

Definition decimal_ip6_printer : N -> string := str_of_N.

(** What a parameter is stored as, once bound. *)
Definition stored (v : models.value) : storage.sqlval :=
  match v with
  | models.VNone => storage.SqlNull
  | models.VStr t => storage.SqlText t
  | models.VInt n => storage.SqlInteger n
  | models.VBool b => storage.SqlInteger (if b then 1 else 0)
  | models.VDatetime d =>
      storage.SqlText (models.text_of_string (storage.adapt_datetime d))
  end.

(** A result whose fields can be bound: the port fits 64 bits and the
    banner has no surrogate. *)
Definition storable (r : models.ScanResult) : bool :=
  storage.int64 (models.port r)
  && match models.banner r with
     | Some t => storage.encodable t
     | None => true
     end.

(** The rows of the open transaction of a connection. *)
Definition pending_of (c : storage.Connection) : list storage.Row :=
  match storage.txn c with Some l => l | None => [] end.

(** The table [rows] has ids left for one more row per result. *)
Definition has_room (rows : list storage.Row)
    (results : list models.ScanResult) : bool :=
  (storage.next_id rows + Z.of_nat (List.length results) - 1
   <=? storage.max_rowid)%Z.

(** The row the loop of [save_results] writes for one result. *)
Definition row_of (id : Z) (now : models.datetime) (r : models.ScanResult)
  : storage.Row :=
  let rec := models.to_record now r in
  storage.mkRow id
    (stored (models.d_ip rec)) (stored (models.d_port rec))
    (storage.SqlInteger (if storage.truth (models.d_is_open rec) then 1 else 0))
    (stored (models.d_service rec)) (stored (models.d_banner rec))
    (stored (models.d_scanned_at rec)).

(** One row per result, in order, with consecutive fresh ids; the
    [i]-th result is converted at clock reading [utcnow i]. *)
Fixpoint new_rows (utcnow : nat -> models.datetime) (i : nat)
    (existing : list storage.Row) (results : list models.ScanResult)
  : list storage.Row :=
  match results with
  | [] => []
  | r :: rest =>
      let row := row_of (storage.next_id existing) (utcnow i) r in
      row :: new_rows utcnow (S i) (existing ++ [row]) rest
  end.

(** The timestamp a result is stored with. *)
Definition stored_time (now : models.datetime) (r : models.ScanResult)
  : models.datetime :=
  match models.scanned_at r with
  | Some t => t
  | None => now
  end.

(** The (host, port) pair a task was created for. *)
Definition task_pair (t : scanner.task) : string * Z :=
  (scanner.t_host t, scanner.t_port t).

(** The results of the tasks that have returned, in creation order. *)
Definition returned_results (ts : list scanner.task) : list models.ScanResult :=
  flat_map (fun t => match scanner.t_phase t with
                     | scanner.Returned r => [r]
                     | _ => []
                     end) ts.



(** The value of [_scan_host_port] for each pair, the first pair being
    task number [i]. *)
Fixpoint all_results (w : scanner.world) (cfg : config.ScannerConfig)
    (i : nat) (pairs : list (string * Z)) : list models.ScanResult :=
  match pairs with
  | [] => []
  | (host, port) :: rest =>
      scanner._scan_host_port w cfg i host port
      :: all_results w cfg (S i) rest
  end.

(** What task number [i] has gone through is consistent with the world:
    it waits for a banner only after an open probe, and what it
    returned is the value of [_scan_host_port]. *)
Definition phase_ok (w : scanner.world) (cfg : config.ScannerConfig)
    (i : nat) (t : scanner.task) : Prop :=
  match scanner.t_phase t with
  | scanner.AwaitBanner => port_scanner.check_port (scanner.probe w i) = true
  | scanner.Returned r =>
      r = scanner._scan_host_port w cfg i (scanner.t_host t) (scanner.t_port t)
  | _ => True
  end.

(** The invariant of a scan over [pairs] under [cfg]. *)
Definition scan_inv (w : scanner.world) (cfg : config.ScannerConfig)
    (pairs : list (string * Z)) (st : scanner.state) : Prop :=
  (scanner.sem_value st + Z.of_nat (scanner.active st)
   = config.concurrency cfg)%Z
  /\ (0 <= scanner.sem_value st)%Z
  /\ Permutation (scanner.results st) (returned_results (scanner.tasks st))
  /\ map task_pair (scanner.tasks st) = pairs
  /\ forall i t, nth_error (scanner.tasks st) i = Some t -> phase_ok w cfg i t.

Section Resumed.
Import scanner.

(** What [resume] does, by the phase the task was in. *)
Inductive resumed (w : scanner.world) (cfg : config.ScannerConfig)
    (st : scanner.state) (i : nat)
  : scanner.state -> Prop :=
| resumed_admit : forall t l1 l2,
    tasks st = l1 ++ t :: l2 -> List.length l1 = i ->
    t_phase t = AwaitSem -> (0 < sem_value st)%Z ->
    resumed w cfg st i
      (mkState (sem_value st - 1)
         (l1 ++ mkTask (t_host t) (t_port t) AwaitCheck :: l2) (results st))
| resumed_open : forall t l1 l2,
    tasks st = l1 ++ t :: l2 -> List.length l1 = i ->
    t_phase t = AwaitCheck -> port_scanner.check_port (probe w i) = true ->
    resumed w cfg st i
      (mkState (sem_value st)
         (l1 ++ mkTask (t_host t) (t_port t) AwaitBanner :: l2) (results st))
| resumed_closed : forall t l1 l2,
    tasks st = l1 ++ t :: l2 -> List.length l1 = i ->
    t_phase t = AwaitCheck -> port_scanner.check_port (probe w i) = false ->
    resumed w cfg st i
      (mkState (sem_value st + 1)
         (l1 ++ mkTask (t_host t) (t_port t)
                  (Returned (closed_result w i (t_host t) (t_port t))) :: l2)
         (results st ++ [closed_result w i (t_host t) (t_port t)]))
| resumed_banner : forall t l1 l2,
    tasks st = l1 ++ t :: l2 -> List.length l1 = i ->
    t_phase t = AwaitBanner ->
    resumed w cfg st i
      (mkState (sem_value st + 1)
         (l1 ++ mkTask (t_host t) (t_port t)
                  (Returned (open_result w cfg i (t_host t) (t_port t))) :: l2)
         (results st ++ [open_result w cfg i (t_host t) (t_port t)])).

End Resumed.

(** A closed-port result carries neither a banner nor a service. *)
Definition closed_is_bare (r : models.ScanResult) : Prop :=
  models.is_open r = false ->
  models.banner r = None /\ models.service r = None.

(** A world for closed examples: nothing answers, and the clock
    stands still. *)
Definition silent_world : scanner.world :=
  scanner.mkWorld (fun _ => net.mkConnection false false None true)
    (fun _ => net.mkConnection false false None true)
    (fun _ => models.mkDatetime 2024 3 7 9 5 0 0).


End props.

(* ================================================================= *)
(** ** Further notions: port lists *)

Module props_ports.
Import Py.

(** The characters a well-formed port list is written with: digits,
    commas, hyphens, the sign and the underscore [int] accepts, and
    whitespace. *)
Definition port_char (c : ascii) : bool :=
  isdigit c || Ascii.eqb c ","%char || Ascii.eqb c "-"%char
  || Ascii.eqb c "+"%char || Ascii.eqb c "_"%char || isspace c.

(** [int] with the test of the first character written with [if]. *)
Definition int_by_cases (s : string) : result Z :=
  match int_strip s with
  | String c d =>
      if Ascii.eqb c "-"%char then int_value (fun n => (- Z.of_N n)%Z) d
      else if Ascii.eqb c "+"%char then int_value Z.of_N d
      else int_value Z.of_N (String c d)
  | EmptyString => int_value Z.of_N EmptyString
  end.

End props_ports.

(* ================================================================= *)
(** ** cli.py: the scan command *)

Module cli_commands.
Import Py models config.

(** [sum(1 for r in results if r.is_open)] *)
Definition open_count (results : list ScanResult) : nat :=
  List.length (filter is_open results).

Section IPv6Text.

Variable IPv6_ip_int_from_string : string -> result N.
Variable IPv6_string_from_ip_int : N -> string.

(** [cmd_scan] up to the point where [run_scan] has created its tasks:
    the ports argument is parsed, the database initialised, the scan
    started.  The database file is returned with the outcome. *)
Definition cmd_scan_start (db : storage.database) (cidr ports_arg : string)
    (cfg : ScannerConfig) : storage.database * result scanner.state :=
  match cli.parse_ports ports_arg with
  | Raise e => (db, Raise e)
  | Return ports =>
      let db1 := storage.init_db db in
      (db1, scanner.run_scan_start IPv6_ip_int_from_string
              IPv6_string_from_ip_int cidr ports cfg)
  end.

End IPv6Text.

(** [cmd_scan] from the point where [run_scan] has returned [results]:
    they are saved, and the number of open ports is reported. *)
Definition cmd_scan_finish (w : storage.world) (db : storage.database)
    (results : list ScanResult) : storage.database * result nat :=
  match storage.save_results w db results with
  | (db', Return _) => (db', Return (open_count results))
  | (db', Raise e) => (db', Raise e)
  end.

End cli_commands.

(* ================================================================= *)
(** ** Further notions: the stored table *)

Module props_storage.
Import Py models storage.

(** The ids of the table grow with the order of insertion. *)
Definition ids_ascending (rows : list Row) : Prop :=
  StronglySorted Z.lt (map c_id rows).

(** A result as it is once stored: its timestamp is the one it was
    stored with. *)
Definition as_stored (now : datetime) (r : ScanResult) : ScanResult :=
  mkScanResult (ip r) (port r) (is_open r) (service r) (banner r)
    (Some (props.stored_time now r)).

(** The field values of the results as stored, the [i]-th result
    having been converted at clock reading [utcnow i]. *)
Fixpoint stored_view (utcnow : nat -> datetime) (i : nat)
    (results : list ScanResult) : list record :=
  match results with
  | [] => []
  | r :: rest => asdict (as_stored (utcnow i) r) :: stored_view utcnow (S i) rest
  end.

(** The rows of a database file, none when the table is missing. *)
Definition rows_of (db : database) : list Row :=
  match db with Some rows => rows | None => [] end.

(** A reader for closed examples: it knows one timestamp. *)
Definition one_timestamp_reader (t : codecs.text) : result datetime :=
  if list_eq_dec N.eq_dec t (text_of_string "2024-03-07T09:05:00")
  then Return (mkDatetime 2024 3 7 9 5 0 0)
  else Raise (ValueError "Invalid isoformat string").

End props_storage.

(* ================================================================= *)
(** ** mesh_scanner_service.py: the cost model *)

Module mesh_scanner_service.

(** [estimate_cost_tokens]; [//] is floor division. *)
Definition estimate_cost_tokens (host_count port_count : Z) : Z :=
  let raw := (host_count * port_count)%Z in
  let tokens := ((raw + 9) / 10)%Z in
  Z.max tokens 1.

End mesh_scanner_service.

(* ================================================================= *)
(** ** ledger_store.py

    The ledger the scan service charges.  The dictionary of accounts is
    an association list in insertion order; the functions mutate the
    state they are given, so each returns the state it leaves behind. *)

Module ledger_store.

Record Account : Type := mkAccount {
  balance : Z;
  created_at : string;
  meta : list (string * string)
}.

Record TransferRecord : Type := mkTransferRecord {
  id : string;
  timestamp : string;
  from_account : string;
  to_account : string;
  amount : Z;
  job_id : option string;
  note : option string
}.

Record LedgerState : Type := mkLedgerState {
  accounts : list (string * Account);
  transfers : list TransferRecord
}.

(** The exceptions the ledger raises, by class; the message texts are
    left out. *)
Inductive error : Type :=
| ValueError
| AccountNotFoundError
| InsufficientBalanceError.

Inductive outcome (A : Type) : Type :=
| Ok (a : A)
| Fail (e : error).
Arguments Ok {A} a.
Arguments Fail {A} e.

(** [d[k]], [None] standing for a missing key. *)
Fixpoint lookup (k : string) (d : list (string * Account)) : option Account :=
  match d with
  | [] => None
  | (k', a) :: d' => if String.eqb k' k then Some a else lookup k d'
  end.

(** [k in d] *)
Definition has_key (k : string) (d : list (string * Account)) : bool :=
  match lookup k d with Some _ => true | None => false end.

(** [d[k]["balance"] = f(d[k]["balance"])] for a key that is present. *)
Fixpoint update_balance (k : string) (f : Z -> Z) (d : list (string * Account))
  : list (string * Account) :=
  match d with
  | [] => []
  | (k', a) :: d' =>
      if String.eqb k' k
      then (k', mkAccount (f (balance a)) (created_at a) (meta a)) :: d'
      else (k', a) :: update_balance k f d'
  end.

Definition create_empty_state : LedgerState := mkLedgerState [] [].

(** [datetime.utcnow().isoformat() + "Z"] *)
Definition stamp (now : models.datetime) : string :=
  (models.isoformat now ++ "Z")%string.

Definition ensure_account (state : LedgerState) (account_id : string)
    (initial_balance : Z) (now : models.datetime) : LedgerState :=
  if negb (has_key account_id (accounts state)) then
    mkLedgerState
      (accounts state ++ [(account_id, mkAccount initial_balance (stamp now) [])])
      (transfers state)
  else state.

Definition get_balance (state : LedgerState) (account_id : string)
  : outcome Z :=
  match lookup account_id (accounts state) with
  | None => Fail AccountNotFoundError
  | Some a => Ok (balance a)
  end.

(** [can_pay]: only [AccountNotFoundError] is caught. *)
Definition can_pay (state : LedgerState) (payer_id : string) (amount_ : Z)
  : outcome bool :=
  match get_balance state payer_id with
  | Ok b => Ok (amount_ <=? b)%Z
  | Fail AccountNotFoundError => Ok false
  | Fail e => Fail e
  end.

(** [transfer]: the state after the call and its outcome.  [uuid] is
    the identifier [uuid4()] draws, [now] the clock at the call. *)
Definition transfer (state : LedgerState) (payer_id receiver_id : string)
    (amount_ : Z) (job_id_ note_ : option string)
    (uuid : string) (now : models.datetime)
  : LedgerState * outcome TransferRecord :=
  if (amount_ <=? 0)%Z then
    (state, Fail ValueError)
  else if negb (has_key payer_id (accounts state)) then
    (state, Fail AccountNotFoundError)
  else if negb (has_key receiver_id (accounts state)) then
    (state, Fail AccountNotFoundError)
  else
    match lookup payer_id (accounts state) with
    | None => (state, Fail AccountNotFoundError)
    | Some payer =>
        if (balance payer <? amount_)%Z then
          (state, Fail InsufficientBalanceError)
        else
          let accounts1 :=
            update_balance payer_id (fun b => b - amount_)%Z (accounts state) in
          let accounts2 :=
            update_balance receiver_id (fun b => b + amount_)%Z accounts1 in
          let record :=
            mkTransferRecord uuid (stamp now) payer_id receiver_id amount_
              job_id_ note_ in
          (mkLedgerState accounts2 (transfers state ++ [record]), Ok record)
    end.

(** [l[:n]] *)
Definition slice_to {A} (n : Z) (l : list A) : list A :=
  if (n <? 0)%Z then firstn (List.length l - Z.to_nat (- n)) l
  else firstn (Z.to_nat n) l.

(** [if account_id:]: given and not empty. *)
Definition given (account_id : option string) : option string :=
  match account_id with
  | Some EmptyString => None
  | other => other
  end.

Definition involves (account_id : string) (t : TransferRecord) : bool :=
  String.eqb (from_account t) account_id || String.eqb (to_account t) account_id.

Definition get_transfers (state : LedgerState) (account_id : option string)
    (limit : option Z) : list TransferRecord :=
  let transfers1 :=
    match given account_id with
    | Some a => filter (involves a) (transfers state)
    | None => transfers state
    end in
  let transfers2 := rev transfers1 in
  match limit with
  | Some n => slice_to n transfers2
  | None => transfers2
  end.

End ledger_store.

(* ================================================================= *)
(** ** ledger_service.py *)

Module ledger_service.
Import ledger_store.

Record LedgerConfig : Type := mkLedgerConfig {
  default_provider_account : string;
  auto_create_accounts : bool
}.

(** The service: its configuration, the state it holds in memory and
    the state last written to the ledger file. *)
Record LedgerService : Type := mkLedgerService {
  config : LedgerConfig;
  _state : LedgerState;
  saved : LedgerState
}.

(** [self._save()] *)
Definition _save (self : LedgerService) : LedgerService :=
  mkLedgerService (config self) (_state self) (_state self).

Definition with_state (self : LedgerService) (s : LedgerState) : LedgerService :=
  mkLedgerService (config self) s (saved self).

Definition create_account_if_missing (self : LedgerService)
    (account_id : string) (initial_balance : Z) (now : models.datetime)
  : LedgerService * bool :=
  let existed := has_key account_id (accounts (_state self)) in
  let self1 :=
    with_state self (ensure_account (_state self) account_id initial_balance now) in
  if negb existed then (_save self1, true) else (self1, false).

Definition require_balance (self : LedgerService) (payer_id : string)
    (amount_ : Z) : outcome bool :=
  can_pay (_state self) payer_id amount_.

(** [charge]; [utcnow 0] and [utcnow 1] are the clock at the two calls
    of [ensure_account], [utcnow 2] the clock at [transfer]. *)
Definition charge (self : LedgerService) (payer_id receiver_id : string)
    (amount_ : Z) (job_id_ note_ : option string)
    (uuid : string) (utcnow : nat -> models.datetime)
  : LedgerService * outcome TransferRecord :=
  let s1 :=
    if auto_create_accounts (config self) then
      ensure_account (ensure_account (_state self) payer_id 0 (utcnow 0%nat))
        receiver_id 0 (utcnow 1%nat)
    else _state self in
  match transfer s1 payer_id receiver_id amount_ job_id_ note_ uuid
          (utcnow 2%nat) with
  | (s2, Ok record) => (_save (with_state self s2), Ok record)
  | (s2, Fail e) => (with_state self s2, Fail e)
  end.




(** [list_accounts] *)
Definition list_accounts (self : LedgerService) : list (string * Z) :=
  map (fun kv => (fst kv, balance (snd kv))) (accounts (_state self)).

End ledger_service.

(* ================================================================= *)
(** ** Further notions: the ledger *)

Module props_ledger.
Import ledger_store.

(** The sum of the balances of a dictionary of accounts. *)
Definition sum_balances (d : list (string * Account)) : Z :=
  fold_right Z.add 0%Z (map (fun kv => balance (snd kv)) d).

(** The tokens in circulation. *)
Definition total (s : LedgerState) : Z :=
  fold_right Z.add 0%Z (map (fun kv => balance (snd kv)) (accounts s)).

(** No account is overdrawn. *)
Definition solvent (s : LedgerState) : Prop :=
  Forall (fun kv => (0 <= balance (snd kv))%Z) (accounts s).

(** The dictionary has each key once. *)
Definition keys_unique (s : LedgerState) : Prop :=
  NoDup (map fst (accounts s)).

(** The balance of an account, 0 for a missing one. *)
Definition balance_of (s : LedgerState) (k : string) : Z :=
  match lookup k (accounts s) with
  | Some a => balance a
  | None => 0%Z
  end.

(** A clock reading and a small ledger for closed examples. *)
Definition noon : models.datetime := models.mkDatetime 2024 5 17 12 0 0 0.

Definition two_accounts : LedgerState :=
  mkLedgerState
    [("alice", mkAccount 50 "2024-05-17T11:00:00Z" []);
     ("bob", mkAccount 5 "2024-05-17T11:30:00Z" [])]
    [].

(** A clock and a service holding [two_accounts], saved. *)
Definition ticking (k : nat) : models.datetime :=
  models.mkDatetime 2024 5 17 12 0 (N.of_nat k) 0.

Definition sample_service : ledger_service.LedgerService :=
  ledger_service.mkLedgerService
    (ledger_service.mkLedgerConfig "mesh_provider" true)
    two_accounts two_accounts.

End props_ledger.

(* ================================================================= *)
(** ** client.py: the ledger client in direct mode *)

Module client.
Import ledger_store.

(** What a call of the client raises: its own [PaymentRequiredError],
    or an exception of the ledger passing through. *)
Inductive client_error : Type :=
| PaymentRequiredError (required balance : Z) (account_id : string)
| LedgerError (e : error).

Inductive client_outcome (A : Type) : Type :=
| Returned (a : A)
| Raised (e : client_error).
Arguments Returned {A} a.
Arguments Raised {A} e.

(** [LedgerClient.get_balance], direct mode. *)
Definition get_balance (service : ledger_service.LedgerService)
    (account_id : string) : client_outcome Z :=
  match ledger_store.get_balance (ledger_service._state service) account_id with
  | Ok b => Returned b
  | Fail e => Raised (LedgerError e)
  end.

(** [LedgerClient.can_pay], direct mode. *)
Definition can_pay (service : ledger_service.LedgerService)
    (account_id : string) (amount_ : Z) : client_outcome bool :=
  match ledger_service.require_balance service account_id amount_ with
  | Ok b => Returned b
  | Fail e => Raised (LedgerError e)
  end.

(** [raise PaymentRequiredError(required=amount, balance=balance, ...)]
    after [balance = get_balance(payer_id)]. *)
Definition payment_required {A} (service : ledger_service.LedgerService)
    (payer_id : string) (amount_ : Z) : client_outcome A :=
  match get_balance service payer_id with
  | Returned b => Raised (PaymentRequiredError amount_ b payer_id)
  | Raised e => Raised e
  end.

(** [LedgerClient.charge], direct mode: the service after the call and
    the outcome. *)
Definition charge (service : ledger_service.LedgerService)
    (payer_id receiver_id : string) (amount_ : Z) (job_id_ : option string)
    (uuid : string) (utcnow : nat -> models.datetime)
  : ledger_service.LedgerService * client_outcome TransferRecord :=
  match can_pay service payer_id amount_ with
  | Raised e => (service, Raised e)
  | Returned false => (service, payment_required service payer_id amount_)
  | Returned true =>
      match ledger_service.charge service payer_id receiver_id amount_
              job_id_ None uuid utcnow with
      | (service', Ok record) => (service', Returned record)
      | (service', Fail InsufficientBalanceError) =>
          (service', payment_required service' payer_id amount_)
      | (service', Fail e) => (service', Raised (LedgerError e))
      end
  end.

(** [LedgerClient.ensure_account], direct mode. *)
Definition ensure_account (service : ledger_service.LedgerService)
    (account_id : string) (initial_balance : Z) (now : models.datetime)
  : ledger_service.LedgerService * bool :=
  ledger_service.create_account_if_missing service account_id initial_balance
    now.

End client.

(* ################################################################# *)
(** * Part II: theorems *)

(* ================================================================= *)
(** ** Strings and integers *)

Module PyFacts.
Import Py props.

Lemma small_cases (d : N) : (d < 10)%N ->
  d = 0%N \/ d = 1%N \/ d = 2%N \/ d = 3%N \/ d = 4%N \/ d = 5%N
  \/ d = 6%N \/ d = 7%N \/ d = 8%N \/ d = 9%N.
Proof. lia. Qed.

Lemma isdigit_digit_char (d : N) : (d < 10)%N -> isdigit (digit_char d) = true.
Proof.
  intros H. destruct (small_cases d H) as [E|[E|[E|[E|[E|[E|[E|[E|[E|E]]]]]]]]];
    subst d; reflexivity.
Qed.

Lemma digit_val_digit_char (d : N) : (d < 10)%N -> digit_val (digit_char d) = d.
Proof.
  intros H. destruct (small_cases d H) as [E|[E|[E|[E|[E|[E|[E|[E|[E|E]]]]]]]]];
    subst d; reflexivity.
Qed.

Lemma mod10_lt (n : N) : (n mod 10 < 10)%N.
Proof. apply N.mod_lt. discriminate. Qed.

Lemma str_digits_all_digits (f : nat) : forall n acc,
  all_digits acc = true -> all_digits (str_digits f n acc) = true.
Proof.
  induction f as [|f IH]; intros n acc Hacc; simpl; [exact Hacc|].
  assert (Hd : all_digits (String (digit_char (n mod 10)) acc) = true).
  { simpl. rewrite isdigit_digit_char by apply mod10_lt. exact Hacc. }
  destruct (n / 10 =? 0)%N; [exact Hd | apply IH, Hd].
Qed.

Lemma str_digits_horner (f : nat) : forall n acc,
  (n < 2 ^ N.of_nat f)%N ->
  horner (str_digits f n acc) 0 = horner acc n.
Proof.
  induction f as [|f IH]; intros n acc Hn.
  - simpl in *. assert (n = 0%N) by lia. subst. reflexivity.
  - cbn [str_digits].
    assert (Hstep : horner (String (digit_char (n mod 10)) acc) (n / 10)
                    = horner acc n).
    { cbn [horner]. rewrite digit_val_digit_char by apply mod10_lt.
      f_equal. pose proof (N.div_mod n 10). lia. }
    destruct (n / 10 =? 0)%N eqn:E.
    + apply N.eqb_eq in E. rewrite <- Hstep, E. reflexivity.
    + rewrite IH; [exact Hstep|].
      rewrite Nat2N.inj_succ, N.pow_succ_r' in Hn.
      assert (n / 10 <= n / 2)%N.
      { apply N.div_le_compat_l. lia. }
      assert (n / 2 < 2 ^ N.of_nat f)%N.
      { apply N.Div0.div_lt_upper_bound. lia. }
      lia.
Qed.

Lemma str_digits_nonempty (f : nat) : forall n acc,
  str_digits (S f) n acc <> EmptyString.
Proof.
  induction f as [|f IH]; intros n acc.
  - simpl. destruct (n / 10 =? 0)%N; discriminate.
  - change (str_digits (S (S f)) n acc)
      with (if (n / 10 =? 0)%N then String (digit_char (n mod 10)) acc
            else str_digits (S f) (n / 10) (String (digit_char (n mod 10)) acc)).
    destruct (n / 10 =? 0)%N; [discriminate | apply IH].
Qed.

Lemma size_nat_bound (n : N) : (n < 2 ^ N.of_nat (S (N.size_nat n)))%N.
Proof.
  destruct n as [|p]; [reflexivity|].
  rewrite Nat2N.inj_succ, N.pow_succ_r'.
  assert (H : (N.pos p < 2 ^ N.of_nat (N.size_nat (N.pos p)))%N).
  { simpl. induction p as [p IH|p IH|]; simpl Pos.size_nat.
    - rewrite Nat2N.inj_succ, N.pow_succ_r'. lia.
    - rewrite Nat2N.inj_succ, N.pow_succ_r'. lia.
    - reflexivity. }
  lia.
Qed.

Lemma str_of_N_digits (n : N) : all_digits (str_of_N n) = true.
Proof. apply str_digits_all_digits. reflexivity. Qed.

Lemma str_of_N_nonempty (n : N) : str_of_N n <> EmptyString.
Proof. apply str_digits_nonempty. Qed.

Lemma str_of_N_horner (n : N) : horner (str_of_N n) 0 = n.
Proof.
  unfold str_of_N. rewrite str_digits_horner by apply size_nat_bound.
  reflexivity.
Qed.

Lemma int_digits_horner (s : string) : forall acc b,
  all_digits s = true -> s <> EmptyString ->
  int_digits s acc b = Some (horner s acc).
Proof.
  induction s as [|c s IH]; intros acc b Hd Hne; [congruence|].
  simpl in Hd. apply andb_true_iff in Hd as [Hc Hs].
  simpl. rewrite Hc. destruct s as [|c' s'].
  - reflexivity.
  - apply IH; [exact Hs | discriminate].
Qed.

Lemma digit_cases (c : ascii) : isdigit c = true ->
  In c ["0"; "1"; "2"; "3"; "4"; "5"; "6"; "7"; "8"; "9"]%char.
Proof.
  destruct c as [[] [] [] [] [] [] [] []]; intros H;
    try discriminate H; simpl; tauto.
Qed.

(** A property of the ten digits holds of every digit. *)
Lemma digit_ind (P : ascii -> Prop) :
  P "0"%char -> P "1"%char -> P "2"%char -> P "3"%char -> P "4"%char ->
  P "5"%char -> P "6"%char -> P "7"%char -> P "8"%char -> P "9"%char ->
  forall c, isdigit c = true -> P c.
Proof.
  intros H0 H1 H2 H3 H4 H5 H6 H7 H8 H9 c Hc.
  destruct (digit_cases c Hc) as [E|[E|[E|[E|[E|[E|[E|[E|[E|[E|[]]]]]]]]]]];
    subst c; assumption.
Qed.

Lemma chars_in_app (P : ascii -> bool) (s t : string) :
  chars_in P (s ++ t) = chars_in P s && chars_in P t.
Proof.
  induction s as [|c s IH]; simpl; [reflexivity|].
  rewrite IH, andb_assoc. reflexivity.
Qed.

Lemma chars_in_weaken (P Q : ascii -> bool) (s : string) :
  (forall c, P c = true -> Q c = true) ->
  chars_in P s = true -> chars_in Q s = true.
Proof.
  intros HPQ. induction s as [|c s IH]; simpl; [reflexivity|].
  intros H. apply andb_true_iff in H as [Hc Hs].
  rewrite (HPQ c Hc), (IH Hs). reflexivity.
Qed.

Lemma all_digits_chars_in (s : string) : all_digits s = chars_in isdigit s.
Proof. induction s as [|c s IH]; simpl; [|rewrite IH]; reflexivity. Qed.

Lemma contains_chars_in (sep : ascii) (s : string) :
  chars_in (fun c => negb (Ascii.eqb c sep)) s = true ->
  contains sep s = false.
Proof.
  induction s as [|c s IH]; simpl; [reflexivity|].
  intros H. apply andb_true_iff in H as [Hc Hs].
  apply negb_true_iff in Hc. rewrite Hc, (IH Hs). reflexivity.
Qed.

Lemma contains_app (sep : ascii) (s t : string) :
  contains sep (s ++ t) = contains sep s || contains sep t.
Proof.
  induction s as [|c s IH]; simpl; [reflexivity|].
  rewrite IH, orb_assoc. reflexivity.
Qed.

Lemma digits_free_of (sep : ascii) (s : string) :
  isdigit sep = false -> all_digits s = true -> contains sep s = false.
Proof.
  intros Hsep Hs. apply contains_chars_in.
  rewrite all_digits_chars_in in Hs.
  apply (chars_in_weaken isdigit); [|exact Hs].
  intros c Hc. apply negb_true_iff.
  destruct (Ascii.eqb_spec c sep) as [->|]; [congruence | reflexivity].
Qed.

(** *** split and join *)

Lemma split_nonempty (sep : ascii) (s : string) : split sep s <> [].
Proof.
  destruct s as [|c s]; simpl; [discriminate|].
  destruct (Ascii.eqb c sep); [discriminate|].
  destruct (split sep s); discriminate.
Qed.

Lemma split_free (sep : ascii) (s : string) :
  contains sep s = false -> split sep s = [s].
Proof.
  induction s as [|c s IH]; simpl; [reflexivity|].
  intros H. apply orb_false_iff in H as [Hc Hs].
  rewrite Hc, (IH Hs). reflexivity.
Qed.

Lemma split_app_sep (sep : ascii) (p rest : string) :
  contains sep p = false ->
  split sep (p ++ String sep rest) = p :: split sep rest.
Proof.
  induction p as [|c p IH]; simpl.
  - intros _. rewrite Ascii.eqb_refl. reflexivity.
  - intros H. apply orb_false_iff in H as [Hc Hp].
    rewrite Hc, (IH Hp). reflexivity.
Qed.

Lemma split_join (sep : ascii) (parts : list string) :
  parts <> [] ->
  Forall (fun p => contains sep p = false) parts ->
  split sep (join (String sep EmptyString) parts) = parts.
Proof.
  induction parts as [|p ps IH]; intros Hne Hall; [congruence|].
  inversion Hall as [|? ? Hp Hps]; subst.
  destruct ps as [|q qs].
  - simpl. apply split_free, Hp.
  - change (join (String sep EmptyString) (p :: q :: qs))
      with (p ++ String sep (join (String sep EmptyString) (q :: qs)))%string.
    rewrite split_app_sep by exact Hp.
    rewrite IH; [reflexivity | discriminate | exact Hps].
Qed.

Lemma split1_app_sep (sep : ascii) (p rest : string) :
  contains sep p = false ->
  split1 sep (p ++ String sep rest) = [p; rest].
Proof.
  induction p as [|c p IH]; simpl.
  - intros _. rewrite Ascii.eqb_refl. reflexivity.
  - intros H. apply orb_false_iff in H as [Hc Hp].
    rewrite Hc, (IH Hp). reflexivity.
Qed.

(** *** strip *)

Lemma lstrip_id (s : string) : chars_in not_space s = true -> lstrip s = s.
Proof.
  destruct s as [|c s]; simpl; [reflexivity|].
  intros H. apply andb_true_iff in H as [Hc _].
  apply negb_true_iff in Hc. rewrite Hc. reflexivity.
Qed.

Lemma rstrip_id (s : string) : chars_in not_space s = true -> rstrip s = s.
Proof.
  induction s as [|c s IH]; simpl; [reflexivity|].
  intros H. apply andb_true_iff in H as [Hc Hs].
  apply negb_true_iff in Hc. rewrite (IH Hs), Hc.
  destruct s; reflexivity.
Qed.

Lemma strip_id (s : string) : chars_in not_space s = true -> strip s = s.
Proof.
  intros H. unfold strip. rewrite lstrip_id by exact H. apply rstrip_id, H.
Qed.

Lemma digit_not_space (c : ascii) : isdigit c = true -> not_space c = true.
Proof. revert c. apply digit_ind; reflexivity. Qed.

Lemma digits_not_space (s : string) :
  all_digits s = true -> chars_in not_space s = true.
Proof.
  rewrite all_digits_chars_in. apply chars_in_weaken, digit_not_space.
Qed.

(** *** int and str are inverse on the naturals within the digit limit *)

Lemma digit_not_int_space (c : ascii) : isdigit c = true -> int_isspace c = false.
Proof. revert c. apply digit_ind; reflexivity. Qed.

Lemma int_strip_digits (s : string) : all_digits s = true -> int_strip s = s.
Proof.
  intros H. unfold int_strip.
  assert (E : int_lstrip s = s).
  { destruct s as [|c s]; [reflexivity|]. simpl in *.
    apply andb_true_iff in H as [Hc _].
    rewrite (digit_not_int_space c Hc). reflexivity. }
  rewrite E. clear E. induction s as [|c s IH]; simpl; [reflexivity|].
  simpl in H. apply andb_true_iff in H as [Hc Hs].
  rewrite (IH Hs), (digit_not_int_space c Hc). destruct s; reflexivity.
Qed.

Lemma str_digits_count (f : nat) : forall n acc k,
  (1 <= k)%N -> (n < 10 ^ k)%N ->
  (count_digits (str_digits f n acc) <= k + count_digits acc)%N.
Proof.
  induction f as [|f IH]; intros n acc k Hk Hn; [simpl; lia|].
  cbn [str_digits].
  assert (Hd : count_digits (String (digit_char (n mod 10)) acc)
               = (1 + count_digits acc)%N).
  { cbn [count_digits]. rewrite isdigit_digit_char by apply mod10_lt.
    reflexivity. }
  destruct (n / 10 =? 0)%N eqn:E; [rewrite Hd; lia|].
  apply N.eqb_neq in E.
  destruct (N.zero_or_succ k) as [->|[k' ->]]; [lia|].
  rewrite N.pow_succ_r' in Hn.
  assert (Hq : (n / 10 < 10 ^ k')%N).
  { apply N.Div0.div_lt_upper_bound. exact Hn. }
  assert (Hk' : (1 <= k')%N).
  { destruct (N.zero_or_succ k') as [->|[k'' ->]]; [|lia].
    rewrite N.pow_0_r in Hq. exfalso. apply E. clear - Hq.
    destruct (n / 10)%N; [reflexivity | lia]. }
  specialize (IH (n / 10)%N (String (digit_char (n mod 10)) acc) k' Hk' Hq).
  rewrite Hd in IH. lia.
Qed.

Lemma str_of_N_count (n k : N) :
  (1 <= k)%N -> (n < 10 ^ k)%N -> (count_digits (str_of_N n) <= k)%N.
Proof.
  intros Hk Hn. unfold str_of_N.
  pose proof (str_digits_count (S (N.size_nat n)) n EmptyString k Hk Hn) as H.
  change (count_digits EmptyString) with 0%N in H.
  rewrite N.add_0_r in H. exact H.
Qed.

Lemma int_of_digits (s : string) :
  all_digits s = true -> s <> EmptyString ->
  (count_digits s <= int_max_str_digits)%N ->
  int s = Return (Z.of_N (horner s 0)).
Proof.
  intros Hd Hne Hc. unfold int. rewrite int_strip_digits by exact Hd.
  pose proof (int_digits_horner s 0 false Hd Hne) as Hv.
  assert (Hval : int_value Z.of_N s = Return (Z.of_N (horner s 0))).
  { unfold int_value. rewrite Hv.
    destruct (N.ltb_spec int_max_str_digits (count_digits s)); [lia|].
    reflexivity. }
  destruct s as [|c s']; [congruence|].
  simpl in Hd. apply andb_true_iff in Hd as [Hc' _]. clear Hne Hv Hc.
  revert c Hc' Hval. apply (digit_ind (fun c => _ -> _)); intros Hval;
    exact Hval.
Qed.

Lemma int_str_of_N (n : N) : (n < 10 ^ int_max_str_digits)%N ->
  int (str_of_N n) = Return (Z.of_N n).
Proof.
  intros Hn. rewrite int_of_digits.
  - rewrite str_of_N_horner. reflexivity.
  - apply str_of_N_digits.
  - apply str_of_N_nonempty.
  - apply str_of_N_count; [discriminate | exact Hn].
Qed.

(** A number of more than [k] digits is written with more than [k]
    digit characters. *)
Lemma str_digits_count_lower (f : nat) : forall n acc k,
  (n < 2 ^ N.of_nat f)%N -> (10 ^ k <= n)%N ->
  (k + 1 + count_digits acc <= count_digits (str_digits f n acc))%N.
Proof.
  induction f as [|f IH]; intros n acc k Hf Hn.
  - exfalso. simpl in Hf.
    assert (0 < 10 ^ k)%N by (apply N.neq_0_lt_0, N.pow_nonzero; discriminate).
    lia.
  - cbn [str_digits].
    assert (Hd : count_digits (String (digit_char (n mod 10)) acc)
                 = (1 + count_digits acc)%N).
    { cbn [count_digits]. rewrite isdigit_digit_char by apply mod10_lt.
      reflexivity. }
    destruct (n / 10 =? 0)%N eqn:E.
    + apply N.eqb_eq in E. rewrite Hd.
      assert (Hk : k = 0%N).
      { destruct (N.zero_or_succ k) as [->|[k' ->]]; [reflexivity|].
        exfalso. rewrite N.pow_succ_r' in Hn.
        assert (0 < 10 ^ k')%N
          by (apply N.neq_0_lt_0, N.pow_nonzero; discriminate).
        assert (1 <= n / 10)%N; [|lia].
        apply N.div_le_lower_bound; [discriminate | lia]. }
      subst k. lia.
    + apply N.eqb_neq in E.
      assert (Hf' : (n / 10 < 2 ^ N.of_nat f)%N).
      { rewrite Nat2N.inj_succ, N.pow_succ_r' in Hf.
        assert (n / 10 <= n / 2)%N by (apply N.div_le_compat_l; lia).
        assert (n / 2 < 2 ^ N.of_nat f)%N
          by (apply N.Div0.div_lt_upper_bound; lia).
        lia. }
      destruct (N.zero_or_succ k) as [->|[k' ->]].
      * assert (H1 : (10 ^ 0 <= n / 10)%N).
        { rewrite N.pow_0_r. destruct (n / 10)%N; [congruence | lia]. }
        pose proof (IH _ (String (digit_char (n mod 10)) acc) _ Hf' H1) as H.
        rewrite Hd in H. lia.
      * assert (H1 : (10 ^ k' <= n / 10)%N).
        { rewrite N.pow_succ_r' in Hn.
          apply N.div_le_lower_bound; [discriminate | exact Hn]. }
        pose proof (IH _ (String (digit_char (n mod 10)) acc) _ Hf' H1) as H.
        rewrite Hd in H. lia.
Qed.

Lemma str_of_N_count_lower (n k : N) :
  (10 ^ k <= n)%N -> (k < count_digits (str_of_N n))%N.
Proof.
  intros Hn. unfold str_of_N.
  pose proof (str_digits_count_lower (S (N.size_nat n)) n EmptyString k
                (size_nat_bound n) Hn) as H.
  change (count_digits EmptyString) with 0%N in H. lia.
Qed.

(** [int] refuses the decimal text of every number of more than 4300
    digits. *)
Lemma int_str_of_N_long (n : N) : (10 ^ int_max_str_digits <= n)%N ->
  int (str_of_N n)
  = Raise (ValueError
             "Exceeds the limit (4300 digits) for integer string conversion").
Proof.
  intros Hn. pose proof (str_of_N_digits n) as Hd.
  pose proof (str_of_N_nonempty n) as Hne.
  pose proof (str_of_N_count_lower n _ Hn) as Hc.
  unfold int. rewrite int_strip_digits by exact Hd.
  pose proof (int_digits_horner _ 0 false Hd Hne) as Hv.
  assert (Hval : int_value Z.of_N (str_of_N n)
                 = Raise (ValueError
                     "Exceeds the limit (4300 digits) for integer string conversion")).
  { unfold int_value. rewrite Hv.
    destruct (N.ltb_spec int_max_str_digits (count_digits (str_of_N n)));
      [reflexivity | lia]. }
  destruct (str_of_N n) as [|c s']; [congruence|].
  simpl in Hd. apply andb_true_iff in Hd as [Hc' _]. clear Hne Hv Hc.
  revert c Hc' Hval. apply (digit_ind (fun c => _ -> _)); intros Hval;
    exact Hval.
Qed.

(** Numbers of at most three digits are far within the limit. *)
Lemma small_within_limit (n : N) : (n < 1000)%N ->
  (n < 10 ^ int_max_str_digits)%N.
Proof.
  intros H. apply (N.lt_le_trans _ (10 ^ 3)); [exact H|].
  apply N.pow_le_mono_r; [discriminate|]. unfold int_max_str_digits. lia.
Qed.

End PyFacts.

(* ================================================================= *)
(** ** cli.py: parse_ports *)

Module cliFacts.
Import Py props PyFacts cli.

Lemma in_range (a b p : Z) : In p (range a b) <-> (a <= p < b)%Z.
Proof.
  unfold range. rewrite in_map_iff. split.
  - intros [i [<- Hi]]. apply in_seq in Hi. lia.
  - intros H. exists (Z.to_nat (p - a)). split; [lia|].
    apply in_seq. lia.
Qed.

Lemma in_ports_of (it : port_item) (p : Z) : In p (ports_of it) <-> denotes it p.
Proof.
  destruct it as [n|lo hi]; simpl.
  - intuition.
  - rewrite in_range. lia.
Qed.

(** *** sorted(set(...)) *)

Lemma in_insert_sorted (x p : Z) (l : list Z) :
  In p (insert_sorted x l) <-> p = x \/ In p l.
Proof.
  induction l as [|y l IH]; simpl; [intuition|].
  destruct (x <? y)%Z; simpl; rewrite ?IH; intuition.
Qed.

Lemma insert_sorted_lt (x : Z) (l : list Z) :
  StronglySorted Z.lt l -> ~ In x l -> StronglySorted Z.lt (insert_sorted x l).
Proof.
  induction l as [|y l IH]; intros Hs Hx; simpl.
  - constructor; constructor.
  - inversion Hs as [|? ? Hl Hy]; subst.
    destruct (x <? y)%Z eqn:E.
    + apply Z.ltb_lt in E. constructor; [exact Hs|].
      constructor; [exact E|].
      rewrite Forall_forall in Hy |- *. intros z Hz.
      specialize (Hy z Hz). lia.
    + apply Z.ltb_ge in E. simpl in Hx.
      constructor; [apply IH; tauto|].
      rewrite Forall_forall in Hy |- *. intros z Hz.
      apply in_insert_sorted in Hz as [->|Hz]; [|auto].
      assert (y <> x) by tauto. lia.
Qed.

Lemma sorted_spec (l : list Z) :
  NoDup l ->
  StronglySorted Z.lt (sorted l) /\ forall p, In p (sorted l) <-> In p l.
Proof.
  induction 1 as [|x l Hx Hl [IHs IHi]]; simpl.
  - split; [constructor | tauto].
  - split.
    + apply insert_sorted_lt; [exact IHs | rewrite IHi; exact Hx].
    + intros p. rewrite in_insert_sorted, IHi. intuition.
Qed.

Lemma sorted_set_spec (l : list Z) :
  StronglySorted Z.lt (sorted (set l))
  /\ forall p, In p (sorted (set l)) <-> In p l.
Proof.
  destruct (sorted_spec (set l) (NoDup_nodup Z.eq_dec l)) as [Hs Hi].
  split; [exact Hs|]. intros p. rewrite Hi. apply nodup_In.
Qed.

(** *** Rendered items *)

Lemma render_item_chars (it : port_item) :
  chars_in (fun c => isdigit c || Ascii.eqb c "-"%char) (render_item it) = true.
Proof.
  assert (H : forall n, chars_in (fun c => isdigit c || Ascii.eqb c "-"%char)
                          (str_of_N n) = true).
  { intros n. apply (chars_in_weaken isdigit).
    - intros c ->. reflexivity.
    - rewrite <- all_digits_chars_in. apply str_of_N_digits. }
  destruct it as [n|lo hi]; simpl; [apply H|].
  rewrite chars_in_app, H. simpl. rewrite H. reflexivity.
Qed.

Lemma digit_or_hyphen (Q : ascii -> bool) :
  (forall c, isdigit c = true -> Q c = true) -> Q "-"%char = true ->
  forall c, isdigit c || Ascii.eqb c "-"%char = true -> Q c = true.
Proof.
  intros Hd Hh c H. apply orb_true_iff in H as [H|H]; [auto|].
  apply Ascii.eqb_eq in H. subst. exact Hh.
Qed.

Lemma render_item_no_comma (it : port_item) :
  contains ","%char (render_item it) = false.
Proof.
  apply contains_chars_in.
  apply (chars_in_weaken _ _ _ (digit_or_hyphen _
           (digit_ind _ eq_refl eq_refl eq_refl eq_refl eq_refl
              eq_refl eq_refl eq_refl eq_refl eq_refl) eq_refl)).
  apply render_item_chars.
Qed.

Lemma render_item_no_space (it : port_item) :
  chars_in not_space (render_item it) = true.
Proof.
  apply (chars_in_weaken _ _ _
           (digit_or_hyphen _ digit_not_space eq_refl)).
  apply render_item_chars.
Qed.

Lemma render_item_truthy (it : port_item) : truthy (render_item it) = true.
Proof.
  assert (H : forall n, truthy (str_of_N n) = true).
  { intros n. pose proof (str_of_N_nonempty n).
    destruct (str_of_N n); [congruence | reflexivity]. }
  destruct it as [n|lo hi]; simpl; [apply H|].
  specialize (H lo). destruct (str_of_N lo); [discriminate | reflexivity].
Qed.

Lemma str_of_N_no_hyphen (n : N) : contains "-"%char (str_of_N n) = false.
Proof. apply digits_free_of; [reflexivity | apply str_of_N_digits]. Qed.

Lemma parse_part_render (it : port_item) :
  within_int_limit it ->
  parse_part (render_item it) = Return (ports_of it).
Proof.
  unfold parse_part. destruct it as [n|lo hi]; simpl render_item.
  - intros Hn. rewrite str_of_N_no_hyphen, int_str_of_N by exact Hn.
    reflexivity.
  - intros [Hlo Hhi].
    rewrite contains_app, str_of_N_no_hyphen. simpl contains.
    rewrite orb_true_r.
    change ("-" ++ str_of_N hi)%string with (String "-"%char (str_of_N hi)).
    rewrite split1_app_sep by apply str_of_N_no_hyphen.
    rewrite !int_str_of_N by assumption. reflexivity.
Qed.

Lemma parse_parts_render (items : list port_item) :
  Forall within_int_limit items ->
  forall acc,
    parse_parts (map render_item items) acc
    = Return (acc ++ flat_map ports_of items).
Proof.
  induction 1 as [|it items Hit _ IH]; intros acc; simpl.
  - rewrite app_nil_r. reflexivity.
  - rewrite parse_part_render by exact Hit. simpl.
    rewrite IH, app_assoc. reflexivity.
Qed.

(** The comprehension [[p.strip() for p in ... if p.strip()]] gives back
    the rendered items. *)
Lemma parts_of_render (items : list port_item) :
  map strip (filter (fun p => truthy (strip p))
                    (split ","%char (render items)))
  = map render_item items.
Proof.
  destruct items as [|it items]; [reflexivity|].
  unfold render. rewrite split_join.
  - induction (it :: items) as [|x xs IH]; simpl; [reflexivity|].
    rewrite strip_id by apply render_item_no_space.
    rewrite render_item_truthy. simpl.
    rewrite strip_id by apply render_item_no_space.
    rewrite IH. reflexivity.
  - discriminate.
  - apply Forall_forall. intros p Hp. apply in_map_iff in Hp as [x [<- _]].
    apply render_item_no_comma.
Qed.

Lemma parse_ports_render (items : list port_item) :
  Forall within_int_limit items ->
  parse_ports (render items)
  = Return (sorted (set (flat_map ports_of items))).
Proof.
  intros H. unfold parse_ports.
  rewrite parts_of_render, parse_parts_render by exact H.
  reflexivity.
Qed.

(** C8.  For a port list written as single integers and inclusive
    hyphen ranges separated by commas, each integer with at most 4300
    digits, [parse_ports] returns the denoted ports in strictly
    ascending order (hence without duplicates): a port is returned
    exactly when some item denotes it.  In particular ["20-22,80"]
    gives [20, 21, 22, 80] and ["80,80,22"] gives [22, 80]. *)
Theorem parse_ports_sorted_dedup :
  (forall items : list port_item,
     Forall within_int_limit items ->
     exists ports,
       parse_ports (render items) = Return ports
       /\ StronglySorted Z.lt ports
       /\ forall p, In p ports <-> exists it, In it items /\ denotes it p)
  /\ parse_ports "20-22,80" = Return [20; 21; 22; 80]%Z
  /\ parse_ports "80,80,22" = Return [22; 80]%Z.
Proof.
  split; [|split; reflexivity].
  intros items Hlim. eexists.
  split; [apply parse_ports_render, Hlim|].
  destruct (sorted_set_spec (flat_map ports_of items)) as [Hs Hi].
  split; [exact Hs|]. intros p. rewrite Hi, in_flat_map.
  split; intros [it [Hit Hp]]; exists it; (split; [exact Hit|]);
    apply in_ports_of; exact Hp.
Qed.

Lemma parse_ports_sorted_dedup_witness :
  exists ports,
    parse_ports (render [Span 20 22; Single 80]) = Return ports
    /\ StronglySorted Z.lt ports
    /\ forall p, In p ports <->
                 exists it, In it [Span 20 22; Single 80] /\ denotes it p.
Proof.
  apply (proj1 parse_ports_sorted_dedup).
  apply Forall_cons; [|apply Forall_cons; [|apply Forall_nil]].
  - split; apply small_within_limit; reflexivity.
  - apply small_within_limit. reflexivity.
Defined.

(** A single integer of more than 4300 digits is refused. *)
Lemma parse_ports_long_integer (n : N) :
  (10 ^ int_max_str_digits <= n)%N ->
  parse_ports (render [Single n])
  = Raise (ValueError
             "Exceeds the limit (4300 digits) for integer string conversion").
Proof.
  intros Hn. unfold parse_ports. rewrite parts_of_render.
  cbn [map render_item parse_parts]. unfold parse_part.
  rewrite str_of_N_no_hyphen, int_str_of_N_long by exact Hn. reflexivity.
Qed.

(** C8 as stated fails: the port list made of the single
    integer [10 ** 4300], a one followed by 4300 zeros, denotes one
    port, yet [parse_ports] returns no list for it but raises the
    [ValueError] of [int]. *)
Theorem parse_ports_refuses_4301_digits :
  denotes (Single (10 ^ 4300)) (Z.of_N (10 ^ 4300))
  /\ parse_ports (render [Single (10 ^ 4300)])
     = Raise (ValueError
                "Exceeds the limit (4300 digits) for integer string conversion")
  /\ ~ exists ports, parse_ports (render [Single (10 ^ 4300)]) = Return ports.
Proof.
  pose proof (parse_ports_long_integer (10 ^ 4300) (N.le_refl _)) as H.
  split; [reflexivity|]. split; [exact H|].
  intros [ports Hp]. rewrite H in Hp. discriminate.
Qed.

End cliFacts.

(* ================================================================= *)
(** ** ipaddress: IPv4 text *)

Module ipaddressFacts.
Import Py props PyFacts ipaddress.

(** *** Octets *)

Lemma octets_checked :
  forallb octet_roundtrip (map N.of_nat (seq 0 256)) = true.
Proof. vm_compute. reflexivity. Qed.

Lemma parse_octet_str (b : N) : (b < 256)%N ->
  _parse_octet (str_of_N b) = Return b.
Proof.
  intros Hb. pose proof octets_checked as H.
  rewrite forallb_forall in H. specialize (H b).
  unfold octet_roundtrip in H.
  destruct (_parse_octet (str_of_N b)) as [b'|e].
  - f_equal. apply N.eqb_eq, H.
    apply in_map_iff. exists (N.to_nat b). split; [lia|].
    apply in_seq. lia.
  - discriminate H.
    apply in_map_iff. exists (N.to_nat b). split; [lia|].
    apply in_seq. lia.
Qed.

Lemma parse_octet_bound (o : string) (b : N) :
  _parse_octet o = Return b -> (b < 256)%N.
Proof.
  unfold _parse_octet.
  repeat match goal with
         | |- context [if ?c then _ else _] => destruct c
         end; try discriminate.
  destruct (int o) as [z|e]; simpl; [|discriminate].
  destruct (255 <? z)%Z eqn:E; [discriminate|].
  intros [= <-]. apply Z.ltb_ge in E. lia.
Qed.

Lemma parse_octets_bound (octets : list string) : forall bs,
  _parse_octets octets = Return bs ->
  List.length bs = List.length octets /\ Forall (fun b => (b < 256)%N) bs.
Proof.
  induction octets as [|o octets IH]; intros bs; simpl.
  - intros [= <-]. split; [reflexivity | constructor].
  - destruct (_parse_octet o) as [b|e] eqn:Eo; simpl; [|discriminate].
    destruct (_parse_octets octets) as [bs'|e] eqn:Eos; simpl; [|discriminate].
    intros [= <-]. destruct (IH bs' eq_refl) as [Hl Hf].
    split; [simpl; congruence|].
    constructor; [eapply parse_octet_bound; eassumption | exact Hf].
Qed.

Lemma parse_octets_str (bs : list N) :
  Forall (fun b => (b < 256)%N) bs ->
  _parse_octets (map str_of_N bs) = Return bs.
Proof.
  induction 1 as [|b bs Hb _ IH]; simpl; [reflexivity|].
  rewrite parse_octet_str by exact Hb. simpl. rewrite IH. reflexivity.
Qed.

(** *** Addresses *)

Lemma to_bytes4_bound (x : N) : Forall (fun b => (b < 256)%N) (to_bytes4_big x).
Proof.
  unfold to_bytes4_big.
  repeat constructor; apply N.mod_lt; discriminate.
Qed.

Lemma from_to_bytes4 (x : N) : (x < two32)%N ->
  from_bytes_big (to_bytes4_big x) = x.
Proof.
  unfold two32, from_bytes_big, to_bytes4_big. intros Hx. simpl.
  pose proof (N.div_mod x 256).
  pose proof (N.div_mod (x / 256) 256).
  pose proof (N.div_mod (x / 256 / 256) 256).
  replace (x / 65536)%N with (x / 256 / 256)%N
    by (rewrite N.Div0.div_div; reflexivity).
  replace (x / 16777216)%N with (x / 256 / 256 / 256)%N
    by (rewrite !N.Div0.div_div; reflexivity).
  assert (x / 256 / 256 / 256 < 256)%N.
  { rewrite !N.Div0.div_div. apply N.Div0.div_lt_upper_bound. simpl. lia. }
  rewrite (N.mod_small (x / 256 / 256 / 256) 256) by assumption.
  lia.
Qed.

Lemma from_bytes4_bound (bs : list N) :
  List.length bs = 4%nat -> Forall (fun b => (b < 256)%N) bs ->
  (from_bytes_big bs < two32)%N.
Proof.
  destruct bs as [|a [|b [|c [|d [|? ?]]]]]; try discriminate.
  intros _ H. inversion H as [|? ? Ha H1]; subst.
  inversion H1 as [|? ? Hb H2]; subst.
  inversion H2 as [|? ? Hc H3]; subst.
  inversion H3 as [|? ? Hd _]; subst.
  unfold from_bytes_big, two32. simpl. lia.
Qed.

Lemma IPv4_string_octets (x : N) :
  split "."%char (IPv4_string_from_ip_int x) = map str_of_N (to_bytes4_big x).
Proof.
  unfold IPv4_string_from_ip_int. apply split_join; [discriminate|].
  apply Forall_forall. intros p Hp. apply in_map_iff in Hp as [b [<- _]].
  apply digits_free_of; [reflexivity | apply str_of_N_digits].
Qed.

Lemma IPv4_string_chars (x : N) :
  chars_in (fun c => isdigit c || Ascii.eqb c "."%char)
    (IPv4_string_from_ip_int x) = true.
Proof.
  assert (H : forall n, chars_in (fun c => isdigit c || Ascii.eqb c "."%char)
                          (str_of_N n) = true).
  { intros n. apply (chars_in_weaken isdigit).
    - intros c ->. reflexivity.
    - rewrite <- all_digits_chars_in. apply str_of_N_digits. }
  unfold IPv4_string_from_ip_int, to_bytes4_big. simpl.
  rewrite !chars_in_app, !H. simpl. rewrite !chars_in_app, !H. simpl.
  rewrite !chars_in_app, !H. simpl. rewrite H. reflexivity.
Qed.

Lemma IPv4_string_free_of (sep : ascii) (x : N) :
  isdigit sep = false -> Ascii.eqb sep "."%char = false ->
  contains sep (IPv4_string_from_ip_int x) = false.
Proof.
  intros Hd Hp. apply contains_chars_in.
  apply (chars_in_weaken (fun c => isdigit c || Ascii.eqb c "."%char));
    [|apply IPv4_string_chars].
  intros c Hc. apply negb_true_iff.
  destruct (Ascii.eqb_spec c sep) as [->|]; [|reflexivity].
  rewrite Hd, Hp in Hc. discriminate.
Qed.

Lemma IPv4_string_truthy (x : N) : truthy (IPv4_string_from_ip_int x) = true.
Proof.
  unfold IPv4_string_from_ip_int, to_bytes4_big. simpl.
  pose proof (str_of_N_nonempty ((x / 16777216) mod 256)) as H.
  destruct (str_of_N ((x / 16777216) mod 256)); [congruence | reflexivity].
Qed.

(** Reading back the text of an IPv4 address gives the address. *)
Lemma IPv4_text_roundtrip (x : N) : (x < two32)%N ->
  IPv4_ip_int_from_string (IPv4_string_from_ip_int x) = Return x.
Proof.
  intros Hx. unfold IPv4_ip_int_from_string.
  rewrite IPv4_string_truthy, IPv4_string_octets, length_map.
  change (List.length (to_bytes4_big x)) with 4%nat.
  cbn [Nat.eqb negb].
  rewrite parse_octets_str by apply to_bytes4_bound.
  rewrite from_to_bytes4 by exact Hx. reflexivity.
Qed.

Lemma IPv4_string_inj (x y : N) : (x < two32)%N -> (y < two32)%N ->
  IPv4_string_from_ip_int x = IPv4_string_from_ip_int y -> x = y.
Proof.
  intros Hx Hy E. pose proof (IPv4_text_roundtrip x Hx) as Rx.
  rewrite E, (IPv4_text_roundtrip y Hy) in Rx. congruence.
Qed.

Lemma IPv4_ip_int_bound (s : string) (x : N) :
  IPv4_ip_int_from_string s = Return x -> (x < two32)%N.
Proof.
  unfold IPv4_ip_int_from_string.
  destruct (negb (truthy s)); [discriminate|].
  destruct (List.length (split "."%char s) =? 4)%nat eqn:El; [|discriminate].
  simpl. destruct (_parse_octets (split "."%char s)) as [bs|e] eqn:Eo;
    [|discriminate].
  intros [= <-]. apply parse_octets_bound in Eo as [Hl Hf].
  apply Nat.eqb_eq in El. apply from_bytes4_bound; [congruence | exact Hf].
Qed.

Lemma IPv4Address_str (x : N) : (x < two32)%N ->
  IPv4Address (IPv4_string_from_ip_int x) = Return (mkAddress IPv4 x None).
Proof.
  intros Hx. unfold IPv4Address.
  rewrite IPv4_string_free_of by reflexivity.
  rewrite IPv4_text_roundtrip by exact Hx. reflexivity.
Qed.

End ipaddressFacts.

(* ================================================================= *)
(** ** ipaddress: networks and their hosts *)

Module networkFacts.
Import Py props PyFacts ipaddress ipaddressFacts.

Lemma masks_checked (v : version) :
  forallb (mask_ok v)
    (map N.of_nat (seq 0 (S (N.to_nat (_max_prefixlen v))))) = true.
Proof. destruct v; vm_compute; reflexivity. Qed.

Lemma mask_facts (v : version) (p : N) : (p <= _max_prefixlen v)%N ->
  let m := _ip_int_from_prefix v p in
  let h := N.lxor m (_ALL_ONES v) in
  h = N.ones (_max_prefixlen v - p)
  /\ N.land m h = 0%N
  /\ N.lor m h = N.ones (_max_prefixlen v).
Proof.
  intros Hp. pose proof (masks_checked v) as H.
  rewrite forallb_forall in H. specialize (H p).
  unfold mask_ok in H. cbv zeta in H |- *.
  assert (Hin : In p (map N.of_nat (seq 0 (S (N.to_nat (_max_prefixlen v)))))).
  { apply in_map_iff. exists (N.to_nat p). split; [lia|].
    apply in_seq. lia. }
  specialize (H Hin).
  apply andb_true_iff in H as [H H3]. apply andb_true_iff in H as [H1 H2].
  apply N.eqb_eq in H1, H2, H3. auto.
Qed.

Lemma lor_disjoint (a b : N) : N.land a b = 0%N -> N.lor a b = (a + b)%N.
Proof.
  intros H. rewrite (N.add_nocarry_lxor a b H). symmetry.
  apply N.lxor_lor, H.
Qed.

Lemma ones_succ (n : N) : (N.ones n + 1 = 2 ^ n)%N.
Proof.
  rewrite N.ones_equiv.
  assert (2 ^ n <> 0)%N by (apply N.pow_nonzero; discriminate). lia.
Qed.

(** Masking never enlarges an address of the family. *)
Lemma land_mask_le (v : version) (p x : N) :
  (p <= _max_prefixlen v)%N -> (x < 2 ^ _max_prefixlen v)%N ->
  (N.land x (_ip_int_from_prefix v p) <= x)%N.
Proof.
  intros Hp Hx. destruct (mask_facts v p Hp) as [_ [Hd Hc]].
  set (m := _ip_int_from_prefix v p) in *.
  set (h := N.lxor m (_ALL_ONES v)) in *.
  assert (E : x = (N.land x m + N.land x h)%N).
  { rewrite <- lor_disjoint.
    - rewrite <- N.land_lor_distr_r, Hc, N.land_ones, N.mod_small; auto.
    - rewrite (N.land_comm x h), N.land_assoc, <- (N.land_assoc x m h), Hd.
      rewrite N.land_0_r, N.land_0_l. reflexivity. }
  lia.
Qed.

Lemma land_mask_idem (x m : N) : N.land (N.land x m) m = N.land x m.
Proof. rewrite <- N.land_assoc, N.land_diag. reflexivity. Qed.

Lemma init_network_wf (v : version) (a : Address) (p : N) (strict : bool)
    (n : Network) :
  addr_version a = v -> (_ip a < 2 ^ _max_prefixlen v)%N ->
  (p <= _max_prefixlen v)%N ->
  _init_network v a p strict = Return n ->
  wf_network n /\ net_version n = v /\ prefixlen n = p.
Proof.
  intros Hv Ha Hp. unfold _init_network.
  destruct (N.land (_ip a) (_ip_int_from_prefix v p) =? _ip a)%N eqn:E; simpl.
  - intros [= <-]. apply N.eqb_eq in E.
    unfold wf_network, netmask. simpl. auto.
  - destruct strict; [discriminate|]. intros [= <-].
    unfold wf_network, netmask. simpl.
    repeat split; auto.
    + eapply N.le_lt_trans; [apply land_mask_le; eassumption | exact Ha].
    + apply land_mask_idem.
Qed.

Section Blocks.

Variable n : Network.
Hypothesis Hwf : wf_network n.

Let v := net_version n.
Let network := _ip (network_address n).
Let size := (2 ^ (_max_prefixlen v - prefixlen n))%N.

Lemma hostmask_ones : hostmask n = N.ones (_max_prefixlen v - prefixlen n).
Proof.
  destruct Hwf as [Hp _]. apply (mask_facts v (prefixlen n) Hp).
Qed.

Lemma size_pos : (0 < size)%N.
Proof.
  unfold size.
  assert (2 ^ (_max_prefixlen v - prefixlen n) <> 0)%N
    by (apply N.pow_nonzero; discriminate).
  lia.
Qed.

Lemma network_aligned : (network mod size = 0)%N.
Proof.
  destruct Hwf as [Hp [_ [Hm _]]].
  destruct (mask_facts v (prefixlen n) Hp) as [Hh [Hd _]].
  unfold size. rewrite <- N.land_ones, <- Hh.
  fold network in Hm. unfold netmask in Hm. fold v in Hm.
  rewrite <- Hm, <- N.land_assoc, Hd. apply N.land_0_r.
Qed.

(** The broadcast address is the last address of the block. *)
Lemma broadcast_last : (broadcast_address n + 1 = network + size)%N.
Proof.
  unfold broadcast_address. fold network.
  rewrite lor_disjoint.
  - rewrite hostmask_ones, <- N.add_assoc, ones_succ. reflexivity.
  - rewrite hostmask_ones, N.land_ones. apply network_aligned.
Qed.

Lemma block_fits : (network + size <= 2 ^ _max_prefixlen v)%N.
Proof.
  destruct Hwf as [Hp [Hn _]]. fold v network in Hp, Hn.
  pose proof network_aligned as Hal. pose proof size_pos as Hs.
  assert (Hpow : (2 ^ _max_prefixlen v = size * 2 ^ prefixlen n)%N).
  { unfold size. rewrite <- N.pow_add_r. f_equal. lia. }
  pose proof (N.div_mod network size ltac:(lia)) as Hdm.
  rewrite Hal, N.add_0_r in Hdm.
  rewrite Hpow in Hn |- *.
  set (q := (network / size)%N) in *.
  assert (q < 2 ^ prefixlen n)%N by nia.
  nia.
Qed.

Lemma broadcast_fits : (broadcast_address n < 2 ^ _max_prefixlen v)%N.
Proof. pose proof broadcast_last. pose proof block_fits. lia. Qed.

End Blocks.

(** *** Iterators *)

Lemma N_seq_succ (start : N) (len : nat) :
  N_seq start (S len) = start :: N_seq (start + 1) len.
Proof.
  unfold N_seq. simpl. rewrite N.add_0_r. f_equal.
  rewrite <- seq_shift, map_map. apply map_ext. intros i. lia.
Qed.

Lemma in_N_seq (start : N) (len : nat) (x : N) :
  In x (N_seq start len) <-> (start <= x < start + N.of_nat len)%N.
Proof.
  unfold N_seq. rewrite in_map_iff. split.
  - intros [i [<- Hi]]. apply in_seq in Hi. lia.
  - intros H. exists (N.to_nat (x - start)). split; [lia|].
    apply in_seq. lia.
Qed.

Lemma NoDup_N_seq (start : N) (len : nat) : NoDup (N_seq start len).
Proof.
  revert start. induction len as [|len IH]; intros start.
  - constructor.
  - rewrite N_seq_succ. constructor; [|apply IH].
    rewrite in_N_seq. lia.
Qed.

Lemma iter_next_none (it : host_iter) :
  iter_next it = None -> iter_all it = [].
Proof.
  destruct it as [v a b|[|x l]]; simpl; try discriminate; [|reflexivity].
  destruct (a <? b)%N eqn:E; [discriminate|]. intros _.
  apply N.ltb_ge in E. replace (N.to_nat (b - a)) with 0%nat by lia.
  reflexivity.
Qed.

Lemma iter_next_some (it it' : host_iter) (h : Address) :
  iter_next it = Some (h, it') -> iter_all it = h :: iter_all it'.
Proof.
  destruct it as [v a b|[|x l]]; simpl; try discriminate.
  - destruct (a <? b)%N eqn:E; [|discriminate]. intros [= <- <-].
    apply N.ltb_lt in E. simpl.
    replace (N.to_nat (b - a)) with (S (N.to_nat (b - (a + 1)))) by lia.
    rewrite N_seq_succ. reflexivity.
  - intros [= <- <-]. reflexivity.
Qed.

Lemma iter_all_length (it : host_iter) :
  List.length (iter_all it) = N.to_nat (iter_len it).
Proof.
  destruct it as [v a b|l]; simpl.
  - unfold N_seq. rewrite !length_map, length_seq. reflexivity.
  - lia.
Qed.

End networkFacts.

(* ================================================================= *)
(** ** ipaddress.ip_network *)

Module ip_networkFacts.
Import Py props PyFacts ipaddress ipaddressFacts networkFacts.

Lemma prefix_from_prefix_string_bound (v : version) (s : string) (p : N) :
  _prefix_from_prefix_string v s = Return p -> (p <= _max_prefixlen v)%N.
Proof.
  unfold _prefix_from_prefix_string, _report_invalid_netmask.
  destruct (negb (truthy s && all_digits s)); [discriminate|].
  destruct (int s) as [z|e]; [|discriminate].
  destruct ((0 <=? z)%Z && (z <=? Z.of_N (_max_prefixlen v))%Z) eqn:E;
    [|discriminate].
  simpl. intros [= <-]. apply andb_true_iff in E as [E1 E2].
  apply Z.leb_le in E1, E2. lia.
Qed.

Lemma prefix_from_prefix_string_raises (v : version) (s : string) (e : exn) :
  _prefix_from_prefix_string v s = Raise e -> exists msg, e = NetmaskValueError msg.
Proof.
  unfold _prefix_from_prefix_string, _report_invalid_netmask.
  destruct (negb (truthy s && all_digits s)); [intros [= <-]; eauto|].
  destruct (int s) as [z|e']; [|intros [= <-]; eauto].
  destruct (negb _); [intros [= <-]; eauto | discriminate].
Qed.

Lemma prefix_from_ip_int_bound (v : version) (x p : N) :
  _prefix_from_ip_int v x = Some p -> (p <= _max_prefixlen v)%N.
Proof.
  unfold _prefix_from_ip_int. destruct (negb _); [discriminate|].
  intros [= <-]. lia.
Qed.

Lemma prefix_from_ip_string_bound (s : string) (p : N) :
  _prefix_from_ip_string s = Return p -> (p <= 32)%N.
Proof.
  unfold _prefix_from_ip_string, _report_invalid_netmask.
  destruct (IPv4_ip_int_from_string s) as [x|e]; [|discriminate].
  destruct (_prefix_from_ip_int IPv4 x) as [q|] eqn:E1.
  - intros [= <-]. apply (prefix_from_ip_int_bound IPv4 _ _ E1).
  - destruct (_prefix_from_ip_int IPv4 (N.lxor x (_ALL_ONES IPv4))) as [q|] eqn:E2;
      [|discriminate].
    intros [= <-]. apply (prefix_from_ip_int_bound IPv4 _ _ E2).
Qed.

Lemma prefix_from_ip_string_raises (s : string) (e : exn) :
  _prefix_from_ip_string s = Raise e -> exists msg, e = NetmaskValueError msg.
Proof.
  unfold _prefix_from_ip_string, _report_invalid_netmask.
  destruct (IPv4_ip_int_from_string s) as [x|e']; [|intros [= <-]; eauto].
  destruct (_prefix_from_ip_int IPv4 x); [discriminate|].
  destruct (_prefix_from_ip_int IPv4 _); [discriminate | intros [= <-]; eauto].
Qed.

Lemma make_netmask_bound (v : version) (m : mask_arg) (p : N) :
  _make_netmask v m = Return p -> (p <= _max_prefixlen v)%N.
Proof.
  destruct m as [s|z]; simpl.
  - destruct v.
    + destruct (_prefix_from_prefix_string IPv4 s) as [q|e] eqn:E.
      * intros [= <-]. apply (prefix_from_prefix_string_bound _ _ _ E).
      * destruct (prefix_from_prefix_string_raises _ _ _ E) as [msg ->].
        apply prefix_from_ip_string_bound.
    + apply prefix_from_prefix_string_bound.
  - unfold _report_invalid_netmask.
    destruct ((0 <=? z)%Z && (z <=? Z.of_N (_max_prefixlen v))%Z) eqn:E;
      [|discriminate].
    simpl. intros [= <-]. apply andb_true_iff in E as [E1 E2].
    apply Z.leb_le in E1, E2. lia.
Qed.

Lemma make_netmask_raises (v : version) (m : mask_arg) (e : exn) :
  _make_netmask v m = Raise e -> is_parse_error e = true.
Proof.
  destruct m as [s|z]; simpl.
  - destruct v.
    + destruct (_prefix_from_prefix_string IPv4 s) as [q|e'] eqn:E;
        [discriminate|].
      destruct (prefix_from_prefix_string_raises _ _ _ E) as [msg ->].
      intros H. destruct (prefix_from_ip_string_raises _ _ H) as [msg' ->].
      reflexivity.
    + intros H. destruct (prefix_from_prefix_string_raises _ _ _ H) as [msg ->].
      reflexivity.
  - unfold _report_invalid_netmask. destruct (negb _); [|discriminate].
    intros [= <-]. reflexivity.
Qed.

Lemma split_addr_prefix_raises (v : version) (s : string) (e : exn) :
  _split_addr_prefix v s = Raise e -> is_parse_error e = true.
Proof.
  unfold _split_addr_prefix.
  destruct (split "/"%char s) as [|a [|m [|? ?]]]; try discriminate;
    intros [= <-]; reflexivity.
Qed.

Lemma IPv4Address_inv (s : string) (a : Address) :
  IPv4Address s = Return a ->
  addr_version a = IPv4 /\ (_ip a < 2 ^ _max_prefixlen IPv4)%N.
Proof.
  unfold IPv4Address. destruct (contains "/"%char s); [discriminate|].
  destruct (IPv4_ip_int_from_string s) as [x|e] eqn:E; [|discriminate].
  simpl. intros [= <-]. split; [reflexivity|].
  apply (IPv4_ip_int_bound _ _ E).
Qed.

Lemma IPv4Address_raises (s : string) (e : exn) :
  IPv4Address s = Raise e -> is_parse_error e = true.
Proof.
  unfold IPv4Address. destruct (contains "/"%char s); [intros [= <-]; reflexivity|].
  unfold IPv4_ip_int_from_string.
  destruct (negb (truthy s)); [intros [= <-]; reflexivity|].
  destruct (negb _); [intros [= <-]; reflexivity|].
  destruct (_parse_octets _); [discriminate | intros [= <-]; reflexivity].
Qed.

Lemma init_network_lenient (v : version) (a : Address) (p : N) :
  exists n, _init_network v a p false = Return n.
Proof.
  unfold _init_network. destruct (negb _); eauto.
Qed.

Lemma IPv4Network_wf (s : string) (strict : bool) (n : Network) :
  IPv4Network s strict = Return n -> wf_network n.
Proof.
  unfold IPv4Network.
  destruct (_split_addr_prefix IPv4 s) as [[a m]|e]; [|discriminate].
  simpl. destruct (IPv4Address a) as [addr|e] eqn:Ea; [|discriminate].
  simpl. destruct (_make_netmask IPv4 m) as [p|e] eqn:Em; [|discriminate].
  simpl. intros H. destruct (IPv4Address_inv _ _ Ea) as [Hv Hb].
  apply (init_network_wf IPv4 addr p strict n Hv Hb
           (make_netmask_bound _ _ _ Em) H).
Qed.

Lemma IPv4Network_raises (s : string) (e : exn) :
  IPv4Network s false = Raise e -> is_parse_error e = true.
Proof.
  unfold IPv4Network.
  destruct (_split_addr_prefix IPv4 s) as [[a m]|e'] eqn:Es; simpl.
  2:{ intros [= <-]. apply (split_addr_prefix_raises _ _ _ Es). }
  destruct (IPv4Address a) as [addr|e'] eqn:Ea; simpl.
  2:{ intros [= <-]. apply (IPv4Address_raises _ _ Ea). }
  destruct (_make_netmask IPv4 m) as [p|e'] eqn:Em; simpl.
  2:{ intros [= <-]. apply (make_netmask_raises _ _ _ Em). }
  destruct (init_network_lenient IPv4 addr p) as [n ->]. discriminate.
Qed.

Section IPv6Text.

Variable IPv6_ip_int_from_string : string -> result N.

(** What the model asks of the IPv6 reader: its results fit 128 bits. *)
Hypothesis IPv6_ip_int_bound : forall s x,
  IPv6_ip_int_from_string s = Return x -> (x < 2 ^ 128)%N.

Lemma IPv6Address_inv (s : string) (a : Address) :
  IPv6Address IPv6_ip_int_from_string s = Return a ->
  addr_version a = IPv6 /\ (_ip a < 2 ^ _max_prefixlen IPv6)%N.
Proof.
  unfold IPv6Address. destruct (contains "/"%char s); [discriminate|].
  destruct (_split_scope_id s) as [[t sc]|e]; [|discriminate]. simpl.
  destruct (IPv6_ip_int_from_string t) as [x|e] eqn:E; [|discriminate].
  intros [= <-]. split; [reflexivity|]. apply (IPv6_ip_int_bound _ _ E).
Qed.

Lemma IPv6Network_wf (s : string) (strict : bool) (n : Network) :
  IPv6Network IPv6_ip_int_from_string s strict = Return n -> wf_network n.
Proof.
  unfold IPv6Network.
  destruct (_split_addr_prefix IPv6 s) as [[a m]|e]; [|discriminate].
  simpl.
  destruct (IPv6Address IPv6_ip_int_from_string a) as [addr|e] eqn:Ea;
    [|discriminate].
  simpl. destruct (_make_netmask IPv6 m) as [p|e] eqn:Em; [|discriminate].
  simpl. intros H. destruct (IPv6Address_inv _ _ Ea) as [Hv Hb].
  apply (init_network_wf IPv6 addr p strict n Hv Hb
           (make_netmask_bound _ _ _ Em) H).
Qed.

Lemma ip_network_wf (s : string) (strict : bool) (n : Network) :
  ip_network IPv6_ip_int_from_string s strict = Return n -> wf_network n.
Proof.
  unfold ip_network.
  destruct (IPv4Network s strict) as [n4|e4] eqn:E4.
  - intros [= <-]. apply (IPv4Network_wf _ _ _ E4).
  - destruct (IPv6Network IPv6_ip_int_from_string s strict) as [n6|e6] eqn:E6.
    + destruct e4; try discriminate;
        intros [= <-]; apply (IPv6Network_wf _ _ _ E6).
    + destruct e4; try discriminate; destruct e6; discriminate.
Qed.

End IPv6Text.

Section AnyIPv6Text.

Variable IPv6_ip_int_from_string : string -> result N.

Lemma IPv6Address_raises (s : string) (e : exn) :
  IPv6Address IPv6_ip_int_from_string s = Raise e -> is_parse_error e = true.
Proof.
  unfold IPv6Address. destruct (contains "/"%char s); [intros [= <-]; reflexivity|].
  unfold _split_scope_id.
  destruct (split1 "%"%char s) as [|a [|sc [|? ?]]]; simpl;
    try (destruct (IPv6_ip_int_from_string _);
         [discriminate | intros [= <-]; reflexivity]).
  destruct (negb (truthy sc) || contains "%"%char sc); simpl;
    [intros [= <-]; reflexivity|].
  destruct (IPv6_ip_int_from_string _);
    [discriminate | intros [= <-]; reflexivity].
Qed.

Lemma IPv6Network_raises (s : string) (e : exn) :
  IPv6Network IPv6_ip_int_from_string s false = Raise e ->
  is_parse_error e = true.
Proof.
  unfold IPv6Network.
  destruct (_split_addr_prefix IPv6 s) as [[a m]|e'] eqn:Es; simpl.
  2:{ intros [= <-]. apply (split_addr_prefix_raises _ _ _ Es). }
  destruct (IPv6Address IPv6_ip_int_from_string a) as [addr|e'] eqn:Ea; simpl.
  2:{ intros [= <-]. apply (IPv6Address_raises _ _ Ea). }
  destruct (_make_netmask IPv6 m) as [p|e'] eqn:Em; simpl.
  2:{ intros [= <-]. apply (make_netmask_raises _ _ _ Em). }
  destruct (init_network_lenient IPv6 addr p) as [n ->]. discriminate.
Qed.

(** With [strict=False] the only error of [ip_network] is the final
    [ValueError]. *)
Lemma ip_network_raises (s : string) (e : exn) :
  ip_network IPv6_ip_int_from_string s false = Raise e ->
  e = ValueError "does not appear to be an IPv4 or IPv6 network".
Proof.
  unfold ip_network.
  destruct (IPv4Network s false) as [n4|e4] eqn:E4; [discriminate|].
  pose proof (IPv4Network_raises _ _ E4) as H4.
  destruct (IPv6Network IPv6_ip_int_from_string s false) as [n6|e6] eqn:E6.
  - destruct e4; discriminate.
  - pose proof (IPv6Network_raises _ _ E6) as H6.
    destruct e4; try discriminate H4; destruct e6; try discriminate H6;
      intros [= <-]; reflexivity.
Qed.

End AnyIPv6Text.

End ip_networkFacts.

(* ================================================================= *)
(** ** ip_range.py: expand_cidr *)

Module ip_rangeFacts.
Import Py props PyFacts ipaddress ipaddressFacts networkFacts ip_networkFacts.
Import ip_range.

Lemma NoDup_map_in {A B} (f : A -> B) (l : list A) :
  (forall x y, In x l -> In y l -> f x = f y -> x = y) ->
  NoDup l -> NoDup (map f l).
Proof.
  intros Hinj Hnd. induction Hnd as [|x l Hx Hl IH]; simpl; constructor.
  - intros Hin. apply in_map_iff in Hin as [y [Hy Hyl]].
    apply Hx. rewrite (Hinj x y); simpl; auto.
  - apply IH. intros y z Hy Hz. apply Hinj; simpl; auto.
Qed.

Lemma in_firstn {A} (k : nat) (l : list A) (x : A) :
  In x (firstn k l) -> In x l.
Proof.
  revert k. induction l as [|y l IH]; intros [|k]; simpl; try tauto.
  intros [->|H]; [left; reflexivity | right; apply (IH k H)].
Qed.

Lemma firstn_same_cap {A} (i j : nat) (l : list A) :
  Nat.min i (List.length l) = Nat.min j (List.length l) ->
  firstn i l = firstn j l.
Proof.
  intros E.
  rewrite <- (firstn_all l) at 1. rewrite <- (firstn_all l) at 3.
  rewrite !firstn_firstn, E. reflexivity.
Qed.

Lemma NoDup_firstn {A} (k : nat) (l : list A) : NoDup l -> NoDup (firstn k l).
Proof.
  intros Hnd. revert k. induction Hnd as [|x l Hx Hl IH]; intros [|k]; simpl;
    try constructor.
  - intros Hin. apply Hx. apply (in_firstn k l x Hin).
  - apply IH.
Qed.

Lemma str_of_N_inj (a b : N) : str_of_N a = str_of_N b -> a = b.
Proof.
  intros E. rewrite <- (str_of_N_horner a), E. apply str_of_N_horner.
Qed.

(** *** The hosts of a well-formed network *)

Lemma hosts_in_block (n : Network) (a : Address) :
  wf_network n -> In a (iter_all (hosts n)) ->
  in_block n a /\ (_scope_id a = None \/ iter_all (hosts n) = [a]).
Proof.
  intros Hwf Hin. pose proof (broadcast_last n Hwf) as Hb.
  pose proof (size_pos n) as Hs. cbv zeta in Hs.
  destruct Hwf as [Hp [Hn [Hm Hv]]].
  unfold hosts in Hin |- *. unfold in_block.
  set (v := net_version n) in *.
  set (network := _ip (network_address n)) in *.
  set (size := (2 ^ (_max_prefixlen v - prefixlen n))%N) in *.
  assert (Hmax : (32 <= _max_prefixlen v)%N) by (destruct v; simpl; lia).
  destruct (prefixlen n =? _max_prefixlen v - 1)%N eqn:E1.
  { apply N.eqb_eq in E1. simpl in Hin.
    apply in_map_iff in Hin as [x [<- Hx]]. apply in_N_seq in Hx.
    simpl. split; [|left; reflexivity].
    repeat split; try lia. }
  destruct (prefixlen n =? _max_prefixlen v)%N eqn:E2.
  { apply N.eqb_eq in E2. simpl in Hin. destruct Hin as [<-|[]].
    split; [|right; reflexivity].
    fold network. repeat split; try lia. exact Hv. }
  apply N.eqb_neq in E1, E2.
  assert (Hsz : (4 <= size)%N).
  { unfold size.
    replace (_max_prefixlen v - prefixlen n)%N
      with (2 + (_max_prefixlen v - prefixlen n - 2))%N by lia.
    rewrite N.pow_add_r.
    assert (2 ^ (_max_prefixlen v - prefixlen n - 2) <> 0)%N
      by (apply N.pow_nonzero; discriminate).
    change (2 ^ 2)%N with 4%N. lia. }
  destruct v eqn:Ev; simpl in Hin;
    apply in_map_iff in Hin as [x [<- Hx]]; apply in_N_seq in Hx;
    simpl; (split; [|left; reflexivity]); repeat split; try lia;
    discriminate.
Qed.

Section IPv6Text.

Variable IPv6_ip_int_from_string : string -> result N.
Variable IPv6_string_from_ip_int : N -> string.

Local Notation "'str_'" := (str_address IPv6_string_from_ip_int).
Local Notation "'expand_loop_'" := (expand_loop IPv6_string_from_ip_int).
Local Notation "'expand_cidr_'" :=
  (expand_cidr IPv6_ip_int_from_string IPv6_string_from_ip_int).
Local Notation "'ip_network_'" := (ip_network IPv6_ip_int_from_string).

(** *** The loop *)

Lemma expand_loop_spec (max_hosts : option Z) (fuel : nat) :
  forall it idx acc,
    expand_loop_ fuel it idx max_hosts acc
    = acc ++ map str_
        (firstn (Nat.min fuel
                   (cap_left max_hosts idx (List.length (iter_all it))))
           (iter_all it)).
Proof.
  induction fuel as [|fuel IH]; intros it idx acc.
  - simpl. rewrite app_nil_r. reflexivity.
  - cbn [expand_loop]. destruct (iter_next it) as [[h it']|] eqn:En.
    + rewrite (iter_next_some _ _ _ En).
      unfold stop_now, cap_left. destruct max_hosts as [m|].
      * destruct (m <=? idx)%Z eqn:E.
        -- apply Z.leb_le in E. replace (Z.to_nat (m - idx)) with 0%nat by lia.
           rewrite Nat.min_0_r. simpl. rewrite app_nil_r. reflexivity.
        -- apply Z.leb_gt in E. rewrite IH. unfold cap_left.
           replace (Z.to_nat (m - idx)) with (S (Z.to_nat (m - (idx + 1))))
             by lia.
           simpl. rewrite <- app_assoc. reflexivity.
      * rewrite IH. unfold cap_left. simpl. rewrite <- app_assoc. reflexivity.
    + rewrite (iter_next_none _ En), firstn_nil. simpl.
      rewrite app_nil_r. reflexivity.
Qed.

(** More fuel than [loop_fuel] does not change what the loop returns. *)
Lemma loop_fuel_enough (it : host_iter) (max_hosts : option Z) (extra : nat) :
  expand_loop_ (loop_fuel it max_hosts + extra) it 0 max_hosts []
  = expand_loop_ (loop_fuel it max_hosts) it 0 max_hosts [].
Proof.
  rewrite !expand_loop_spec. f_equal. f_equal.
  pose proof (iter_all_length it) as Hl.
  apply firstn_same_cap.
  unfold loop_fuel, cap_left. destruct max_hosts as [m|]; lia.
Qed.

Lemma expand_cidr_spec (cidr : string) (max_hosts : option Z) (net : Network) :
  ip_network_ cidr false = Return net ->
  expand_cidr_ cidr max_hosts
  = Return (map str_
              match max_hosts with
              | Some k => firstn (Z.to_nat k) (iter_all (hosts net))
              | None => iter_all (hosts net)
              end).
Proof.
  intros Hn. unfold expand_cidr. rewrite Hn. simpl.
  rewrite expand_loop_spec. simpl. f_equal. f_equal.
  pose proof (iter_all_length (hosts net)) as Hl.
  unfold loop_fuel, cap_left. destruct max_hosts as [k|].
  - apply firstn_same_cap. lia.
  - rewrite <- Hl, Nat.min_id. apply firstn_all.
Qed.

End IPv6Text.

Lemma NoDup_hosts (n : Network) : NoDup (iter_all (hosts n)).
Proof.
  assert (Hr : forall v a b, NoDup (iter_all (IterRange v a b))).
  { intros v a b. simpl. apply NoDup_map_in; [|apply NoDup_N_seq].
    intros x y _ _ [= E]. exact E. }
  unfold hosts.
  destruct (prefixlen n =? _max_prefixlen (net_version n) - 1)%N; [apply Hr|].
  destruct (prefixlen n =? _max_prefixlen (net_version n))%N.
  - simpl. constructor; [simpl; tauto | constructor].
  - destruct (net_version n); apply Hr.
Qed.

Section Claims.

Variable IPv6_ip_int_from_string : string -> result N.
Variable IPv6_string_from_ip_int : N -> string.

Local Notation "'str_'" := (str_address IPv6_string_from_ip_int).
Local Notation "'expand_cidr_'" :=
  (expand_cidr IPv6_ip_int_from_string IPv6_string_from_ip_int).
Local Notation "'ip_network_'" := (ip_network IPv6_ip_int_from_string).

(** C4.  [expand_cidr] fails exactly when [ip_network] cannot parse
    the range specification, with the [ValueError] of [ip_network]
    (the error the specification calls InvalidRangeError); for every
    specification that parses it returns a list.  In particular a
    second slash and a prefix longer than any family allows are
    rejected, and 192.168.0.0/30 yields its two hosts. *)
Theorem expand_cidr_fails_iff_unparsable (cidr : string) (max_hosts : option Z) :
  match ip_network_ cidr false with
  | Return _ => exists hosts_, expand_cidr_ cidr max_hosts = Return hosts_
  | Raise e =>
      expand_cidr_ cidr max_hosts = Raise e
      /\ e = ValueError "does not appear to be an IPv4 or IPv6 network"
  end
  /\ raises (expand_cidr_ "1.2.3.4/5/6" max_hosts) = true
  /\ raises (expand_cidr_ "10.0.0.0/129" max_hosts) = true
  /\ expand_cidr_ "192.168.0.0/30" None
     = Return ["192.168.0.1"; "192.168.0.2"].
Proof.
  split; [|split; [|split; [|reflexivity]]].
  - destruct (ip_network_ cidr false) as [net|e] eqn:E.
    + rewrite (expand_cidr_spec _ _ _ _ _ E). eauto.
    + split; [unfold expand_cidr; rewrite E; reflexivity|].
      apply (ip_network_raises _ _ _ E).
  - reflexivity.
  - unfold expand_cidr, ip_network, IPv6Network, IPv6Address. simpl.
    destruct (IPv6_ip_int_from_string "10.0.0.0"); reflexivity.
Qed.

(** *** Host bits below the prefix *)

Lemma prefix_string_ok (v : version) (p : N) : (p <= _max_prefixlen v)%N ->
  _prefix_from_prefix_string v (str_of_N p) = Return p.
Proof.
  intros Hp. unfold _prefix_from_prefix_string.
  rewrite str_of_N_digits.
  rewrite int_str_of_N
    by (apply small_within_limit; destruct v; simpl in Hp; lia).
  replace (truthy (str_of_N p)) with true.
  2:{ pose proof (str_of_N_nonempty p).
      destruct (str_of_N p); [congruence | reflexivity]. }
  replace ((0 <=? Z.of_N p)%Z && (Z.of_N p <=? Z.of_N (_max_prefixlen v))%Z)
    with true.
  2:{ symmetry. apply andb_true_iff. split; apply Z.leb_le; lia. }
  simpl. rewrite N2Z.id. reflexivity.
Qed.

Lemma IPv4Network_parts (s : string) (strict : bool) :
  IPv4Network s strict
  = match IPv4_parts s with
    | Return ap => _init_network IPv4 (fst ap) (snd ap) strict
    | Raise e => Raise e
    end.
Proof.
  unfold IPv4Network, IPv4_parts.
  destruct (_split_addr_prefix IPv4 s) as [[a m]|e]; simpl; [|reflexivity].
  destruct (IPv4Address a) as [addr|e]; simpl; [|reflexivity].
  destruct (_make_netmask IPv4 m) as [q|e]; reflexivity.
Qed.

Lemma IPv6Network_parts (s : string) (strict : bool) :
  IPv6Network IPv6_ip_int_from_string s strict
  = match IPv6_parts IPv6_ip_int_from_string s with
    | Return ap => _init_network IPv6 (fst ap) (snd ap) strict
    | Raise e => Raise e
    end.
Proof.
  unfold IPv6Network, IPv6_parts.
  destruct (_split_addr_prefix IPv6 s) as [[a m]|e]; simpl; [|reflexivity].
  destruct (IPv6Address IPv6_ip_int_from_string a) as [addr|e]; simpl;
    [|reflexivity].
  destruct (_make_netmask IPv6 m) as [q|e]; reflexivity.
Qed.

Lemma IPv4_parts_raises (s : string) (e : exn) :
  IPv4_parts s = Raise e -> is_parse_error e = true.
Proof.
  intros H. apply (IPv4Network_raises s). rewrite IPv4Network_parts, H.
  reflexivity.
Qed.

Lemma IPv6_parts_raises (s : string) (e : exn) :
  IPv6_parts IPv6_ip_int_from_string s = Raise e -> is_parse_error e = true.
Proof.
  intros H. apply (IPv6Network_raises IPv6_ip_int_from_string s).
  rewrite IPv6Network_parts, H. reflexivity.
Qed.

(** The host-bit test of [_init_network], both ways. *)
Lemma init_network_cases (v : version) (a : Address) (q : N) (strict : bool) :
  (has_host_bits v a q /\
   _init_network v a q strict
   = if strict then Raise (ValueError "has host bits set")
     else Return (containing_network v a q))
  \/ (N.land (_ip a) (_ip_int_from_prefix v q) = _ip a /\
      _init_network v a q strict = Return (mkNetwork v a q)).
Proof.
  unfold _init_network, has_host_bits, containing_network.
  destruct (N.eqb_spec (N.land (_ip a) (_ip_int_from_prefix v q)) (_ip a))
    as [E|E]; simpl; [right | left]; split; auto.
Qed.

(** [ip_network] on a specification that reads as an address with a
    prefix length: only the host bits decide. *)
Lemma ip_network_reads_as (cidr : string) (v : version) (a : Address) (q : N)
    (strict : bool) :
  reads_as IPv6_ip_int_from_string cidr v a q ->
  ip_network_ cidr strict = _init_network v a q strict.
Proof.
  unfold ip_network. rewrite IPv4Network_parts, IPv6Network_parts.
  destruct v; simpl.
  - intros ->. simpl.
    destruct (init_network_cases IPv4 a q strict) as [[_ ->]|[_ ->]];
      [destruct strict|]; reflexivity.
  - intros [Hr ->]. simpl.
    destruct (IPv4_parts cidr) as [ap|e4] eqn:E4; [discriminate|].
    pose proof (IPv4_parts_raises _ _ E4) as H4.
    destruct (init_network_cases IPv6 a q strict) as [[_ ->]|[_ ->]];
      [destruct strict|]; destruct e4; try discriminate H4; reflexivity.
Qed.

(** Every specification that the strict reading refuses for its host
    bits reads as an address with a prefix length. *)
Lemma host_bits_reads_as (cidr : string) :
  ip_network_ cidr true = Raise (ValueError "has host bits set") ->
  exists v a q,
    reads_as IPv6_ip_int_from_string cidr v a q /\ has_host_bits v a q.
Proof.
  unfold ip_network. rewrite IPv4Network_parts, IPv6Network_parts.
  destruct (IPv4_parts cidr) as [[a q]|e4] eqn:E4.
  - simpl fst. simpl snd.
    destruct (init_network_cases IPv4 a q true) as [[Hb _]|[_ ->]];
      [|discriminate].
    intros _. exists IPv4, a, q. split; [exact E4 | exact Hb].
  - pose proof (IPv4_parts_raises _ _ E4) as H4.
    destruct (IPv6_parts IPv6_ip_int_from_string cidr) as [[a q]|e6] eqn:E6.
    + simpl fst. simpl snd.
      destruct (init_network_cases IPv6 a q true) as [[Hb _]|[_ ->]].
      * intros _. exists IPv6, a, q.
        split; [|exact Hb]. simpl. rewrite E4, E6. split; reflexivity.
      * destruct e4; discriminate.
    + pose proof (IPv6_parts_raises _ _ E6) as H6.
      destruct e4; try discriminate H4; destruct e6; try discriminate H6;
        discriminate.
Qed.

(** The canonical text of an IPv4 address and a prefix length reads as
    that address and prefix length. *)
Lemma canonical_reads_as (x q : N) :
  (x < two32)%N -> (q <= 32)%N ->
  reads_as IPv6_ip_int_from_string
    (IPv4_string_from_ip_int x ++ "/" ++ str_of_N q) IPv4
    (mkAddress IPv4 x None) q.
Proof.
  intros Hx Hq. simpl. unfold IPv4_parts, _split_addr_prefix.
  change (IPv4_string_from_ip_int x ++ "/" ++ str_of_N q)%string
    with (IPv4_string_from_ip_int x ++ String "/"%char (str_of_N q))%string.
  rewrite split_app_sep by (apply IPv4_string_free_of; reflexivity).
  rewrite split_free
    by (apply digits_free_of; [reflexivity | apply str_of_N_digits]).
  cbn [fst snd bind]. rewrite IPv4Address_str by exact Hx.
  cbn [bind _make_netmask].
  rewrite prefix_string_ok by exact Hq. reflexivity.
Qed.

(** C9.  A range specification whose address has host bits set below
    the prefix is accepted.  The specifications that [ip_network]
    refuses with [strict=True] for their host bits are exactly those
    that read, in either family and with the prefix written as a
    length or as a netmask, as an address with bits below the prefix.
    For each of them [ip_network] with [strict=False] yields the
    containing network, the address masked to the prefix, and
    [expand_cidr] returns the hosts of that network, up to the cap.
    For example ["192.168.0.5/24"], and the same range written with
    the netmask 255.255.255.0, capped at 3, give the first three hosts
    of 192.168.0.0/24. *)
Theorem expand_cidr_masks_host_bits (cidr : string) (max_hosts : option Z) :
  (ip_network_ cidr true = Raise (ValueError "has host bits set") <->
   exists v a q,
     reads_as IPv6_ip_int_from_string cidr v a q /\ has_host_bits v a q)
  /\ (forall v a q,
        reads_as IPv6_ip_int_from_string cidr v a q -> has_host_bits v a q ->
        ip_network_ cidr false = Return (containing_network v a q)
        /\ expand_cidr_ cidr max_hosts
           = Return (map str_
                       match max_hosts with
                       | Some k =>
                           firstn (Z.to_nat k)
                             (iter_all (hosts (containing_network v a q)))
                       | None => iter_all (hosts (containing_network v a q))
                       end))
  /\ expand_cidr_ "192.168.0.5/24" (Some 3%Z)
     = Return ["192.168.0.1"; "192.168.0.2"; "192.168.0.3"]
  /\ expand_cidr_ "192.168.0.5/255.255.255.0" (Some 3%Z)
     = Return ["192.168.0.1"; "192.168.0.2"; "192.168.0.3"].
Proof.
  split; [|split; [|split; reflexivity]].
  - split; [apply host_bits_reads_as|].
    intros (v & a & q & Hr & Hb).
    rewrite (ip_network_reads_as _ _ _ _ true Hr).
    destruct (init_network_cases v a q true) as [[_ ->]|[E _]];
      [reflexivity | contradiction].
  - intros v a q Hr Hb.
    assert (E : ip_network_ cidr false = Return (containing_network v a q)).
    { rewrite (ip_network_reads_as _ _ _ _ false Hr).
      destruct (init_network_cases v a q false) as [[_ ->]|[E _]];
        [reflexivity | contradiction]. }
    split; [exact E|]. apply (expand_cidr_spec _ _ _ _ _ E).
Qed.

(** *** The cap, distinctness and the host range *)

Hypothesis IPv6_ip_int_bound : forall s x,
  IPv6_ip_int_from_string s = Return x -> (x < 2 ^ 128)%N.
Hypothesis IPv6_string_inj : forall x y,
  (x < 2 ^ 128)%N -> (y < 2 ^ 128)%N ->
  IPv6_string_from_ip_int x = IPv6_string_from_ip_int y -> x = y.

Lemma str_address_inj (n : Network) (a b : Address) :
  wf_network n ->
  In a (iter_all (hosts n)) -> In b (iter_all (hosts n)) ->
  str_ a = str_ b -> a = b.
Proof.
  intros Hwf Ha Hb E.
  destruct (hosts_in_block n a Hwf Ha) as [[Hva [[_ Hia] _]] Hsa].
  destruct (hosts_in_block n b Hwf Hb) as [[Hvb [[_ Hib] _]] Hsb].
  destruct Hsa as [Hsa|Hsa]; [|rewrite Hsa in Hb; destruct Hb as [<-|[]]; reflexivity].
  destruct Hsb as [Hsb|Hsb]; [|rewrite Hsb in Ha; destruct Ha as [<-|[]]; reflexivity].
  pose proof (broadcast_fits n Hwf) as Hf. cbv zeta in Hf.
  destruct a as [va xa sa], b as [vb xb sb]. simpl in *. subst sa sb va vb.
  f_equal. unfold str_address in E. simpl in E.
  destruct (net_version n); simpl in Hf.
  - apply IPv4_string_inj; [unfold two32; lia | unfold two32; lia | exact E].
  - apply IPv6_string_inj; [lia | lia | exact E].
Qed.


(** C7 (as the code has it).  For a range specification that parses
    and a cap [k], [expand_cidr] returns at most [k] addresses (none
    when [k] is negative), pairwise distinct, each the text of an
    address of the network's family inside the network's block; when
    the prefix leaves at least two host bits the address is above the
    network address and, for IPv4, below the broadcast address. *)
Theorem expand_cidr_capped_distinct_in_block
    (cidr : string) (k : Z) (net : Network) :
  ip_network_ cidr false = Return net ->
  exists hosts_,
    expand_cidr_ cidr (Some k) = Return hosts_
    /\ (List.length hosts_ <= Z.to_nat k)%nat
    /\ NoDup hosts_
    /\ forall s, In s hosts_ -> exists a, s = str_ a /\ in_block net a.
Proof.
  intros Hn. pose proof (ip_network_wf _ IPv6_ip_int_bound _ _ _ Hn) as Hwf.
  eexists. split; [apply (expand_cidr_spec _ _ _ _ _ Hn)|].
  split; [|split].
  - rewrite length_map. apply firstn_le_length.
  - apply NoDup_map_in; [|apply NoDup_firstn, NoDup_hosts].
    intros a b Ha Hb. apply (str_address_inj net a b Hwf);
      eapply in_firstn; eassumption.
  - intros s Hs. apply in_map_iff in Hs as [a [<- Ha]].
    exists a. split; [reflexivity|].
    apply (hosts_in_block net a Hwf). eapply in_firstn; eassumption.
Qed.

End Claims.

(** The printer of the closed examples is injective. *)
Lemma decimal_ip6_printer_inj (x y : N) :
  (x < 2 ^ 128)%N -> (y < 2 ^ 128)%N ->
  decimal_ip6_printer x = decimal_ip6_printer y -> x = y.
Proof. intros _ _. apply str_of_N_inj. Qed.

Lemma no_ip6_reader_bound (s : string) (x : N) :
  no_ip6_reader s = Return x -> (x < 2 ^ 128)%N.
Proof. discriminate. Qed.

Lemma expand_cidr_masks_host_bits_witness :
  ip_network no_ip6_reader "192.168.0.5/24" false
  = Return (mkNetwork IPv4 (mkAddress IPv4 3232235520 None) 24)
  /\ expand_cidr no_ip6_reader decimal_ip6_printer "192.168.0.5/24"
       (Some 2%Z)
     = Return ["192.168.0.1"; "192.168.0.2"].
Proof.
  destruct (expand_cidr_masks_host_bits no_ip6_reader decimal_ip6_printer
              "192.168.0.5/24" (Some 2%Z)) as (_ & H & _).
  destruct (H IPv4 (mkAddress IPv4 3232235525 None) 24%N) as [H1 H2].
  - reflexivity.
  - unfold has_host_bits. vm_compute. discriminate.
  - split; [exact H1 | exact H2].
Defined.

Lemma expand_cidr_capped_distinct_in_block_witness :
  exists hosts_,
    expand_cidr no_ip6_reader decimal_ip6_printer "192.168.0.0/24" (Some 3%Z)
    = Return hosts_
    /\ (List.length hosts_ <= 3)%nat /\ NoDup hosts_.
Proof.
  destruct (expand_cidr_capped_distinct_in_block
              no_ip6_reader decimal_ip6_printer
              no_ip6_reader_bound decimal_ip6_printer_inj
              "192.168.0.0/24" 3
              (mkNetwork IPv4 (mkAddress IPv4 3232235520 None) 24)
              eq_refl)
    as [hs [E [Hl [Hn _]]]].
  exists hs. auto.
Defined.

(** C7 as stated fails on a /31 network: both addresses of the block
    are returned, the network address and the broadcast address among
    them, so not every returned address is strictly between the two. *)
Lemma usable_hosts_only_fails_on_slash31 :
  ~ usable_hosts_only no_ip6_reader decimal_ip6_printer "10.0.0.0/31" 2.
Proof.
  intros H.
  destruct (H (mkNetwork IPv4 (mkAddress IPv4 167772160 None) 31)
              ["10.0.0.0"; "10.0.0.1"] eq_refl eq_refl) as [_ [_ Hin]].
  destruct (Hin "10.0.0.0" (or_introl eq_refl)) as [a [_ [_ Hr]]].
  simpl in Hr. change (broadcast_address _) with 167772161%N in Hr. lia.
Qed.

End ip_rangeFacts.

(* ================================================================= *)
(** ** banner_grabber.py: decoding the bytes read *)

Module banner_grabberFacts.
Import Py codecs banner_grabber.

(** With [ignore] the UTF-8 decoder never raises. *)
Lemma utf8_loop_ignore_returns (fuel : nat) : forall pos s out,
  exists t, utf8_loop fuel ignore pos s out = Return t.
Proof.
  induction fuel as [|fuel IH]; intros pos s out.
  - destruct s; simpl; eauto.
  - destruct s as [|ch rest]; simpl; [eauto|].
    destruct (utf8_decode_one ch rest); apply IH.
Qed.

(** Where the strict decoder succeeds, [ignore] gives the same text. *)
Lemma utf8_loop_strict_ignore (fuel : nat) : forall pos s out t,
  utf8_loop fuel strict pos s out = Return t ->
  utf8_loop fuel ignore pos s out = Return t.
Proof.
  induction fuel as [|fuel IH]; intros pos s out t.
  - destruct s; simpl; auto.
  - destruct s as [|ch rest]; simpl; [auto|].
    destruct (utf8_decode_one ch rest); [apply IH | discriminate].
Qed.

Lemma decode_ignore_returns (data : list Byte.byte) :
  exists t, decode data utf_8 ignore = Return t.
Proof. apply utf8_loop_ignore_returns. Qed.

(** The [except UnicodeDecodeError] branch is never taken. *)
Lemma decode_banner_is_utf8_ignore (data : list Byte.byte) :
  decode_banner data = decode data utf_8 ignore.
Proof.
  unfold decode_banner. destruct (decode_ignore_returns data) as [t ->].
  reflexivity.
Qed.

(** The part of C6 the code keeps: bytes that are valid UTF-8 are
    returned as their UTF-8 interpretation. *)
Lemma valid_utf8_banner (data : list Byte.byte) (t : text) :
  data <> [] ->
  decode data utf_8 strict = Return t ->
  after_read data = Some t.
Proof.
  intros Hne Hs. unfold after_read. destruct data as [|b data]; [congruence|].
  rewrite decode_banner_is_utf8_ignore.
  unfold decode in *. rewrite (utf8_loop_strict_ignore _ _ _ _ _ Hs).
  reflexivity.
Qed.

(** C6 at the failing input.  The one byte 0xFF is not valid UTF-8
    (the strict decoder raises) and its single-byte-per-character
    reading is the code point 255; both grab functions return the empty
    text instead, because decoding with [ignore] never raises and so
    never reaches the fallback. *)
Theorem undecodable_banner_bytes_are_dropped :
  let c := net.mkConnection true true (Some [Byte.xff]) true in
  decode [Byte.xff] utf_8 strict = Raise (UnicodeDecodeError 0)
  /\ decode [Byte.xff] latin_1 ignore = Return [255%N]
  /\ grab_raw_banner c 2048 = Some []
  /\ grab_http_banner c 2048 = Some []
  /\ forall data, decode_banner data = decode data utf_8 ignore.
Proof.
  repeat split; try reflexivity. apply decode_banner_is_utf8_ignore.
Qed.

End banner_grabberFacts.

(* ================================================================= *)
(** ** models.py and storage.py *)

Module storageFacts.
Import Py props models storage.

Lemma to_record_scanned_at (now : datetime) (r : ScanResult) :
  d_scanned_at (to_record now r)
  = VStr (text_of_string (isoformat (stored_time now r))).
Proof. destruct r as [i p o sv b [t|]]; reflexivity. Qed.

Lemma row_of_scanned_at (id : Z) (now : datetime) (r : ScanResult) :
  c_scanned_at (row_of id now r)
  = SqlText (text_of_string (isoformat (stored_time now r))).
Proof.
  unfold row_of. cbn [c_scanned_at]. rewrite to_record_scanned_at.
  reflexivity.
Qed.

Lemma adapt_returns (v : value) (q : sqlval) :
  adapt v = Return q -> q = stored v.
Proof.
  destruct v as [|t|n|b|d]; simpl.
  - intros [= <-]. reflexivity.
  - destruct (encodable t); [intros [= <-]; reflexivity | discriminate].
  - destruct (int64 n); [intros [= <-]; reflexivity | discriminate].
  - intros [= <-]. reflexivity.
  - intros [= <-]. reflexivity.
Qed.

(** Text below code point 256 has no surrogate. *)
Lemma encodable_text_of_string (s : string) :
  encodable (text_of_string s) = true.
Proof.
  unfold encodable, text_of_string. apply forallb_forall.
  intros c Hc. apply in_map_iff in Hc as [a [<- _]].
  pose proof (N_ascii_bounded a) as Hb. unfold is_surrogate, code.
  destruct (N.leb_spec 55296 (N_of_ascii a)); [lia | reflexivity].
Qed.

Lemma adapt_text_of_string (s : string) :
  adapt (VStr (text_of_string s)) = Return (SqlText (text_of_string s)).
Proof. simpl. rewrite encodable_text_of_string. reflexivity. Qed.

(** An INSERT that returns has met no fault, found the table, and
    added one row, of the values as stored, to the open transaction. *)
Lemma execute_insert_returns (f : bool) (c c' : Connection)
    (a b d e g h : value) :
  execute_insert f c a b d e g h = Return c' ->
  f = false
  /\ exists rows,
       disk c = Some rows
       /\ c' = mkConnection (disk c)
                 (Some (pending_of c
                        ++ [mkRow (next_id (rows ++ pending_of c))
                              (stored a) (stored b) (stored d)
                              (stored e) (stored g) (stored h)])).
Proof.
  unfold execute_insert. destruct f; [discriminate|].
  destruct (disk c) as [rows|] eqn:Hd; [|discriminate].
  destruct (adapt a) as [pa|] eqn:Ea; [|discriminate].
  destruct (adapt b) as [pb|] eqn:Eb; [|discriminate].
  destruct (adapt d) as [pd|] eqn:Ed; [|discriminate].
  destruct (adapt e) as [pe|] eqn:Ee; [|discriminate].
  destruct (adapt g) as [pg|] eqn:Eg; [|discriminate].
  destruct (adapt h) as [ph|] eqn:Eh; [|discriminate].
  cbn [bind]. cbv zeta. destruct (_ <? _)%Z; [discriminate|].
  destruct (_ || _); [discriminate|]. intros [= <-].
  apply adapt_returns in Ea, Eb, Ed, Ee, Eg, Eh. subst.
  split; [reflexivity|]. exists rows. split; reflexivity.
Qed.

(** Without a fault and with the table present, the INSERT of a
    storable result adds exactly its row to the open transaction. *)
Lemma execute_insert_row (c : Connection) (rows pending : list Row)
    (now : datetime) (r : ScanResult) :
  disk c = Some rows -> txn c = Some pending ->
  storable r = true ->
  (next_id (rows ++ pending) <= max_rowid)%Z ->
  let rec := to_record now r in
  execute_insert false c
    (d_ip rec) (d_port rec) (VInt (if truth (d_is_open rec) then 1 else 0))
    (d_service rec) (d_banner rec) (d_scanned_at rec)
  = Return (mkConnection (disk c)
              (Some (pending ++ [row_of (next_id (rows ++ pending)) now r]))).
Proof.
  intros Hd Ht Hs Hroom. unfold execute_insert. rewrite Hd, Ht.
  apply Z.ltb_ge in Hroom. cbv zeta. rewrite Hroom.
  unfold storable in Hs. apply andb_true_iff in Hs as [Hp Hb].
  destruct r as [i p o sv b [t|]]; cbn [port banner] in Hp, Hb;
    unfold to_record, asdict, row_of; cbn -[adapt text_of_string isoformat];
    rewrite !adapt_text_of_string; cbn [bind adapt]; rewrite Hp; cbn [bind];
    destruct o; cbn [bind int64 Z.leb Z.compare andb];
    destruct sv as [sv|]; cbn -[text_of_string isoformat encodable];
    rewrite ?encodable_text_of_string; cbn [bind];
    destruct b as [b|]; cbn -[text_of_string isoformat encodable];
    rewrite ?Hb, ?encodable_text_of_string; reflexivity.
Qed.

(** The INSERT of a result that is not storable raises. *)
Lemma execute_insert_unstorable (c : Connection) (rows : list Row)
    (now : datetime) (r : ScanResult) :
  disk c = Some rows -> storable r = false ->
  let rec := to_record now r in
  exists e,
    execute_insert false c
      (d_ip rec) (d_port rec) (VInt (if truth (d_is_open rec) then 1 else 0))
      (d_service rec) (d_banner rec) (d_scanned_at rec)
    = Raise e.
Proof.
  intros Hd Hs. cbv zeta.
  destruct (execute_insert false c _ _ _ _ _ _) as [c'|e] eqn:E; [|eauto].
  exfalso. unfold execute_insert in E. rewrite Hd in E.
  destruct r as [i p o sv b t].
  assert (Ep : d_port (to_record now (mkScanResult i p o sv b t)) = VInt p)
    by (destruct t; reflexivity).
  assert (Eb : d_banner (to_record now (mkScanResult i p o sv b t))
               = of_option VStr b)
    by (destruct t; reflexivity).
  rewrite Ep, Eb in E.
  destruct (adapt (d_ip _)); [|discriminate].
  destruct (adapt (VInt p)) eqn:E2; [|discriminate].
  destruct (adapt (VInt (if truth _ then 1%Z else 0%Z))); [|discriminate].
  destruct (adapt (d_service _)); [|discriminate].
  destruct (adapt (of_option VStr b)) eqn:E5; [|discriminate].
  clear E. unfold storable in Hs. cbn [port banner] in Hs.
  simpl in E2. destruct (int64 p); [|discriminate]. simpl in Hs.
  destruct b as [b|]; [|discriminate]. simpl in E5. rewrite Hs in E5.
  discriminate.
Qed.

Lemma new_rows_length (utcnow_ : nat -> datetime) (results : list ScanResult) :
  forall i existing,
    List.length (new_rows utcnow_ i existing results) = List.length results.
Proof.
  induction results as [|r rest IH]; intros i existing; simpl;
    [|rewrite IH]; reflexivity.
Qed.

Lemma new_rows_nth (utcnow_ : nat -> datetime) (results : list ScanResult) :
  forall i existing j row r,
    nth_error (new_rows utcnow_ i existing results) j = Some row ->
    nth_error results j = Some r ->
    exists id, row = row_of id (utcnow_ (i + j)%nat) r.
Proof.
  induction results as [|r0 rest IH]; intros i existing j row r.
  - destruct j; discriminate.
  - destruct j as [|j]; simpl.
    + intros [= <-] [= <-]. rewrite Nat.add_0_r. eauto.
    + intros H1 H2. destruct (IH _ _ _ _ _ H1 H2) as [id ->].
      exists id. f_equal. f_equal. lia.
Qed.

(** The loop changes the open transaction only, never the file. *)
Lemma insert_loop_spec (w : world) (results : list ScanResult) :
  forall i c pending,
    txn c = Some pending ->
    match insert_loop w i c results with
    | (c', Return _) =>
        disk c' = disk c
        /\ match disk c with
           | Some rows =>
               txn c' = Some (pending
                              ++ new_rows (utcnow w) i (rows ++ pending) results)
           | None => results = []
           end
    | (c', Raise _) => disk c' = disk c
    end.
Proof.
  induction results as [|r rest IH]; intros i c pending Ht.
  - simpl. split; [reflexivity|]. destruct (disk c); [|reflexivity].
    rewrite app_nil_r. exact Ht.
  - cbn [insert_loop].
    destruct (execute_insert _ c _ _ _ _ _ _) as [c1|e] eqn:Ei; [|reflexivity].
    destruct (execute_insert_returns _ _ _ _ _ _ _ _ _ Ei)
      as [Hf [rows [Hr ->]]].
    unfold pending_of. rewrite Ht.
    change (mkRow (next_id (rows ++ pending)) _ _ _ _ _ _)
      with (row_of (next_id (rows ++ pending)) (utcnow w i) r).
    specialize (IH (S i) (mkConnection (disk c)
                     (Some (pending ++ [row_of (next_id (rows ++ pending))
                                          (utcnow w i) r])))
                  _ eq_refl).
    destruct (insert_loop w (S i) _ rest) as [c2 [u|e]]; simpl in IH |- *.
    + destruct IH as [IHd IHt]. split; [exact IHd|].
      rewrite Hr in IHt |- *. rewrite IHt. simpl.
      rewrite <- !app_assoc. reflexivity.
    + exact IH.
Qed.

Lemma save_results_outcome (w : world) (db : database)
    (results : list ScanResult) :
  match save_results w db results with
  | (db', Return _) =>
      match db with
      | Some rows =>
          db' = Some (rows ++ new_rows (utcnow w) 0 rows results)
          /\ List.length (new_rows (utcnow w) 0 rows results)
             = List.length results
      | None => results = [] /\ db' = None
      end
  | (db', Raise _) => db' = db
  end.
Proof.
  unfold save_results, connect, execute_begin.
  destruct (fault w 0); [reflexivity|].
  destruct (fault w 1); [reflexivity|]. cbn [txn disk close].
  pose proof (insert_loop_spec w results 0 (mkConnection db (Some [])) []
                eq_refl) as H.
  destruct (insert_loop w 0 (mkConnection db (Some [])) results)
    as [c2 [u|e]]; cbn [disk] in H; [|exact H].
  destruct H as [Hd Ht]. unfold commit, close.
  destruct (fault w (2 + List.length results)); [exact Hd|].
  destruct db as [rows|].
  - rewrite app_nil_r in Ht. simpl in Ht. rewrite Ht, Hd. simpl.
    split; [reflexivity | apply new_rows_length].
  - subst results. destruct (txn c2); rewrite Hd; simpl; auto.
Qed.

(** A row with the next id moves the next id on by one. *)
Lemma next_id_snoc (l : list Row) (row : Row) :
  c_id row = next_id l -> next_id (l ++ [row]) = (next_id l + 1)%Z.
Proof.
  unfold next_id. intros E.
  assert (H : fold_right Z.max 0%Z (map c_id (l ++ [row]))
              = Z.max (fold_right Z.max 0%Z (map c_id l))
                  (Z.max (c_id row) 0)).
  { clear E. induction l as [|x l IH]; simpl; [lia|]. rewrite IH. lia. }
  assert (H0 : (0 <= fold_right Z.max 0 (map c_id l))%Z).
  { clear. induction l as [|x l IH]; simpl; lia. }
  rewrite H, E. lia.
Qed.

Lemma save_results_without_fault (w : world) (rows : list Row)
    (results : list ScanResult) :
  (forall k, fault w k = false) ->
  forallb storable results = true ->
  has_room rows results = true ->
  save_results w (Some rows) results
  = (Some (rows ++ new_rows (utcnow w) 0 rows results), Return tt).
Proof.
  intros Hnf Hst Hroom.
  assert (Hloop : forall rs i c pending,
             forallb storable rs = true ->
             disk c = Some rows -> txn c = Some pending ->
             (next_id (rows ++ pending) + Z.of_nat (List.length rs) - 1
              <= max_rowid)%Z ->
             exists c', insert_loop w i c rs = (c', Return tt)).
  { induction rs as [|r rest IH]; intros i c pending Hs Hd Ht Hm; simpl;
      [eauto|].
    simpl in Hs. apply andb_true_iff in Hs as [Hr Hrest].
    cbn [List.length] in Hm.
    rewrite Hnf, (execute_insert_row c rows pending _ r Hd Ht Hr)
      by lia.
    eapply IH; simpl; [exact Hrest | exact Hd | reflexivity|].
    rewrite app_assoc, next_id_snoc by reflexivity. lia. }
  destruct (Hloop results 0 (mkConnection (Some rows) (Some [])) []
              Hst eq_refl eq_refl) as [c2 Hc2].
  { rewrite app_nil_r. unfold has_room in Hroom.
    apply Z.leb_le in Hroom. exact Hroom. }
  pose proof (save_results_outcome w (Some rows) results) as Hmain.
  revert Hmain. unfold save_results, connect, execute_begin.
  rewrite !Hnf. cbn [txn disk]. rewrite Hc2. unfold commit.
  destruct (txn c2), (disk c2); cbn [close disk]; intros [-> _]; reflexivity.
Qed.

(** Without a fault, a result that is not storable makes the call
    raise, at the INSERT that would bind it if not before. *)
Lemma save_results_unstorable (w : world) (rows : list Row)
    (results : list ScanResult) :
  (forall k, fault w k = false) ->
  forallb storable results = false ->
  exists e, save_results w (Some rows) results = (Some rows, Raise e).
Proof.
  intros Hnf Hst.
  assert (Hloop : forall rs i c pending,
             forallb storable rs = false ->
             disk c = Some rows -> txn c = Some pending ->
             exists c' e, insert_loop w i c rs = (c', Raise e)).
  { induction rs as [|r rest IH]; intros i c pending Hs Hd Ht; simpl;
      [discriminate|].
    simpl in Hs. rewrite Hnf. destruct (storable r) eqn:Hr.
    - destruct (execute_insert false c _ _ _ _ _ _) as [c1|e] eqn:Ei;
        [|eauto].
      destruct (execute_insert_returns _ _ _ _ _ _ _ _ _ Ei)
        as [_ [rows' [_ ->]]].
      eapply IH; simpl; [exact Hs | exact Hd | reflexivity].
    - destruct (execute_insert_unstorable c rows (utcnow w i) r Hd Hr)
        as [e ->]. eauto. }
  destruct (Hloop results 0 (mkConnection (Some rows) (Some [])) []
              Hst eq_refl eq_refl) as [c2 [e Hc2]].
  pose proof (save_results_outcome w (Some rows) results) as Hmain.
  revert Hmain. unfold save_results, connect, execute_begin.
  rewrite !Hnf. cbn [txn disk]. rewrite Hc2. intros ->. eauto.
Qed.

(** C5.  [save_results] is all or nothing.  When the call returns,
    the stored table is the old one followed by one row per result, in
    order (all of them reach the file in the one [commit]); when the
    call raises, at whatever statement, the stored table is unchanged.
    Without a fault, with the table present and ids left for the new
    rows, the call returns when every result can be bound to the
    statement (its port fits 64 bits, its banner can be encoded), and
    raises otherwise. *)
Theorem save_results_all_or_nothing (w : world) (db : database)
    (results : list ScanResult) :
  match save_results w db results with
  | (db', Return _) =>
      match db with
      | Some rows =>
          db' = Some (rows ++ new_rows (utcnow w) 0 rows results)
          /\ List.length (new_rows (utcnow w) 0 rows results)
             = List.length results
      | None => results = [] /\ db' = None
      end
  | (db', Raise _) => db' = db
  end
  /\ ((forall k, fault w k = false) ->
      forall rows, db = Some rows -> has_room rows results = true ->
      if forallb storable results then
        save_results w db results
        = (Some (rows ++ new_rows (utcnow w) 0 rows results), Return tt)
      else exists e, save_results w db results = (db, Raise e)).
Proof.
  split; [apply save_results_outcome|].
  intros Hnf rows -> Hroom. destruct (forallb storable results) eqn:Hst.
  - apply save_results_without_fault; assumption.
  - apply save_results_unstorable; assumption.
Qed.

(** C10.  [to_record] always yields an ISO-8601 string for
    [scanned_at]: that of the result's own timestamp, or of the clock
    when the result has none.  Hence every row [save_results] persists
    carries that string in its [scanned_at] column, never NULL. *)
Theorem persisted_scanned_at_is_never_null (w : world) (db : database)
    (results : list ScanResult) :
  (forall now r,
     d_scanned_at (to_record now r)
     = VStr (text_of_string (isoformat (stored_time now r))))
  /\ match save_results w db results with
     | (Some rows', Return _) =>
         exists rows added,
           db = Some rows /\ rows' = rows ++ added
           /\ List.length added = List.length results
           /\ forall j row r,
                nth_error added j = Some row ->
                nth_error results j = Some r ->
                c_scanned_at row
                = SqlText (text_of_string
                             (isoformat (stored_time (utcnow w j) r)))
                /\ is_null (c_scanned_at row) = false
     | _ => True
     end.
Proof.
  split; [apply to_record_scanned_at|].
  pose proof (save_results_outcome w db results) as H.
  destruct (save_results w db results) as [[rows'|] [u|e]]; try exact I.
  destruct db as [rows|]; [|destruct H; discriminate].
  destruct H as [[= ->] Hl].
  exists rows, (new_rows (utcnow w) 0 rows results).
  repeat split; auto.
  - destruct (new_rows_nth _ _ _ _ _ _ _ H H0) as [id ->].
    apply row_of_scanned_at.
  - destruct (new_rows_nth _ _ _ _ _ _ _ H H0) as [id ->].
    rewrite row_of_scanned_at. reflexivity.
Qed.

(** A closed instance: a table with no row, one closed-port result
    without a timestamp, no fault. *)
Lemma save_results_all_or_nothing_witness :
  let now := mkDatetime 2024 3 7 9 5 0 0 in
  let w := mkWorld (fun _ => false) (fun _ => now) in
  let r := mkScanResult "10.0.0.1" 22 false None None None in
  exists row,
    save_results w (Some []) [r] = (Some [row], Return tt)
    /\ c_scanned_at row = SqlText (text_of_string "2024-03-07T09:05:00").
Proof.
  intros now w r.
  destruct (save_results_all_or_nothing w (Some []) [r]) as [_ H].
  specialize (H (fun _ => eq_refl) [] eq_refl eq_refl).
  eexists. split; [exact H | reflexivity].
Defined.

Lemma persisted_scanned_at_is_never_null_witness :
  let now := mkDatetime 2024 3 7 9 5 0 0 in
  let w := mkWorld (fun _ => false) (fun _ => now) in
  let r := mkScanResult "10.0.0.1" 22 false None None None in
  d_scanned_at (to_record now r)
  = VStr (text_of_string "2024-03-07T09:05:00")
  /\ is_null (c_scanned_at (row_of 1 now r)) = false.
Proof.
  intros now w r.
  destruct (persisted_scanned_at_is_never_null w (Some []) [r]) as [H1 H2].
  split; [exact (H1 now r)|].
  assert (E : save_results w (Some []) [r]
              = (Some [row_of 1 now r], Return tt)) by reflexivity.
  rewrite E in H2. destruct H2 as [rows [added [Hdb [Hrows [_ Hall]]]]].
  injection Hdb as <-. simpl in Hrows. subst added.
  apply (Hall 0%nat (row_of 1 now r) r eq_refl eq_refl).
Defined.

End storageFacts.

(* ================================================================= *)
(** ** scanner.py *)

Module scannerFacts.
Import Py props models config scanner.

(** *** Updating one task *)

Lemma nth_error_set_nth_same {A} (l : list A) (i : nat) (t x : A) :
  nth_error l i = Some t -> nth_error (set_nth i x l) i = Some x.
Proof.
  revert i. induction l as [|y l IH]; intros [|i]; simpl; try discriminate;
    auto.
Qed.

Lemma nth_error_set_nth_other {A} (l : list A) (i j : nat) (x : A) :
  i <> j -> nth_error (set_nth i x l) j = nth_error l j.
Proof.
  revert i j. induction l as [|y l IH]; intros [|i] [|j] H; simpl;
    try reflexivity; try congruence.
  apply IH. congruence.
Qed.

Lemma active_app (l1 l2 : list task) (t : task) :
  List.length (filter is_active (l1 ++ t :: l2))
  = (List.length (filter is_active l1) + (if is_active t then 1 else 0)
     + List.length (filter is_active l2))%nat.
Proof.
  rewrite filter_app, length_app. simpl.
  destruct (is_active t); simpl; lia.
Qed.

Lemma returned_results_app (l1 l2 : list task) (t : task) :
  returned_results (l1 ++ t :: l2)
  = returned_results l1
    ++ match t_phase t with Returned r => [r] | _ => [] end
    ++ returned_results l2.
Proof. unfold returned_results. rewrite flat_map_app. reflexivity. Qed.


Lemma task_pair_app (l1 l2 : list task) (t x : task) :
  task_pair x = task_pair t ->
  map task_pair (l1 ++ x :: l2) = map task_pair (l1 ++ t :: l2).
Proof. intros E. rewrite !map_app. simpl. rewrite E. reflexivity. Qed.

(** *** One step *)

Lemma set_nth_split_length {A} (l : list A) (i : nat) (t x : A) :
  nth_error l i = Some t ->
  exists l1 l2,
    l = l1 ++ t :: l2 /\ List.length l1 = i /\ set_nth i x l = l1 ++ x :: l2.
Proof.
  revert i. induction l as [|y l IH]; intros [|i]; simpl; try discriminate.
  - intros [= ->]. exists [], l. auto.
  - intros H. destruct (IH i H) as [l1 [l2 [-> [Hl E]]]].
    exists (y :: l1), l2. simpl. rewrite E, Hl. auto.
Qed.

Lemma resume_resumed (w : world) (cfg : ScannerConfig) (st st' : state)
    (i : nat) :
  resume w cfg st i = Some st' -> resumed w cfg st i st'.
Proof.
  unfold resume. destruct (nth_error (tasks st) i) as [t|] eqn:En;
    [|discriminate].
  destruct (t_phase t) eqn:Ep.
  - destruct (0 <? sem_value st)%Z eqn:Es; [|discriminate]. intros [= <-].
    destruct (set_nth_split_length _ _ _
                (mkTask (t_host t) (t_port t) AwaitCheck) En)
      as [l1 [l2 [E [Hl ->]]]].
    apply (resumed_admit w cfg st i t l1 l2 E Hl Ep). lia.
  - destruct (port_scanner.check_port (probe w i)) eqn:Ec; intros [= <-].
    + destruct (set_nth_split_length _ _ _
                  (mkTask (t_host t) (t_port t) AwaitBanner) En)
        as [l1 [l2 [E [Hl ->]]]].
      apply (resumed_open w cfg st i t l1 l2 E Hl Ep Ec).
    + unfold finish.
      destruct (set_nth_split_length _ _ _
                  (mkTask (t_host t) (t_port t)
                     (Returned (closed_result w i (t_host t) (t_port t)))) En)
        as [l1 [l2 [E [Hl ->]]]].
      apply (resumed_closed w cfg st i t l1 l2 E Hl Ep Ec).
  - intros [= <-]. unfold finish.
    destruct (set_nth_split_length _ _ _
                (mkTask (t_host t) (t_port t)
                   (Returned (open_result w cfg i (t_host t) (t_port t)))) En)
      as [l1 [l2 [E [Hl ->]]]].
    apply (resumed_banner w cfg st i t l1 l2 E Hl Ep).
  - discriminate.
Qed.

Lemma nth_error_replaced {A} (l1 l2 : list A) (t x u : A) (j : nat) :
  nth_error (l1 ++ x :: l2) j = Some u ->
  (j = List.length l1 /\ u = x)
  \/ (j <> List.length l1 /\ nth_error (l1 ++ t :: l2) j = Some u).
Proof.
  intros H. destruct (Nat.lt_trichotomy j (List.length l1)) as [Hlt|[->|Hgt]].
  - right. split; [lia|]. rewrite nth_error_app1 in H |- * by exact Hlt.
    exact H.
  - left. split; [reflexivity|].
    rewrite nth_error_app2, Nat.sub_diag in H by lia. simpl in H. congruence.
  - right. split; [lia|]. rewrite nth_error_app2 in H |- * by lia.
    destruct (j - List.length l1)%nat as [|k] eqn:E; [lia|]. exact H.
Qed.

Lemma nth_error_middle {A} (l1 l2 : list A) (t : A) :
  nth_error (l1 ++ t :: l2) (List.length l1) = Some t.
Proof. rewrite nth_error_app2, Nat.sub_diag by lia. reflexivity. Qed.

(** *** The invariant *)

Section Invariant.

Variable w : world.
Variable cfg : ScannerConfig.
Variable pairs : list (string * Z).

Lemma resumed_inv (st st' : state) (i : nat) :
  scan_inv w cfg pairs st -> resumed w cfg st i st' ->
  scan_inv w cfg pairs st'.
Proof.
  intros [Hsem [Hpos [Hperm [Hpairs Hok]]]] Hr.
  unfold scan_inv, active in *.
  destruct Hr as [t l1 l2 E Hl Hp Hs | t l1 l2 E Hl Hp Hc
                 | t l1 l2 E Hl Hp Hc | t l1 l2 E Hl Hp];
    rewrite E in *; cbn [sem_value tasks results];
    rewrite active_app in *; rewrite returned_results_app in *;
    unfold is_active in *; rewrite Hp in *; cbn [t_phase] in *;
    (pose proof (Hok _ _ (nth_error_middle l1 l2 t)) as Hti);
    rewrite Hl in Hti; unfold phase_ok in Hti; rewrite Hp in Hti.
  - repeat split; try lia; auto.
    + rewrite <- Hpairs. apply task_pair_app. reflexivity.
    + intros j u Hu.
      destruct (nth_error_replaced l1 l2 t _ u j Hu) as [[-> ->]|[_ Hu']];
        [exact I | apply (Hok _ _ Hu')].
  - repeat split; try lia; auto.
    + rewrite <- Hpairs. apply task_pair_app. reflexivity.
    + intros j u Hu.
      destruct (nth_error_replaced l1 l2 t _ u j Hu) as [[-> ->]|[_ Hu']];
        [|apply (Hok _ _ Hu')].
      unfold phase_ok. cbn [t_phase]. rewrite Hl. exact Hc.
  - repeat split; try lia.
    + eapply Permutation_trans; [apply Permutation_sym, Permutation_cons_append|].
      apply Permutation_cons_app. exact Hperm.
    + rewrite <- Hpairs. apply task_pair_app. reflexivity.
    + intros j u Hu.
      destruct (nth_error_replaced l1 l2 t _ u j Hu) as [[-> ->]|[_ Hu']];
        [|apply (Hok _ _ Hu')].
      unfold phase_ok, _scan_host_port. cbn [t_phase t_host t_port].
      rewrite Hl, Hc. reflexivity.
  - repeat split; try lia.
    + eapply Permutation_trans; [apply Permutation_sym, Permutation_cons_append|].
      apply Permutation_cons_app. exact Hperm.
    + rewrite <- Hpairs. apply task_pair_app. reflexivity.
    + intros j u Hu.
      destruct (nth_error_replaced l1 l2 t _ u j Hu) as [[-> ->]|[_ Hu']];
        [|apply (Hok _ _ Hu')].
      unfold phase_ok, _scan_host_port. cbn [t_phase t_host t_port].
      rewrite Hl, Hti. reflexivity.
Qed.


Lemma run_inv (schedule : list nat) : forall st st',
  scan_inv w cfg pairs st -> run w cfg st schedule = Some st' ->
  scan_inv w cfg pairs st'.
Proof.
  induction schedule as [|i rest IH]; intros st st' Hinv; simpl.
  - intros [= <-]. exact Hinv.
  - destruct (resume w cfg st i) as [st1|] eqn:E; [|discriminate].
    apply IH. eapply resumed_inv; [exact Hinv | apply resume_resumed, E].
Qed.

(** *** Progress *)





(** *** When every task has returned *)




End Invariant.


(** *** The start of a scan *)

Lemma create_tasks_pairs (hosts_ : list string) (ports : list Z) :
  map task_pair (create_tasks hosts_ ports) = list_prod hosts_ ports.
Proof.
  unfold create_tasks. induction hosts_ as [|h hs IH]; simpl; [reflexivity|].
  rewrite map_app, IH, map_map. reflexivity.
Qed.

Lemma create_tasks_waiting (hosts_ : list string) (ports : list Z) :
  Forall (fun t => t_phase t = AwaitSem) (create_tasks hosts_ ports).
Proof.
  apply Forall_forall. intros t Ht. unfold create_tasks in Ht.
  apply in_flat_map in Ht as [h [_ Ht]].
  apply in_map_iff in Ht as [p [<- _]]. reflexivity.
Qed.

Lemma initial_inv (w : world) (cfg : ScannerConfig) (hosts_ : list string)
    (ports : list Z) :
  (0 <= concurrency cfg)%Z ->
  scan_inv w cfg (list_prod hosts_ ports)
    (mkState (concurrency cfg) (create_tasks hosts_ ports) []).
Proof.
  intros Hc. pose proof (create_tasks_waiting hosts_ ports) as Hw.
  unfold scan_inv, active. cbn [sem_value tasks results].
  assert (Ha : forall ts, Forall (fun t => t_phase t = AwaitSem) ts ->
                          filter is_active ts = []).
  { induction 1 as [|t ts Ht _ IH]; simpl; [reflexivity|].
    unfold is_active at 1. rewrite Ht. exact IH. }
  assert (Hr : forall ts, Forall (fun t => t_phase t = AwaitSem) ts ->
                          returned_results ts = []).
  { unfold returned_results.
    induction 1 as [|t ts Ht _ IH]; simpl; [reflexivity|].
    rewrite Ht. exact IH. }
  specialize (Ha _ Hw). specialize (Hr _ Hw).
  rewrite Ha, Hr. simpl. repeat split; try lia.
  - constructor.
  - apply create_tasks_pairs.
  - intros i t Hn. rewrite Forall_forall in Hw.
    unfold phase_ok. rewrite (Hw t (nth_error_In _ _ Hn)). exact I.
Qed.


Lemma scan_value_bare (w : world) (cfg : ScannerConfig) (i : nat)
    (host : string) (port_ : Z) :
  closed_is_bare (_scan_host_port w cfg i host port_).
Proof.
  unfold closed_is_bare, _scan_host_port, open_result, closed_result.
  destruct (port_scanner.check_port (probe w i)); [|simpl; auto].
  destruct (is_http_port port_); simpl; discriminate.
Qed.


Lemma all_results_bare (w : world) (cfg : ScannerConfig)
    (pairs : list (string * Z)) : forall i r,
  In r (all_results w cfg i pairs) -> closed_is_bare r.
Proof.
  induction pairs as [|[h p] rest IH]; intros i r; simpl; [tauto|].
  intros [<-|H]; [apply scan_value_bare | apply (IH _ _ H)].
Qed.


Lemma in_returned_results (ts : list task) (r : ScanResult) :
  In r (returned_results ts) ->
  exists i t, nth_error ts i = Some t /\ t_phase t = Returned r.
Proof.
  unfold returned_results. intros H. apply in_flat_map in H as [t [Ht Hr]].
  destruct (In_nth_error _ _ Ht) as [i Hi]. exists i, t. split; [exact Hi|].
  destruct (t_phase t); simpl in Hr; try tauto.
  destruct Hr as [->|[]]. reflexivity.
Qed.

Section Claims.

Variable IPv6_ip_int_from_string : string -> result N.
Variable IPv6_string_from_ip_int : N -> string.

Local Notation "'expand_cidr_'" :=
  (ip_range.expand_cidr IPv6_ip_int_from_string IPv6_string_from_ip_int).
Local Notation "'run_scan_start_'" :=
  (run_scan_start IPv6_ip_int_from_string IPv6_string_from_ip_int).

Lemma run_scan_start_inv (cidr : string) (ports : list Z)
    (cfg : ScannerConfig) (st0 : state) :
  run_scan_start_ cidr ports cfg = Return st0 ->
  exists hosts_,
    expand_cidr_ cidr (Some (max_hosts cfg)) = Return hosts_
    /\ (0 <= concurrency cfg)%Z
    /\ st0 = mkState (concurrency cfg) (create_tasks hosts_ ports) [].
Proof.
  unfold run_scan_start, Semaphore.
  destruct (expand_cidr_ cidr (Some (max_hosts cfg))) as [hs|e];
    [|discriminate].
  simpl. destruct (concurrency cfg <? 0)%Z eqn:E; [discriminate|].
  simpl. intros [= <-]. apply Z.ltb_ge in E. eauto.
Qed.

(** C2.  In every state a scan can reach, whatever the order in which
    the event loop resumes the tasks, the number of tasks past the
    semaphore and not yet finished is at most [config.concurrency]:
    it is the number of permits taken from the semaphore. *)
Theorem active_tasks_never_exceed_concurrency (w : world) (cidr : string)
    (ports : list Z) (cfg : ScannerConfig) (st0 st : state)
    (schedule : list nat) :
  run_scan_start_ cidr ports cfg = Return st0 ->
  run w cfg st0 schedule = Some st ->
  (Z.of_nat (active st) <= concurrency cfg)%Z
  /\ (Z.of_nat (active st) = concurrency cfg - sem_value st)%Z.
Proof.
  intros Hs Hr.
  destruct (run_scan_start_inv _ _ _ _ Hs) as [hs [_ [Hc ->]]].
  pose proof (run_inv w cfg _ schedule _ _ (initial_inv w cfg hs ports Hc) Hr)
    as [Hsem [Hpos _]].
  lia.
Qed.

(** C3.  A result of [_scan_host_port] with [is_open] false has no
    banner and no service, and so has every result a scan has
    collected, in every state it can reach; a result that carries a
    banner or a service has [is_open] true. *)
Theorem closed_results_have_no_banner (w : world) (cidr : string)
    (ports : list Z) (cfg : ScannerConfig) :
  (forall i host port_, closed_is_bare (_scan_host_port w cfg i host port_))
  /\ forall st0 st schedule r,
       run_scan_start_ cidr ports cfg = Return st0 ->
       run w cfg st0 schedule = Some st ->
       In r (results st) ->
       (is_open r = false -> banner r = None /\ service r = None)
       /\ (banner r <> None \/ service r <> None -> is_open r = true).
Proof.
  split; [intros; apply scan_value_bare|].
  intros st0 st schedule r Hs Hr Hin.
  destruct (run_scan_start_inv _ _ _ _ Hs) as [hs [_ [Hc ->]]].
  pose proof (run_inv w cfg _ schedule _ _ (initial_inv w cfg hs ports Hc) Hr)
    as [_ [_ [Hperm [_ Hok]]]].
  apply (Permutation_in _ Hperm) in Hin.
  destruct (in_returned_results _ _ Hin) as [i [t [Hn Hp]]].
  specialize (Hok i t Hn). unfold phase_ok in Hok. rewrite Hp in Hok.
  assert (Hbare : closed_is_bare r) by (subst r; apply scan_value_bare).
  split; [exact Hbare|].
  intros Hpop. destruct (is_open r) eqn:Eo; [reflexivity|].
  destruct (Hbare Eo) as [Hb Hsv]. tauto.
Qed.

Hypothesis IPv6_ip_int_bound : forall s x,
  IPv6_ip_int_from_string s = Return x -> (x < 2 ^ 128)%N.
Hypothesis IPv6_string_inj : forall x y,
  (x < 2 ^ 128)%N -> (y < 2 ^ 128)%N ->
  IPv6_string_from_ip_int x = IPv6_string_from_ip_int y -> x = y.


End Claims.

(** Closed instances on 192.168.0.0/30 (two hosts) and two ports. *)

Lemma active_tasks_never_exceed_concurrency_witness :
  let cfg := mkScannerConfig 2000 512 1 2048 in
  exists st0 st,
    run_scan_start no_ip6_reader decimal_ip6_printer "192.168.0.0/30"
      [22; 80]%Z cfg = Return st0
    /\ run silent_world cfg st0 [0; 0; 1]%nat = Some st
    /\ (Z.of_nat (active st) <= 1)%Z.
Proof.
  intros cfg. eexists. eexists.
  split; [reflexivity|]. split; [reflexivity|].
  destruct (active_tasks_never_exceed_concurrency
              no_ip6_reader decimal_ip6_printer silent_world
              "192.168.0.0/30" [22; 80]%Z cfg _ _ [0; 0; 1]%nat
              eq_refl eq_refl) as [H _].
  exact H.
Defined.

Lemma closed_results_have_no_banner_witness :
  let cfg := mkScannerConfig 2000 512 1 2048 in
  exists st0 st r,
    run_scan_start no_ip6_reader decimal_ip6_printer "192.168.0.0/30"
      [22; 80]%Z cfg = Return st0
    /\ run silent_world cfg st0 [0; 0]%nat = Some st
    /\ In r (results st)
    /\ is_open r = false /\ banner r = None /\ service r = None.
Proof.
  intros cfg. eexists. eexists. eexists.
  split; [reflexivity|]. split; [reflexivity|].
  split; [left; reflexivity|]. split; [reflexivity|].
  destruct (closed_results_have_no_banner
              no_ip6_reader decimal_ip6_printer silent_world
              "192.168.0.0/30" [22; 80]%Z cfg) as [_ H].
  apply (H _ _ [0; 0]%nat _ eq_refl eq_refl (or_introl eq_refl)).
  reflexivity.
Defined.



End scannerFacts.

(* ================================================================= *)
(** ** Worked examples *)

Module examples.
Import Py props.

Example parse_ports_spaces :
  cli.parse_ports " 20 - 22 , 80 ,," = Return [20; 21; 22; 80]%Z.
Proof. reflexivity. Qed.

Example parse_ports_empty_range :
  cli.parse_ports "25-20,7" = Return [7]%Z.
Proof. reflexivity. Qed.

Example parse_ports_negative :
  raises (cli.parse_ports "-5") = true.
Proof. reflexivity. Qed.

Example expand_zero_cap :
  ip_range.expand_cidr no_ip6_reader decimal_ip6_printer
    "192.168.0.0/24" (Some 0%Z) = Return [].
Proof. reflexivity. Qed.

Example expand_slash32 :
  ip_range.expand_cidr no_ip6_reader decimal_ip6_printer "10.0.0.7/32" None
  = Return ["10.0.0.7"].
Proof. reflexivity. Qed.

Example expand_dotted_netmask :
  ip_range.expand_cidr no_ip6_reader decimal_ip6_printer
    "10.0.0.7/255.255.255.252" None
  = Return ["10.0.0.5"; "10.0.0.6"].
Proof. reflexivity. Qed.

Example expand_leading_zero :
  raises (ip_range.expand_cidr no_ip6_reader decimal_ip6_printer
            "10.0.0.07/24" None) = true.
Proof. reflexivity. Qed.

Example decode_skips_malformed :
  banner_grabber.after_read
    [Byte.xe2; Byte.x82; Byte.xac; Byte.x41; Byte.xc3; Byte.x28;
     Byte.xe2; Byte.x82]
  = Some [8364; 65; 40]%N.
Proof. reflexivity. Qed.

Example isoformat_microseconds :
  models.isoformat (models.mkDatetime 2024 3 7 9 5 0 1234)
  = "2024-03-07T09:05:00.001234".
Proof. reflexivity. Qed.

Example init_db_idempotent (db : storage.database) :
  storage.init_db (storage.init_db db) = storage.init_db db.
Proof. destruct db; reflexivity. Qed.

Example copy_with_overrides :
  config.copy_with config.default None (Some 16%Z) None None
  = config.mkScannerConfig 2000 16 200 2048.
Proof. reflexivity. Qed.

End examples.

(* ================================================================= *)
(** ** cli.py: more on parse_ports *)

Module parse_portsFacts.
Import Py props props_ports PyFacts cli cliFacts.

(** X1.  Whatever string [parse_ports] accepts, the list it returns
    is strictly ascending: sorted, and free of duplicates. *)
Theorem parse_ports_always_ascending (ports_str : string) (ports : list Z) :
  parse_ports ports_str = Return ports -> StronglySorted Z.lt ports.
Proof.
  unfold parse_ports.
  destruct (parse_parts _ []) as [l|e]; simpl; [|discriminate].
  intros [= <-]. apply sorted_set_spec.
Qed.

Lemma parse_ports_always_ascending_witness :
  StronglySorted Z.lt [22; 80; 443]%Z.
Proof.
  apply (parse_ports_always_ascending "443, 80,22,80" [22; 80; 443]%Z).
  reflexivity.
Defined.

(** Two strictly ascending lists with the same elements are equal. *)
Lemma ascending_unique (l : list Z) : forall l',
  StronglySorted Z.lt l -> StronglySorted Z.lt l' ->
  (forall p, In p l <-> In p l') -> l = l'.
Proof.
  induction l as [|x l IH]; intros l' Hl Hl' Hin.
  - destruct l' as [|y l']; [reflexivity|].
    destruct (proj2 (Hin y) (or_introl eq_refl)).
  - destruct l' as [|y l'].
    { destruct (proj1 (Hin x) (or_introl eq_refl)). }
    inversion Hl as [|? ? Hsl Hx]; subst.
    inversion Hl' as [|? ? Hsl' Hy]; subst.
    rewrite Forall_forall in Hx, Hy.
    assert (x = y).
    { destruct (proj1 (Hin x) (or_introl eq_refl)) as [E|Hxl']; [auto|].
      destruct (proj2 (Hin y) (or_introl eq_refl)) as [E|Hyl]; [auto|].
      specialize (Hx y Hyl). specialize (Hy x Hxl'). lia. }
    subst y. f_equal. apply IH; [assumption | assumption|].
    intros p. split; intros Hp.
    + destruct (proj1 (Hin p) (or_intror Hp)) as [E|H]; [|exact H].
      specialize (Hx p Hp). lia.
    + destruct (proj2 (Hin p) (or_intror Hp)) as [E|H]; [|exact H].
      specialize (Hy p Hp). lia.
Qed.

(** X2.  The result of [parse_ports] depends only on the set of ports
    the items denote: two port lists whose integers have at most 4300
    digits each and whose items denote the same ports, in whatever
    order and with whatever repetition or overlap, give the same
    list. *)
Theorem parse_ports_depends_on_port_set (items items' : list port_item) :
  Forall within_int_limit items -> Forall within_int_limit items' ->
  (forall p, (exists it, In it items /\ denotes it p)
             <-> (exists it, In it items' /\ denotes it p)) ->
  parse_ports (render items) = parse_ports (render items').
Proof.
  intros Hlim Hlim' Hsame. rewrite !parse_ports_render by assumption. f_equal.
  destruct (sorted_set_spec (flat_map ports_of items)) as [Hs Hi].
  destruct (sorted_set_spec (flat_map ports_of items')) as [Hs' Hi'].
  apply ascending_unique; [exact Hs | exact Hs'|].
  intros p. rewrite Hi, Hi', !in_flat_map.
  assert (E : forall l, (exists it, In it l /\ In p (ports_of it))
                        <-> (exists it, In it l /\ denotes it p)).
  { intros l. split; intros [it [H1 H2]]; exists it; split; auto;
      apply in_ports_of; exact H2. }
  rewrite !E. apply Hsame.
Qed.

Lemma parse_ports_depends_on_port_set_witness :
  parse_ports "80,22,80" = parse_ports "22-22,80".
Proof.
  apply (parse_ports_depends_on_port_set
           [Single 80; Single 22; Single 80] [Span 22 22; Single 80]).
  - repeat apply Forall_cons; try apply Forall_nil;
      apply small_within_limit; reflexivity.
  - apply Forall_cons; [|apply Forall_cons; [|apply Forall_nil]].
    + split; apply small_within_limit; reflexivity.
    + apply small_within_limit; reflexivity.
  - intros p. split; intros [it [Hin Hd]]; simpl in Hin.
    + destruct Hin as [<-|[<-|[<-|[]]]]; simpl in Hd; subst p.
      * exists (Single 80). simpl. auto.
      * exists (Span 22 22). simpl. split; [auto | lia].
      * exists (Single 80). simpl. auto.
    + destruct Hin as [<-|[<-|[]]]; simpl in Hd.
      * exists (Single 22). simpl. split; [auto | lia].
      * exists (Single 80). simpl. auto.
Defined.

Lemma int_is_int_by_cases (s : string) : int s = int_by_cases s.
Proof.
  unfold int, int_by_cases. destruct (int_strip s) as [|c d]; [reflexivity|].
  destruct c as [[] [] [] [] [] [] [] []]; reflexivity.
Qed.

Lemma int_isspace_isspace (c : ascii) :
  int_isspace c = true -> isspace c = true.
Proof.
  destruct c as [[] [] [] [] [] [] [] []]; intros H;
    try discriminate H; reflexivity.
Qed.

Lemma int_space_port_char (c : ascii) :
  int_isspace c = true -> port_char c = true.
Proof.
  intros H. unfold port_char. rewrite (int_isspace_isspace c H).
  apply orb_true_r.
Qed.

Lemma int_lstrip_foreign (s : string) :
  chars_in port_char s = false -> chars_in port_char (int_lstrip s) = false.
Proof.
  induction s as [|c s IH]; intros H; [discriminate|].
  simpl. destruct (int_isspace c) eqn:Es; [|exact H].
  apply IH. simpl in H. rewrite (int_space_port_char c Es) in H. exact H.
Qed.

Lemma int_rstrip_foreign (s : string) :
  chars_in port_char s = false -> chars_in port_char (int_rstrip s) = false.
Proof.
  induction s as [|c s IH]; intros H; [discriminate|].
  simpl in H |- *. destruct (port_char c) eqn:Ec.
  - specialize (IH H). destruct (int_rstrip s) as [|c' r]; [discriminate|].
    simpl in IH |- *. rewrite Ec. exact IH.
  - assert (Es : int_isspace c = false).
    { destruct (int_isspace c) eqn:Es; [|reflexivity].
      rewrite (int_space_port_char c Es) in Ec. discriminate. }
    destruct (int_rstrip s); simpl; rewrite ?Es; simpl; rewrite Ec;
      reflexivity.
Qed.

Lemma int_strip_foreign (s : string) :
  chars_in port_char s = false -> chars_in port_char (int_strip s) = false.
Proof. intros H. apply int_rstrip_foreign, int_lstrip_foreign, H. Qed.

Lemma int_value_error_kind (sign : N -> Z) (d : string) (e : exn) :
  int_value sign d = Raise e -> exists msg, e = ValueError msg.
Proof.
  unfold int_value. destruct (int_digits d 0 false).
  - destruct (_ <? _)%N; [intros [= <-]; eauto | discriminate].
  - intros [= <-]. eauto.
Qed.

Lemma int_digits_foreign (d : string) : forall acc b,
  chars_in port_char d = false -> int_digits d acc b = None.
Proof.
  induction d as [|c d IH]; intros acc b H; [discriminate|].
  simpl in H |- *. destruct (isdigit c) eqn:Ed.
  - apply IH. unfold port_char in H. rewrite Ed in H. exact H.
  - destruct (Ascii.eqb c "_"%char) eqn:Eu; [|reflexivity].
    destruct b; [|reflexivity]. apply IH.
    unfold port_char in H. rewrite Eu, !orb_true_r in H. exact H.
Qed.

Lemma lstrip_foreign (s : string) :
  chars_in port_char s = false -> chars_in port_char (lstrip s) = false.
Proof.
  induction s as [|c s IH]; intros H; [discriminate|].
  simpl. destruct (isspace c) eqn:Es; [|exact H].
  apply IH. simpl in H. unfold port_char in H at 1.
  rewrite Es, !orb_true_r in H. exact H.
Qed.

Lemma rstrip_foreign (s : string) :
  chars_in port_char s = false -> chars_in port_char (rstrip s) = false.
Proof.
  induction s as [|c s IH]; intros H; [discriminate|].
  simpl in H |- *. destruct (port_char c) eqn:Ec.
  - specialize (IH H). destruct (rstrip s) as [|c' r]; [discriminate|].
    simpl in IH |- *. rewrite Ec. exact IH.
  - assert (Es : isspace c = false).
    { unfold port_char in Ec. destruct (isspace c); [|reflexivity].
      rewrite !orb_true_r in Ec. discriminate. }
    destruct (rstrip s); simpl; rewrite ?Es; simpl; rewrite Ec; reflexivity.
Qed.

Lemma strip_foreign (s : string) :
  chars_in port_char s = false -> chars_in port_char (strip s) = false.
Proof. intros H. apply rstrip_foreign, lstrip_foreign, H. Qed.

Lemma int_value_foreign (sign : N -> Z) (d : string) :
  chars_in port_char d = false ->
  exists msg, int_value sign d = Raise (ValueError msg).
Proof.
  intros H. unfold int_value. rewrite int_digits_foreign by exact H. eauto.
Qed.

(** A literal with a foreign character is no integer. *)
Lemma int_foreign (s : string) :
  chars_in port_char s = false -> exists msg, int s = Raise (ValueError msg).
Proof.
  intros H. apply int_strip_foreign in H.
  rewrite int_is_int_by_cases. unfold int_by_cases.
  destruct (int_strip s) as [|c d]; [discriminate|].
  destruct (Ascii.eqb_spec c "-"%char) as [->|_].
  { apply int_value_foreign. exact H. }
  destruct (Ascii.eqb_spec c "+"%char) as [->|_].
  { apply int_value_foreign. exact H. }
  apply int_value_foreign, H.
Qed.

Lemma int_error_kind (s : string) (e : exn) :
  int s = Raise e -> exists msg, e = ValueError msg.
Proof.
  rewrite int_is_int_by_cases. unfold int_by_cases.
  destruct (int_strip s) as [|c d]; [apply int_value_error_kind|].
  destruct (Ascii.eqb c "-"%char); [apply int_value_error_kind|].
  destruct (Ascii.eqb c "+"%char); apply int_value_error_kind.
Qed.

Lemma split1_cut (sep : ascii) (s : string) :
  contains sep s = true ->
  exists a b, split1 sep s = [a; b] /\ s = (a ++ String sep b)%string.
Proof.
  induction s as [|c s IH]; simpl; [discriminate|].
  destruct (Ascii.eqb_spec c sep) as [->|Hne].
  - intros _. exists EmptyString, s. auto.
  - simpl. intros H. destruct (IH H) as [a [b [E ->]]].
    rewrite E. exists (String c a), b. auto.
Qed.

Lemma parse_part_error_kind (part : string) (e : exn) :
  parse_part part = Raise e -> exists msg, e = ValueError msg.
Proof.
  unfold parse_part. destruct (contains "-"%char part).
  - destruct (split1 "-"%char part) as [|a [|b [|? ?]]];
      try (intros [= <-]; eauto).
    destruct (int a) as [x|ea] eqn:Ea; simpl.
    + destruct (int b) as [y|eb] eqn:Eb; simpl; [discriminate|].
      intros [= <-]. apply (int_error_kind _ _ Eb).
    + intros [= <-]. apply (int_error_kind _ _ Ea).
  - destruct (int part) as [x|ea] eqn:Ea; simpl; [discriminate|].
    intros [= <-]. apply (int_error_kind _ _ Ea).
Qed.

Lemma parse_part_foreign (part : string) :
  chars_in port_char part = false ->
  exists msg, parse_part part = Raise (ValueError msg).
Proof.
  intros H. unfold parse_part.
  destruct (contains "-"%char part) eqn:Ec.
  - destruct (split1_cut _ _ Ec) as [a [b [Es Ep]]]. rewrite Es.
    rewrite Ep, chars_in_app in H. simpl in H.
    destruct (chars_in port_char a) eqn:Ea.
    + simpl in H. destruct (int a) as [x|ea] eqn:Eia; simpl.
      * destruct (int_foreign b H) as [msg ->]. simpl. eauto.
      * destruct (int_error_kind _ _ Eia) as [msg ->]. eauto.
    + destruct (int_foreign a Ea) as [msg ->]. simpl. eauto.
  - destruct (int_foreign part H) as [msg ->]. simpl. eauto.
Qed.

Lemma parse_parts_foreign (parts : list string) : forall acc,
  Exists (fun p => chars_in port_char p = false) parts ->
  exists msg, parse_parts parts acc = Raise (ValueError msg).
Proof.
  induction parts as [|p ps IH]; intros acc H; [inversion H|].
  simpl. destruct (parse_part p) as [l|e] eqn:Ep; simpl.
  - apply IH. inversion H as [? ? Hp|? ? Hps]; subst; [|exact Hps].
    destruct (parse_part_foreign p Hp) as [msg E]. congruence.
  - destruct (parse_part_error_kind _ _ Ep) as [msg ->]. eauto.
Qed.

Lemma split_foreign (s : string) :
  chars_in port_char s = false ->
  Exists (fun p => chars_in port_char p = false) (split ","%char s).
Proof.
  induction s as [|c s IH]; intros H; [discriminate|].
  simpl in H |- *. destruct (Ascii.eqb_spec c ","%char) as [->|Hne].
  - apply Exists_cons_tl, IH. exact H.
  - destruct (split ","%char s) as [|p ps] eqn:Es.
    { destruct (split_nonempty _ _ Es). }
    destruct (port_char c) eqn:Ec.
    + specialize (IH H). inversion IH as [? ? Hp|? ? Hps]; subst.
      * apply Exists_cons_hd. simpl. rewrite Ec. exact Hp.
      * apply Exists_cons_tl. exact Hps.
    + apply Exists_cons_hd. simpl. rewrite Ec. reflexivity.
Qed.

(** X3.  A port list holding any character other than digits, commas,
    hyphens, plus signs, underscores and whitespace is rejected with
    [ValueError]: nothing is skipped silently. *)
Theorem parse_ports_rejects_foreign_characters (ports_str : string) :
  chars_in port_char ports_str = false ->
  exists msg, parse_ports ports_str = Raise (ValueError msg).
Proof.
  intros H. unfold parse_ports.
  destruct (parse_parts_foreign
              (map strip (filter (fun p => truthy (strip p))
                            (split ","%char ports_str))) []) as [msg ->];
    [|simpl; eauto].
  pose proof (split_foreign _ H) as Hex.
  induction Hex as [p ps Hp|p ps Hps IH]; simpl.
  - pose proof (strip_foreign p Hp) as Hs.
    destruct (strip p) as [|c r] eqn:E; [discriminate|]. simpl.
    apply Exists_cons_hd. rewrite E. exact Hs.
  - destruct (truthy (strip p)); simpl; [apply Exists_cons_tl|]; exact IH.
Qed.

Lemma parse_ports_rejects_foreign_characters_witness :
  exists msg, parse_ports "22,http,443" = Raise (ValueError msg).
Proof.
  apply (parse_ports_rejects_foreign_characters "22,http,443").
  reflexivity.
Defined.

End parse_portsFacts.

(* ================================================================= *)
(** ** ip_range.py: more on expand_cidr *)

Module expand_cidrFacts.
Import Py props PyFacts ipaddress ipaddressFacts networkFacts ip_networkFacts.
Import ip_range ip_rangeFacts.

Section AnyIPv6Text.

Variable IPv6_ip_int_from_string : string -> result N.
Variable IPv6_string_from_ip_int : N -> string.

Local Notation "'str_'" := (str_address IPv6_string_from_ip_int).
Local Notation "'expand_cidr_'" :=
  (expand_cidr IPv6_ip_int_from_string IPv6_string_from_ip_int).
Local Notation "'ip_network_'" := (ip_network IPv6_ip_int_from_string).

Lemma expand_cidr_network (cidr : string) (max_hosts : option Z)
    (hosts_ : list string) :
  expand_cidr_ cidr max_hosts = Return hosts_ ->
  exists net, ip_network_ cidr false = Return net.
Proof.
  unfold expand_cidr. destruct (ip_network_ cidr false) as [net|e];
    [eauto | discriminate].
Qed.

(** X4.  The cap only cuts the list short: with [max_hosts = k] the
    result is the first [k] addresses of what the call returns without
    a cap (nothing for [k <= 0], everything once [k] reaches the number
    of hosts). *)
Theorem expand_cidr_cap_is_prefix (cidr : string) (k : Z)
    (all_hosts : list string) :
  expand_cidr IPv6_ip_int_from_string IPv6_string_from_ip_int cidr None
  = Return all_hosts ->
  expand_cidr IPv6_ip_int_from_string IPv6_string_from_ip_int cidr (Some k)
  = Return (firstn (Z.to_nat k) all_hosts).
Proof.
  intros H. destruct (expand_cidr_network _ _ _ H) as [net Hn].
  rewrite (expand_cidr_spec _ _ _ None _ Hn) in H. injection H as <-.
  rewrite (expand_cidr_spec _ _ _ (Some k) _ Hn), firstn_map. reflexivity.
Qed.

Lemma IPv6Network_version (s : string) (strict : bool) (n : Network) :
  IPv6Network IPv6_ip_int_from_string s strict = Return n ->
  net_version n = IPv6.
Proof.
  unfold IPv6Network.
  destruct (_split_addr_prefix IPv6 s) as [[a m]|e]; [|discriminate]. simpl.
  destruct (IPv6Address IPv6_ip_int_from_string a) as [addr|e];
    [|discriminate].
  simpl. destruct (_make_netmask IPv6 m) as [p|e]; [|discriminate]. simpl.
  unfold _init_network. destruct (negb _); [destruct strict|];
    try discriminate; intros [= <-]; reflexivity.
Qed.

Lemma ip_network_IPv4 (s : string) (strict : bool) (n : Network) :
  ip_network_ s strict = Return n -> net_version n = IPv4 ->
  wf_network n.
Proof.
  unfold ip_network. intros H Hv.
  destruct (IPv4Network s strict) as [n4|e4] eqn:E4.
  - injection H as <-. apply (IPv4Network_wf _ _ _ E4).
  - destruct (IPv6Network IPv6_ip_int_from_string s strict) as [n6|e6] eqn:E6.
    + assert (n6 = n) by (destruct e4; congruence). subst n6.
      rewrite (IPv6Network_version _ _ _ E6) in Hv. discriminate.
    + destruct e4; try discriminate; destruct e6; discriminate.
Qed.

(** X5.  Without a cap, an IPv4 range yields its hosts in ascending
    order: for a prefix of at most 30 bits the [2^(32-p) - 2] addresses
    after the network address, for /31 both addresses and for /32 the
    one address of the block. *)
Theorem expand_cidr_IPv4_hosts_in_order (cidr : string) (net : Network) :
  ip_network_ cidr false = Return net ->
  net_version net = IPv4 ->
  let network := _ip (network_address net) in
  let size := (2 ^ (32 - prefixlen net))%N in
  expand_cidr_ cidr None
  = Return (map IPv4_string_from_ip_int
              (if (prefixlen net <=? 30)%N
               then N_seq (network + 1) (N.to_nat (size - 2))
               else N_seq network (N.to_nat size))).
Proof.
  intros Hn Hv network size.
  pose proof (ip_network_IPv4 _ _ _ Hn Hv) as Hwf.
  rewrite (expand_cidr_spec _ _ _ None _ Hn). f_equal.
  pose proof (broadcast_last net Hwf) as Hb. cbv zeta in Hb.
  destruct Hwf as [Hp [_ [_ Hav]]].
  rewrite Hv in Hb, Hp, Hav. simpl _max_prefixlen in Hb, Hp.
  fold network size in Hb.
  assert (Hstr : forall l,
             map str_ (map (fun x => mkAddress IPv4 x None) l)
             = map IPv4_string_from_ip_int l).
  { intros l. rewrite map_map. apply map_ext. reflexivity. }
  unfold hosts. rewrite Hv. simpl _max_prefixlen.
  destruct (N.eqb_spec (prefixlen net) (32 - 1)) as [E1|E1].
  { destruct (N.leb_spec (prefixlen net) 30); [lia|].
    simpl iter_all. rewrite Hstr. fold network. do 2 f_equal. lia. }
  destruct (N.eqb_spec (prefixlen net) 32) as [E2|E2].
  { destruct (N.leb_spec (prefixlen net) 30); [lia|].
    unfold size. rewrite E2. simpl.
    unfold str_address. rewrite Hav. fold network.
    rewrite N.add_0_r. reflexivity. }
  destruct (N.leb_spec (prefixlen net) 30); [|lia].
  simpl iter_all. rewrite Hstr. fold network. do 2 f_equal. lia.
Qed.

End AnyIPv6Text.

Lemma expand_cidr_cap_is_prefix_witness :
  expand_cidr no_ip6_reader decimal_ip6_printer "192.168.0.0/29" (Some 2%Z)
  = Return ["192.168.0.1"; "192.168.0.2"].
Proof.
  apply (expand_cidr_cap_is_prefix no_ip6_reader decimal_ip6_printer
           "192.168.0.0/29" 2
           ["192.168.0.1"; "192.168.0.2"; "192.168.0.3"; "192.168.0.4";
            "192.168.0.5"; "192.168.0.6"]).
  reflexivity.
Defined.

Lemma expand_cidr_IPv4_hosts_in_order_witness :
  expand_cidr no_ip6_reader decimal_ip6_printer "192.168.0.77/30" None
  = Return (map IPv4_string_from_ip_int [3232235597; 3232235598]%N).
Proof.
  apply (expand_cidr_IPv4_hosts_in_order no_ip6_reader decimal_ip6_printer
           "192.168.0.77/30"
           (mkNetwork IPv4 (mkAddress IPv4 3232235596 None) 30)
           eq_refl eq_refl).
Defined.

End expand_cidrFacts.

(* ================================================================= *)
(** ** banner_grabber.py: more on the banner read *)

Module bannerFacts.
Import Py codecs banner_grabber banner_grabberFacts.

Lemma utf8_loop_length (fuel : nat) : forall e pos s out t,
  utf8_loop fuel e pos s out = Return t ->
  (List.length t <= List.length out + List.length s)%nat.
Proof.
  induction fuel as [|fuel IH]; intros e pos s out t.
  - destruct s; simpl; intros [= <-]; lia.
  - destruct s as [|ch rest]; simpl; [intros [= <-]; lia|].
    destruct (utf8_decode_one ch rest) as [cp used|covers].
    + intros H. apply IH in H. rewrite length_app, length_skipn in H.
      simpl in H. lia.
    + destruct e; [discriminate|].
      intros H. apply IH in H. rewrite length_skipn in H. lia.
Qed.

Lemma after_read_length (data : list Byte.byte) (t : text) :
  after_read data = Some t -> (List.length t <= List.length data)%nat.
Proof.
  unfold after_read. destruct data as [|b data]; [discriminate|].
  rewrite decode_banner_is_utf8_ignore.
  destruct (decode (b :: data) utf_8 ignore) as [t'|e] eqn:E; [|discriminate].
  intros [= <-]. unfold decode in E. apply utf8_loop_length in E.
  rewrite length_map in E. exact E.
Qed.

Lemma read_length (n : Z) (data : list Byte.byte) :
  (0 <= n)%Z -> (Z.of_nat (List.length (net.read n data)) <= n)%Z.
Proof.
  intros Hn. unfold net.read. destruct (Z.ltb_spec n 0); [lia|].
  pose proof (firstn_le_length (Z.to_nat n) data). lia.
Qed.

(** X6.  A banner never has more characters than [max_bytes]: at
    most that many bytes are read, and decoding yields at most one
    character per byte. *)
Theorem banner_fits_byte_cap (c : net.connection) (max_bytes : Z) (t : text) :
  (0 <= max_bytes)%Z ->
  grab_raw_banner c max_bytes = Some t \/ grab_http_banner c max_bytes = Some t ->
  (Z.of_nat (List.length t) <= max_bytes)%Z.
Proof.
  intros Hn H.
  assert (Hr : exists sent, after_read (net.read max_bytes sent) = Some t).
  { unfold grab_raw_banner, grab_http_banner in H.
    destruct (negb (net.connects c)); [destruct H; discriminate|].
    destruct (net.arrives c) as [sent|].
    - exists sent. destruct (negb (net.write_ok c));
        destruct H as [H|H]; try discriminate; exact H.
    - destruct (negb (net.write_ok c)); destruct H; discriminate. }
  destruct Hr as [sent Hr]. apply after_read_length in Hr.
  pose proof (read_length max_bytes sent Hn). lia.
Qed.

Lemma banner_fits_byte_cap_witness :
  let c := net.mkConnection true true
             (Some [Byte.x53; Byte.x53; Byte.x48; Byte.x2d; Byte.x32]) true in
  grab_raw_banner c 3 = Some [83; 83; 72]%N
  /\ (Z.of_nat (List.length [83; 83; 72]%N) <= 3)%Z.
Proof.
  intros c. split; [reflexivity|].
  apply (banner_fits_byte_cap c 3 [83; 83; 72]%N); [lia|].
  left. reflexivity.
Defined.

Lemma utf8_loop_ascii (s : list N) : forall fuel e pos out,
  Forall (fun b => (b < 128)%N) s -> (List.length s <= fuel)%nat ->
  utf8_loop fuel e pos s out = Return (out ++ s).
Proof.
  induction s as [|ch rest IH]; intros fuel e pos out Ha Hf.
  - destruct fuel; simpl; rewrite app_nil_r; reflexivity.
  - inversion Ha as [|? ? Hch Hrest]; subst.
    destruct fuel as [|fuel]; [simpl in Hf; lia|].
    simpl. unfold utf8_decode_one.
    destruct (N.ltb_spec ch 128); [|lia].
    simpl. rewrite IH; [|exact Hrest | simpl in Hf; lia].
    rewrite <- app_assoc. reflexivity.
Qed.

Lemma read_Forall (P : Byte.byte -> Prop) (n : Z) (data : list Byte.byte) :
  Forall P data -> Forall P (net.read n data).
Proof.
  intros H. unfold net.read. destruct (n <? 0)%Z; [exact H|].
  rewrite Forall_forall in H |- *. intros x Hx.
  apply H. apply (ip_rangeFacts.in_firstn _ _ _ Hx).
Qed.

(** X7.  Bytes that are all ASCII come back unchanged, one character
    per byte read, from both grab functions (for the HTTP one when the
    request could be written). *)
Theorem ascii_banner_is_verbatim (c : net.connection) (max_bytes : Z)
    (sent : list Byte.byte) :
  net.connects c = true -> net.arrives c = Some sent ->
  Forall (fun b => (Byte.to_N b < 128)%N) sent ->
  net.read max_bytes sent <> [] ->
  grab_raw_banner c max_bytes = Some (map Byte.to_N (net.read max_bytes sent))
  /\ (net.write_ok c = true ->
      grab_http_banner c max_bytes
      = Some (map Byte.to_N (net.read max_bytes sent))).
Proof.
  intros Hc Ha Hascii Hne.
  assert (Hr : after_read (net.read max_bytes sent)
               = Some (map Byte.to_N (net.read max_bytes sent))).
  { unfold after_read.
    destruct (net.read max_bytes sent) as [|b data] eqn:E; [congruence|].
    rewrite decode_banner_is_utf8_ignore. unfold decode.
    rewrite utf8_loop_ascii; [reflexivity | | apply Nat.le_refl].
    rewrite Forall_map, <- E. apply read_Forall, Hascii. }
  unfold grab_raw_banner, grab_http_banner. rewrite Hc, Ha. simpl.
  split; [exact Hr|]. intros ->. exact Hr.
Qed.

Lemma ascii_banner_is_verbatim_witness :
  let c := net.mkConnection true true
             (Some [Byte.x53; Byte.x53; Byte.x48]) true in
  grab_raw_banner c 2048 = Some [83; 83; 72]%N.
Proof.
  intros c.
  destruct (ascii_banner_is_verbatim c 2048 [Byte.x53; Byte.x53; Byte.x48]
              eq_refl eq_refl) as [H _].
  - repeat constructor.
  - discriminate.
  - exact H.
Defined.

Lemma after_read_none (data : list Byte.byte) :
  after_read data = None <-> data = [].
Proof.
  unfold after_read. destruct data as [|b data]; [tauto|].
  rewrite decode_banner_is_utf8_ignore.
  destruct (decode_ignore_returns (b :: data)) as [t ->].
  split; discriminate.
Qed.

(** X8.  The raw grab returns no banner exactly when the connection
    fails, the read fails, or the read delivers no byte; the HTTP grab
    also when the request cannot be written.  Undecodable bytes never
    make a banner disappear. *)
Theorem banner_missing_only_without_data (c : net.connection) (max_bytes : Z) :
  (grab_raw_banner c max_bytes = None
   <-> net.connects c = false \/ net.arrives c = None
       \/ exists sent, net.arrives c = Some sent
                       /\ net.read max_bytes sent = [])
  /\ (grab_http_banner c max_bytes = None
      <-> net.connects c = false \/ net.write_ok c = false
          \/ net.arrives c = None
          \/ exists sent, net.arrives c = Some sent
                          /\ net.read max_bytes sent = []).
Proof.
  unfold grab_raw_banner, grab_http_banner.
  destruct (net.connects c), (net.write_ok c), (net.arrives c) as [sent|];
    simpl; rewrite ?after_read_none; split; split;
    try (intros _; tauto); try tauto; try (intros H; right; right; eauto);
    try (intros H; right; right; right; eauto);
    try (intros [H|[H|[s [[= <-] H]]]]; try discriminate; exact H);
    try (intros [H|[H|[H|[s [[= <-] H]]]]]; try discriminate; exact H).
Qed.

End bannerFacts.

(* ================================================================= *)
(** ** scanner.py and cli.py: what a scan reports *)

Module scanFacts.
Import Py props models config scanner scannerFacts cli_commands.

Lemma scan_value_fields (w : world) (cfg : ScannerConfig) (i : nat)
    (host : string) (port_ : Z) :
  let r := _scan_host_port w cfg i host port_ in
  ip r = host /\ port r = port_
  /\ is_open r = net.connects (probe w i)
  /\ scanned_at r = Some (utcnow w i)
  /\ (is_open r = true ->
      service r = Some (if is_http_port port_ then "http" else "unknown")).
Proof.
  unfold _scan_host_port, open_result, closed_result, port_scanner.check_port.
  destruct (net.connects (probe w i)).
  - destruct (net.close_ok (probe w i)); destruct (is_http_port port_);
      simpl; auto.
  - simpl. repeat split; auto. discriminate.
Qed.

Section AnyIPv6Text.

Variable IPv6_ip_int_from_string : string -> result N.
Variable IPv6_string_from_ip_int : N -> string.

Local Notation "'expand_cidr_'" :=
  (ip_range.expand_cidr IPv6_ip_int_from_string IPv6_string_from_ip_int).
Local Notation "'run_scan_start_'" :=
  (run_scan_start IPv6_ip_int_from_string IPv6_string_from_ip_int).

(** X9.  At every moment of a scan, each result collected so far
    reports on one of the submitted (host, port) pairs, carries a
    timestamp, and, when the port is open, carries the service label
    ["http"] for the ports 80, 443, 8000 and 8080 and ["unknown"] for
    every other port. *)
Theorem collected_results_are_labelled (w : world) (cidr : string)
    (ports : list Z) (cfg : ScannerConfig) (hosts_ : list string)
    (st0 st : state) (schedule : list nat) (r : ScanResult) :
  expand_cidr_ cidr (Some (max_hosts cfg)) = Return hosts_ ->
  run_scan_start_ cidr ports cfg = Return st0 ->
  run w cfg st0 schedule = Some st ->
  In r (results st) ->
  In (ip r) hosts_ /\ In (port r) ports
  /\ scanned_at r <> None
  /\ (is_open r = true ->
      service r = Some (if is_http_port (port r) then "http" else "unknown")).
Proof.
  intros He Hs Hr Hin.
  destruct (run_scan_start_inv _ _ _ _ _ _ Hs) as [hs [He' [Hc ->]]].
  assert (hs = hosts_) by congruence. subst hs.
  pose proof (run_inv w cfg _ schedule _ _
                (initial_inv w cfg hosts_ ports Hc) Hr)
    as [_ [_ [Hperm [Hpairs Hok]]]].
  apply (Permutation_in _ Hperm) in Hin.
  destruct (in_returned_results _ _ Hin) as [i [t [Hn Hp]]].
  specialize (Hok i t Hn). unfold phase_ok in Hok. rewrite Hp in Hok.
  destruct (scan_value_fields w cfg i (t_host t) (t_port t))
    as [Hip [Hport [_ [Hts Hsv]]]].
  rewrite <- Hok in Hip, Hport, Hts, Hsv.
  assert (Hpair : In (task_pair t) (list_prod hosts_ ports)).
  { rewrite <- Hpairs. apply in_map, (nth_error_In _ _ Hn). }
  unfold task_pair in Hpair. apply in_prod_iff in Hpair as [Hh Hpt].
  rewrite Hip, Hport. repeat split; auto.
  rewrite Hts. discriminate.
Qed.




End AnyIPv6Text.

Lemma collected_results_are_labelled_witness :
  let cfg := mkScannerConfig 2000 512 1 2048 in
  let w := mkWorld (fun _ => net.mkConnection true true None true)
             (fun _ => net.mkConnection true true None true)
             (fun _ => mkDatetime 2024 3 7 9 5 0 0) in
  exists st r,
    run w cfg (mkState 1 (create_tasks ["192.168.0.1"; "192.168.0.2"]
                            [22; 80]%Z) [])
      [1; 1; 1]%nat = Some st
    /\ In r (results st)
    /\ port r = 80%Z /\ service r = Some "http".
Proof.
  intros cfg w. eexists. eexists.
  split; [reflexivity|]. split; [left; reflexivity|].
  split; [reflexivity|].
  destruct (collected_results_are_labelled
              no_ip6_reader decimal_ip6_printer w "192.168.0.0/30"
              [22; 80]%Z cfg ["192.168.0.1"; "192.168.0.2"] _ _
              [1; 1; 1]%nat _ eq_refl eq_refl eq_refl (or_introl eq_refl))
    as [_ [_ [_ H]]].
  apply (H eq_refl).
Defined.


End scanFacts.

(* ================================================================= *)
(** ** storage.py: ids, reading back, and the scan command *)

Module storage_readFacts.
Import Py props props_storage models storage storageFacts cli_commands.

(** *** Ids *)

Lemma next_id_above (rows : list Row) (row : Row) :
  In row rows -> (c_id row < next_id rows)%Z.
Proof.
  unfold next_id. induction rows as [|x rows IH]; simpl; [tauto|].
  intros [->|H]; [lia|]. specialize (IH H). lia.
Qed.

Lemma ids_ascending_snoc (rows : list Row) (row : Row) :
  ids_ascending rows -> (forall x, In x rows -> (c_id x < c_id row)%Z) ->
  ids_ascending (rows ++ [row]).
Proof.
  unfold ids_ascending. induction rows as [|y rows IH]; simpl; intros Hs Hlt.
  - constructor; constructor.
  - inversion Hs as [|? ? Hs' Hy]; subst. constructor.
    + apply IH; auto.
    + rewrite map_app, Forall_app. split; [exact Hy|].
      constructor; [apply Hlt; auto | constructor].
Qed.

Lemma new_rows_ids (utcnow_ : nat -> datetime) (results : list ScanResult) :
  forall i existing,
    ids_ascending existing ->
    ids_ascending (existing ++ new_rows utcnow_ i existing results).
Proof.
  induction results as [|r rest IH]; intros i existing Ha; simpl.
  - rewrite app_nil_r. exact Ha.
  - change (?row :: new_rows utcnow_ (S i) ?e rest)
      with ([row] ++ new_rows utcnow_ (S i) e rest).
    rewrite app_assoc. apply IH. apply ids_ascending_snoc; [exact Ha|].
    intros x Hx. simpl. apply next_id_above, Hx.
Qed.

(** X11.  Ids are handed out in insertion order and never reused:
    if the ids of the stored rows ascend, they still do after
    [save_results], whether it returns or raises. *)
Theorem save_results_keeps_ids_ascending (w : world) (rows : list Row)
    (results : list ScanResult) :
  ids_ascending rows ->
  ids_ascending (rows_of (fst (save_results w (Some rows) results))).
Proof.
  intros Ha. pose proof (save_results_outcome w (Some rows) results) as H.
  destruct (save_results w (Some rows) results) as [db' [u|e]]; simpl.
  - destruct H as [-> _]. simpl. apply new_rows_ids, Ha.
  - rewrite H. exact Ha.
Qed.

Lemma save_results_keeps_ids_ascending_witness :
  let now := mkDatetime 2024 3 7 9 5 0 0 in
  let w := mkWorld (fun _ => false) (fun _ => now) in
  let r := mkScanResult "10.0.0.1" 22 false None None None in
  map c_id (rows_of (fst (save_results w (Some []) [r; r; r])))
  = [1; 2; 3]%Z
  /\ ids_ascending (rows_of (fst (save_results w (Some []) [r; r; r]))).
Proof.
  intros now w r. split; [reflexivity|].
  apply (save_results_keeps_ids_ascending w [] [r; r; r]).
  constructor.
Defined.

(** *** Newest first *)

Lemma insert_smallest_id (row : Row) (l : list Row) :
  (forall y, In y l -> (c_id row < c_id y)%Z) ->
  insert_by_id_desc row l = l ++ [row].
Proof.
  induction l as [|y l IH]; simpl; intros H; [reflexivity|].
  destruct (Z.ltb_spec (c_id y) (c_id row)) as [Hlt|_].
  - specialize (H y (or_introl eq_refl)). lia.
  - rewrite IH; auto.
Qed.

Lemma order_by_id_desc_ascending (rows : list Row) :
  ids_ascending rows -> order_by_id_desc rows = rev rows.
Proof.
  unfold ids_ascending, order_by_id_desc.
  induction rows as [|x rows IH]; simpl; intros Hs; [reflexivity|].
  inversion Hs as [|? ? Hs' Hx]; subst. rewrite IH by exact Hs'.
  apply insert_smallest_id. intros y Hy. apply in_rev in Hy.
  rewrite Forall_forall in Hx. apply Hx, in_map, Hy.
Qed.

Section Fromisoformat.

Variable fromisoformat : codecs.text -> result datetime.

Local Notation "'get_last_n_'" := (get_last_n fromisoformat).
Local Notation "'results_of_rows_'" := (results_of_rows fromisoformat).

(** The query of [get_last_n], once the limit is bound. *)
Lemma get_last_n_rows (rows : list Row) (limit : Z) :
  get_last_n_ false (Some rows) limit
  = if int64 limit then
      results_of_rows_
        (if (limit <? 0)%Z then order_by_id_desc rows
         else firstn (Z.to_nat limit) (order_by_id_desc rows))
    else Raise (OverflowError
                  "Python int too large to convert to SQLite INTEGER").
Proof.
  unfold get_last_n. cbn [adapt]. destruct (int64 limit); reflexivity.
Qed.

(** X12.  On a table whose ids ascend with insertion, [get_last_n]
    with a limit that fits 64 bits reads the [limit] most recently
    inserted rows, most recent first; every row when [limit] is
    negative, none when it is 0.  A limit outside 64 bits cannot be
    bound to the query: the call raises [OverflowError]. *)
Theorem get_last_n_is_newest_first (rows : list Row) (limit : Z) :
  ids_ascending rows ->
  get_last_n_ false (Some rows) limit
  = if int64 limit then
      results_of_rows_
        (if (limit <? 0)%Z then rev rows
         else firstn (Z.to_nat limit) (rev rows))
    else Raise (OverflowError
                  "Python int too large to convert to SQLite INTEGER").
Proof.
  intros Ha. rewrite get_last_n_rows.
  rewrite (order_by_id_desc_ascending rows Ha). reflexivity.
Qed.

(** *** Round trip *)

Lemma result_of_row_stored (id : Z) (now : datetime) (r : ScanResult) :
  fromisoformat (text_of_string (isoformat (stored_time now r)))
  = Return (stored_time now r) ->
  result_of_row fromisoformat (row_of id now r)
  = Return (asdict (as_stored now r)).
Proof.
  intros Hf. unfold result_of_row.
  rewrite row_of_scanned_at, Hf. unfold row_of.
  destruct r as [i p [] [sv|] [b|] [t|]]; reflexivity.
Qed.

Lemma results_of_rows_app (l1 l2 : list Row) (r1 r2 : list record) :
  results_of_rows_ l1 = Return r1 -> results_of_rows_ l2 = Return r2 ->
  results_of_rows_ (l1 ++ l2) = Return (r1 ++ r2).
Proof.
  revert r1. induction l1 as [|x l1 IH]; intros r1; simpl.
  - intros [= <-] H. exact H.
  - destruct (result_of_row fromisoformat x) as [rx|e]; [|discriminate].
    simpl. destruct (results_of_rows_ l1) as [rs|e]; [|discriminate].
    simpl. intros [= <-] H2. rewrite (IH rs eq_refl H2). reflexivity.
Qed.

Lemma results_of_new_rows (utcnow_ : nat -> datetime)
    (results : list ScanResult) : forall i existing,
  (forall j r, nth_error results j = Some r ->
     fromisoformat
       (text_of_string (isoformat (stored_time (utcnow_ (i + j)%nat) r)))
     = Return (stored_time (utcnow_ (i + j)%nat) r)) ->
  results_of_rows_ (rev (new_rows utcnow_ i existing results))
  = Return (rev (stored_view utcnow_ i results)).
Proof.
  induction results as [|r rest IH]; intros i existing Hf; [reflexivity|].
  simpl. apply results_of_rows_app.
  - apply IH. intros j r' Hj.
    replace (S i + j)%nat with (i + S j)%nat by lia. apply Hf. exact Hj.
  - simpl. rewrite result_of_row_stored; [reflexivity|].
    specialize (Hf 0%nat r eq_refl). rewrite Nat.add_0_r in Hf. exact Hf.
Qed.

(** X13.  What [save_results] wrote, [get_last_n] reads back: after a
    save without fault, into a table with ids left, of results that
    can all be bound (ports within 64 bits, banners free of
    surrogates; their number within 64 bits too), asking for as many rows as results were saved returns those
    results, last saved first, field for field, each with the
    timestamp it was stored with (its own, or the clock's when it had
    none), provided [fromisoformat] reads those timestamps back. *)
Theorem saved_results_are_read_back (w : world) (rows : list Row)
    (results : list ScanResult) :
  (forall k, fault w k = false) ->
  forallb storable results = true ->
  has_room rows results = true ->
  int64 (Z.of_nat (List.length results)) = true ->
  ids_ascending rows ->
  (forall j r, nth_error results j = Some r ->
     fromisoformat
       (text_of_string (isoformat (stored_time (utcnow w j) r)))
     = Return (stored_time (utcnow w j) r)) ->
  get_last_n_ false (fst (save_results w (Some rows) results))
    (Z.of_nat (List.length results))
  = Return (rev (stored_view (utcnow w) 0 results)).
Proof.
  intros Hnf Hst Hroom Hlen Ha Hf.
  rewrite (save_results_without_fault w rows results Hnf Hst Hroom).
  simpl fst.
  rewrite get_last_n_rows, Hlen.
  rewrite order_by_id_desc_ascending by apply new_rows_ids, Ha.
  destruct (Z.ltb_spec (Z.of_nat (List.length results)) 0); [lia|].
  rewrite rev_app_distr, Nat2Z.id.
  rewrite <- (new_rows_length (utcnow w) results 0 rows) at 1.
  rewrite <- length_rev, firstn_app, Nat.sub_diag, firstn_all.
  simpl. rewrite app_nil_r.
  apply results_of_new_rows. exact Hf.
Qed.

End Fromisoformat.

Lemma saved_results_are_read_back_witness :
  let now := mkDatetime 2024 3 7 9 5 0 0 in
  let w := mkWorld (fun _ => false) (fun _ => now) in
  let r1 := mkScanResult "10.0.0.1" 22 true (Some "unknown")
              (Some [83; 83; 72]%N) None in
  let r2 := mkScanResult "10.0.0.1" 80 false None None (Some now) in
  get_last_n one_timestamp_reader false
    (fst (save_results w (Some []) [r1; r2])) 2
  = Return [asdict r2; asdict (as_stored now r1)].
Proof.
  intros now w r1 r2.
  apply (saved_results_are_read_back one_timestamp_reader w [] [r1; r2]).
  - reflexivity.
  - reflexivity.
  - reflexivity.
  - reflexivity.
  - constructor.
  - intros [|[|[|j]]] r H; simpl in H; try discriminate;
      injection H as <-; reflexivity.
Defined.

Lemma get_last_n_is_newest_first_witness :
  let now := mkDatetime 2024 3 7 9 5 0 0 in
  let r := mkScanResult "10.0.0.1" 22 false None None None in
  let rows := [row_of 1 now r; row_of 2 now r; row_of 5 now r] in
  get_last_n one_timestamp_reader false (Some rows) 2
  = results_of_rows one_timestamp_reader [row_of 5 now r; row_of 2 now r]
  /\ get_last_n one_timestamp_reader false (Some rows) (2 ^ 63)
     = Raise (OverflowError
                "Python int too large to convert to SQLite INTEGER").
Proof.
  intros now r rows.
  assert (Ha : ids_ascending rows) by (repeat constructor).
  split.
  - exact (get_last_n_is_newest_first one_timestamp_reader rows 2 Ha).
  - exact (get_last_n_is_newest_first one_timestamp_reader rows (2 ^ 63) Ha).
Defined.

(** *** The scan command *)

(** X14.  [cmd_scan] stores every result whatever the database held
    before: after [init_db], also on a file without the table, a save
    without fault, with ids left for the new rows, of results that can
    all be bound (ports within 64 bits, banners free of surrogates)
    returns, the table then holds its former rows followed by one row
    per result, and the command reports the number of open ports.
    When some result cannot be bound, the save raises instead, nothing
    is reported, and the table holds its former rows only. *)
Theorem cmd_scan_stores_every_result (w : world) (db : database)
    (results : list ScanResult) :
  (forall k, fault w k = false) ->
  has_room (rows_of db) results = true ->
  if forallb storable results then
    cmd_scan_finish w (init_db db) results
    = (Some (rows_of db ++ new_rows (utcnow w) 0 (rows_of db) results),
       Return (open_count results))
    /\ List.length (new_rows (utcnow w) 0 (rows_of db) results)
       = List.length results
  else
    exists e,
      cmd_scan_finish w (init_db db) results = (Some (rows_of db), Raise e).
Proof.
  intros Hnf Hroom. unfold cmd_scan_finish.
  assert (E : init_db db = Some (rows_of db)) by (destruct db; reflexivity).
  rewrite E. destruct (forallb storable results) eqn:Hst.
  - split; [|apply new_rows_length].
    rewrite (save_results_without_fault w (rows_of db) results Hnf Hst Hroom).
    reflexivity.
  - destruct (save_results_unstorable w (rows_of db) results Hnf Hst)
      as [e ->].
    eauto.
Qed.

Lemma cmd_scan_stores_every_result_witness :
  let now := mkDatetime 2024 3 7 9 5 0 0 in
  let w := mkWorld (fun _ => false) (fun _ => now) in
  let r := mkScanResult "10.0.0.1" 22 true (Some "unknown") None None in
  cmd_scan_finish w (init_db None) [r]
  = (Some [row_of 1 now r], Return 1%nat).
Proof.
  intros now w r.
  destruct (cmd_scan_stores_every_result w None [r] (fun _ => eq_refl)
              eq_refl)
    as [H _].
  exact H.
Defined.

End storage_readFacts.

(* ================================================================= *)
(** ** The cost model of the scan service *)

Module cost_modelFacts.
Import mesh_scanner_service.

(** X15.  [estimate_cost_tokens] charges the smallest positive number
    of tokens [t] with [10 * t >= host_count * port_count]: a tenth of
    the product of the two counts, rounded up, and one token when that
    product is zero or negative. *)
Theorem estimate_cost_tokens_least_cover (host_count port_count : Z) :
  let t := estimate_cost_tokens host_count port_count in
  (1 <= t)%Z /\ (host_count * port_count <= 10 * t)%Z /\
  (forall t' : Z,
     (1 <= t')%Z -> (host_count * port_count <= 10 * t')%Z -> (t <= t')%Z) /\
  ((host_count * port_count <= 0)%Z -> t = 1%Z).
Proof.
  unfold estimate_cost_tokens.
  generalize (host_count * port_count)%Z; intros raw. cbv zeta.
  pose proof (Z.div_mod (raw + 9) 10 ltac:(lia)) as E.
  pose proof (Z.mod_pos_bound (raw + 9) 10 ltac:(lia)) as B.
  repeat split; try lia.
Qed.

End cost_modelFacts.

(* ================================================================= *)
(** ** The ledger *)

Module ledger_storeFacts.
Import models ledger_store props_ledger.

(** *** The dictionary of accounts *)

Lemma lookup_update_same (k : string) (f : Z -> Z) (d : list (string * Account)) :
  lookup k (update_balance k f d) =
  option_map (fun a => mkAccount (f (balance a)) (created_at a) (meta a))
    (lookup k d).
Proof.
  induction d as [|[k' a] d IH]; simpl; [reflexivity|].
  destruct (String.eqb k' k) eqn:E; simpl; rewrite E; [reflexivity | exact IH].
Qed.

Lemma lookup_update_other (k k' : string) (f : Z -> Z)
    (d : list (string * Account)) :
  k <> k' -> lookup k' (update_balance k f d) = lookup k' d.
Proof.
  intros N. induction d as [|[k0 a] d IH]; simpl; [reflexivity|].
  destruct (String.eqb k0 k) eqn:E; simpl.
  - apply String.eqb_eq in E. subst k0.
    destruct (String.eqb k k') eqn:E'; [|reflexivity].
    apply String.eqb_eq in E'. contradiction.
  - destruct (String.eqb k0 k'); [reflexivity | exact IH].
Qed.

Lemma keys_update (k : string) (f : Z -> Z) (d : list (string * Account)) :
  map fst (update_balance k f d) = map fst d.
Proof.
  induction d as [|[k' a] d IH]; simpl; [reflexivity|].
  destruct (String.eqb k' k); simpl; [reflexivity | now rewrite IH].
Qed.


Lemma sum_update (k : string) (f : Z -> Z) (d : list (string * Account))
    (a : Account) :
  lookup k d = Some a ->
  sum_balances (update_balance k f d)
  = (sum_balances d - balance a + f (balance a))%Z.
Proof.
  unfold sum_balances.
  induction d as [|[k' a'] d IH]; simpl; [discriminate|].
  destruct (String.eqb k' k); simpl.
  - intros [= ->]. lia.
  - intros H. rewrite (IH H). lia.
Qed.

Lemma Forall_update (P : Z -> Prop) (k : string) (f : Z -> Z)
    (d : list (string * Account)) :
  Forall (fun kv => P (balance (snd kv))) d ->
  (forall a, lookup k d = Some a -> P (f (balance a))) ->
  Forall (fun kv => P (balance (snd kv))) (update_balance k f d).
Proof.
  induction d as [|[k' a'] d IH]; simpl; intros HF Hk; [constructor|].
  inversion HF as [|? ? Ha Hd]; subst.
  destruct (String.eqb k' k).
  - constructor; [simpl; apply Hk; reflexivity | exact Hd].
  - constructor; [exact Ha | apply IH; assumption].
Qed.

Lemma lookup_snoc (k k' : string) (a : Account) (d : list (string * Account)) :
  lookup k (d ++ [(k', a)]) =
  match lookup k d with
  | Some x => Some x
  | None => if String.eqb k' k then Some a else None
  end.
Proof.
  induction d as [|[k0 a0] d IH]; simpl; [reflexivity|].
  destruct (String.eqb k0 k); [reflexivity | exact IH].
Qed.

Lemma has_key_In (k : string) (d : list (string * Account)) :
  has_key k d = true <-> In k (map fst d).
Proof.
  unfold has_key. induction d as [|[k' a] d IH]; simpl.
  - split; [discriminate | tauto].
  - destruct (String.eqb k' k) eqn:E.
    + apply String.eqb_eq in E. split; auto.
    + apply String.eqb_neq in E. rewrite IH. split; [auto|].
      intros [H|H]; [contradiction | exact H].
Qed.

(** *** [transfer] *)

(** The outcome of [transfer], and the state it leaves, case by case. *)
Lemma transfer_cases (state : LedgerState) (payer_id receiver_id : string)
    (amount_ : Z) (job_id_ note_ : option string) (uuid : string)
    (now : datetime) :
  let out := transfer state payer_id receiver_id amount_ job_id_ note_ uuid now in
  ((amount_ <= 0)%Z /\ out = (state, Fail ValueError)) \/
  ((0 < amount_)%Z /\
   (lookup payer_id (accounts state) = None \/
    lookup receiver_id (accounts state) = None) /\
   out = (state, Fail AccountNotFoundError)) \/
  (exists payer receiver,
     (0 < amount_)%Z /\
     lookup payer_id (accounts state) = Some payer /\
     lookup receiver_id (accounts state) = Some receiver /\
     (balance payer < amount_)%Z /\
     out = (state, Fail InsufficientBalanceError)) \/
  (exists payer receiver,
     (0 < amount_)%Z /\
     lookup payer_id (accounts state) = Some payer /\
     lookup receiver_id (accounts state) = Some receiver /\
     (amount_ <= balance payer)%Z /\
     out =
     (mkLedgerState
        (update_balance receiver_id (fun b => b + amount_)%Z
           (update_balance payer_id (fun b => b - amount_)%Z (accounts state)))
        (transfers state ++
         [mkTransferRecord uuid (stamp now) payer_id receiver_id amount_
            job_id_ note_]),
      Ok (mkTransferRecord uuid (stamp now) payer_id receiver_id amount_
            job_id_ note_))).
Proof.
  cbv zeta. unfold transfer, has_key.
  destruct (Z.leb_spec amount_ 0) as [Ha|Ha]; [left; split; [lia | reflexivity]|].
  right.
  destruct (lookup payer_id (accounts state)) as [payer|] eqn:Hp; simpl.
  2:{ left. repeat split; auto. }
  destruct (lookup receiver_id (accounts state)) as [receiver|] eqn:Hr; simpl.
  2:{ left. repeat split; auto. }
  right.
  destruct (Z.ltb_spec (balance payer) amount_) as [Hb|Hb].
  - left. exists payer, receiver. repeat split; auto.
  - right. exists payer, receiver. repeat split; auto.
Qed.

(** X16.  A transfer never creates or destroys tokens: whether it
    succeeds or raises, the sum of all balances is what it was. *)
Theorem transfer_conserves_total (state : LedgerState)
    (payer_id receiver_id : string) (amount_ : Z)
    (job_id_ note_ : option string) (uuid : string) (now : datetime) :
  total (fst (transfer state payer_id receiver_id amount_ job_id_ note_
                uuid now))
  = total state.
Proof.
  destruct (transfer_cases state payer_id receiver_id amount_ job_id_ note_
              uuid now)
    as [[_ ->]|[(_ & _ & ->)|[(p & r & _ & _ & _ & _ & ->)
       |(p & r & Ha & Hp & Hr & Hb & ->)]]]; try reflexivity.
  unfold total. simpl. fold (sum_balances (accounts state)).
  match goal with |- ?l = _ => change l with
    (sum_balances
       (update_balance receiver_id (fun b => b + amount_)%Z
          (update_balance payer_id (fun b => b - amount_)%Z (accounts state))))
  end.
  destruct (String.eqb payer_id receiver_id) eqn:E.
  - apply String.eqb_eq in E. subst receiver_id.
    erewrite sum_update
      by (rewrite lookup_update_same, Hp; reflexivity).
    rewrite (sum_update _ _ _ _ Hp). simpl. lia.
  - apply String.eqb_neq in E.
    erewrite sum_update
      by (rewrite lookup_update_other by exact E; exact Hr).
    rewrite (sum_update _ _ _ _ Hp). lia.
Qed.

(** X17.  A transfer overdraws no account and keeps the dictionary of
    accounts a dictionary: if every balance is non-negative and every
    account id occurs once before the call, the same holds after it. *)
Theorem transfer_keeps_ledger_sound (state : LedgerState)
    (payer_id receiver_id : string) (amount_ : Z)
    (job_id_ note_ : option string) (uuid : string) (now : datetime) :
  solvent state -> keys_unique state ->
  let state' :=
    fst (transfer state payer_id receiver_id amount_ job_id_ note_ uuid now) in
  solvent state' /\ keys_unique state'.
Proof.
  intros Hs Hk. cbv zeta.
  destruct (transfer_cases state payer_id receiver_id amount_ job_id_ note_
              uuid now)
    as [[_ ->]|[(_ & _ & ->)|[(p & r & _ & _ & _ & _ & ->)
       |(p & r & Ha & Hp & Hr & Hb & ->)]]]; try (split; assumption).
  unfold solvent, keys_unique in *. simpl. split.
  - apply (Forall_update (fun b => 0 <= b)%Z).
    + apply (Forall_update (fun b => 0 <= b)%Z); [exact Hs|].
      intros a Ha'. rewrite Hp in Ha'. injection Ha' as <-. lia.
    + intros a Ha'.
      assert (0 <= balance a)%Z; [|lia].
      assert (HF : Forall (fun kv => 0 <= balance (snd kv))%Z
                (update_balance payer_id (fun b => b - amount_)%Z
                   (accounts state))).
      { apply (Forall_update (fun b => 0 <= b)%Z); [exact Hs|].
        intros a0 Ha0. rewrite Hp in Ha0. injection Ha0 as <-. lia. }
      clear - Ha' HF.
      induction HF as [|[k0 a0] d H0 Hd IH]; simpl in Ha'; [discriminate|].
      destruct (String.eqb k0 receiver_id).
      * injection Ha' as <-. exact H0.
      * apply IH, Ha'.
  - rewrite !keys_update. exact Hk.
Qed.

Lemma transfer_keeps_ledger_sound_witness :
  let state' :=
    fst (transfer two_accounts "alice" "bob" 20 None (Some "scan") "t-1" noon) in
  solvent state' /\ keys_unique state'.
Proof.
  apply (transfer_keeps_ledger_sound two_accounts "alice" "bob" 20 None
           (Some "scan") "t-1" noon).
  - unfold solvent. simpl. repeat constructor; simpl; lia.
  - unfold keys_unique. simpl.
    repeat constructor; simpl; intuition discriminate.
Defined.

(** X18.  [transfer] returns a record exactly when the amount is
    positive, the receiver exists and [can_pay] says the payer can pay
    it; [can_pay] itself never raises; and a transfer that raises has
    changed nothing. *)
Theorem transfer_succeeds_iff_payable (state : LedgerState)
    (payer_id receiver_id : string) (amount_ : Z)
    (job_id_ note_ : option string) (uuid : string) (now : datetime) :
  let out := transfer state payer_id receiver_id amount_ job_id_ note_ uuid now in
  ((exists record, snd out = Ok record) <->
   (0 < amount_)%Z /\ can_pay state payer_id amount_ = Ok true /\
   has_key receiver_id (accounts state) = true) /\
  (exists b, can_pay state payer_id amount_ = Ok b) /\
  (forall e, snd out = Fail e -> fst out = state).
Proof.
  cbv zeta. unfold can_pay, get_balance, has_key.
  destruct (transfer_cases state payer_id receiver_id amount_ job_id_ note_
              uuid now)
    as [[Ha ->]|[(Ha & Hm & ->)|[(p & r & Ha & Hp & Hr & Hb & ->)
       |(p & r & Ha & Hp & Hr & Hb & ->)]]]; simpl.
  - split; [split|split].
    + intros [? ?]; discriminate.
    + intros [? _]; lia.
    + destruct (lookup payer_id (accounts state)); eauto.
    + reflexivity.
  - split; [split|split].
    + intros [? ?]; discriminate.
    + intros (_ & H1 & H2). destruct Hm as [Hm|Hm]; rewrite Hm in *;
        discriminate.
    + destruct (lookup payer_id (accounts state)); eauto.
    + reflexivity.
  - rewrite Hp, Hr. split; [split|split]; eauto.
    + intros [? ?]; discriminate.
    + intros (_ & H1 & _). injection H1 as H1.
      apply Z.leb_le in H1. lia.
  - rewrite Hp, Hr. split; [split|split]; eauto.
    + intros _. repeat split; [exact Ha|]. f_equal. apply Z.leb_le. exact Hb.
    + discriminate.
Qed.

(** X19.  A transfer that returns has moved exactly [amount]: between
    two different accounts the payer has [amount] less and the receiver
    [amount] more, a transfer to oneself leaves the balance as it was,
    every other account is untouched, and the record returned names the
    payer, the receiver, the amount, the job and the note of the call. *)
Theorem transfer_moves_amount (state : LedgerState)
    (payer_id receiver_id : string) (amount_ : Z)
    (job_id_ note_ : option string) (uuid : string) (now : datetime)
    (record : TransferRecord) :
  snd (transfer state payer_id receiver_id amount_ job_id_ note_ uuid now)
  = Ok record ->
  let state' :=
    fst (transfer state payer_id receiver_id amount_ job_id_ note_ uuid now) in
  (payer_id <> receiver_id ->
   balance_of state' payer_id = (balance_of state payer_id - amount_)%Z /\
   balance_of state' receiver_id = (balance_of state receiver_id + amount_)%Z) /\
  (payer_id = receiver_id ->
   balance_of state' payer_id = balance_of state payer_id) /\
  (forall k, k <> payer_id -> k <> receiver_id ->
     lookup k (accounts state') = lookup k (accounts state)) /\
  from_account record = payer_id /\ to_account record = receiver_id /\
  amount record = amount_ /\ job_id record = job_id_ /\ note record = note_.
Proof.
  cbv zeta.
  destruct (transfer_cases state payer_id receiver_id amount_ job_id_ note_
              uuid now)
    as [[Ha ->]|[(Ha & Hm & ->)|[(p & r & Ha & Hp & Hr & Hb & ->)
       |(p & r & Ha & Hp & Hr & Hb & ->)]]]; simpl; try discriminate.
  intros [= <-]. unfold balance_of. simpl.
  split; [|split; [|split]].
  - intros N. split.
    + rewrite lookup_update_other by congruence.
      rewrite lookup_update_same, Hp. reflexivity.
    + rewrite lookup_update_same.
      rewrite lookup_update_other by exact N. rewrite Hr. reflexivity.
  - intros <-. rewrite !lookup_update_same, Hp. simpl. lia.
  - intros k N1 N2. rewrite !lookup_update_other by congruence. reflexivity.
  - repeat split.
Qed.

Lemma transfer_moves_amount_witness :
  balance_of
    (fst (transfer two_accounts "alice" "bob" 20 None (Some "scan") "t-1" noon))
    "bob" = 25%Z.
Proof.
  pose proof (transfer_moves_amount two_accounts "alice" "bob" 20 None
                (Some "scan") "t-1" noon
                (mkTransferRecord "t-1" (stamp noon) "alice" "bob" 20 None
                   (Some "scan")) eq_refl) as H.
  cbv zeta in H. destruct H as [H _].
  destruct (H ltac:(discriminate)) as [_ H2]. exact H2.
Defined.

(** *** [get_transfers] *)

Lemma slice_to_one {A} (x : A) (l : list A) : slice_to 1 (x :: l) = [x].
Proof. reflexivity. Qed.

Lemma given_cases (account_id : option string) :
  (given account_id = None /\
   (account_id = None \/ account_id = Some EmptyString)) \/
  (exists a, a <> EmptyString /\ account_id = Some a /\ given account_id = Some a).
Proof.
  destruct account_id as [[|c s]|]; simpl.
  - left; auto.
  - right. exists (String c s). repeat split. discriminate.
  - left; auto.
Qed.

(** X20.  The record of a transfer that returns heads the history:
    the unfiltered history is the record followed by the history
    before the call; asking for one entry, unfiltered or filtered
    by the payer or by the receiver, gives just that record; and the
    history of any account that took no part is as before. *)
Theorem transfer_heads_history (state : LedgerState)
    (payer_id receiver_id : string) (amount_ : Z)
    (job_id_ note_ : option string) (uuid : string) (now : datetime)
    (record : TransferRecord) :
  snd (transfer state payer_id receiver_id amount_ job_id_ note_ uuid now)
  = Ok record ->
  let state' :=
    fst (transfer state payer_id receiver_id amount_ job_id_ note_ uuid now) in
  get_transfers state' None None = record :: get_transfers state None None /\
  get_transfers state' None (Some 1%Z) = [record] /\
  get_transfers state' (Some payer_id) (Some 1%Z) = [record] /\
  get_transfers state' (Some receiver_id) (Some 1%Z) = [record] /\
  (forall k limit, k <> EmptyString -> k <> payer_id -> k <> receiver_id ->
     get_transfers state' (Some k) limit = get_transfers state (Some k) limit).
Proof.
  cbv zeta.
  destruct (transfer_cases state payer_id receiver_id amount_ job_id_ note_
              uuid now)
    as [[Ha ->]|[(Ha & Hm & ->)|[(p & r & Ha & Hp & Hr & Hb & ->)
       |(p & r & Ha & Hp & Hr & Hb & ->)]]]; simpl; try discriminate.
  intros [= <-]. unfold get_transfers. simpl.
  assert (Hf : forall a, a = payer_id \/ a = receiver_id ->
            slice_to 1
              (rev match given (Some a) with
                   | Some a0 =>
                       filter (involves a0)
                         (transfers state ++
                          [mkTransferRecord uuid (stamp now) payer_id
                             receiver_id amount_ job_id_ note_])
                   | None =>
                       transfers state ++
                       [mkTransferRecord uuid (stamp now) payer_id
                          receiver_id amount_ job_id_ note_]
                   end)
            = [mkTransferRecord uuid (stamp now) payer_id receiver_id amount_
                 job_id_ note_]).
  { intros a Ha'.
    destruct (given_cases (Some a)) as [[-> _]|(a0 & _ & [= <-] & ->)].
    - rewrite rev_app_distr. reflexivity.
    - rewrite filter_app, rev_app_distr. simpl.
      assert (E : involves a
                (mkTransferRecord uuid (stamp now) payer_id receiver_id
                   amount_ job_id_ note_) = true).
      { unfold involves. simpl.
        destruct Ha' as [->| ->]; rewrite String.eqb_refl;
          [reflexivity | apply orb_true_r]. }
      rewrite E. reflexivity. }
  split; [|split; [|split; [|split]]].
  - rewrite rev_app_distr. reflexivity.
  - rewrite rev_app_distr. reflexivity.
  - apply Hf. left; reflexivity.
  - apply Hf. right; reflexivity.
  - intros k limit N0 N1 N2.
    assert (E : involves k
              (mkTransferRecord uuid (stamp now) payer_id receiver_id
                 amount_ job_id_ note_) = false).
    { unfold involves. simpl. apply orb_false_iff.
      split; apply String.eqb_neq; congruence. }
    destruct k as [|c k]; [congruence|].
    rewrite filter_app. simpl. rewrite E, app_nil_r. reflexivity.
Qed.

Lemma transfer_heads_history_witness :
  get_transfers
    (fst (transfer two_accounts "alice" "bob" 20 None (Some "scan") "t-1" noon))
    (Some "bob") (Some 1%Z)
  = [mkTransferRecord "t-1" (stamp noon) "alice" "bob" 20 None (Some "scan")].
Proof.
  pose proof (transfer_heads_history two_accounts "alice" "bob" 20 None
                (Some "scan") "t-1" noon
                (mkTransferRecord "t-1" (stamp noon) "alice" "bob" 20 None
                   (Some "scan")) eq_refl) as H.
  cbv zeta in H. destruct H as (_ & _ & _ & H & _). exact H.
Defined.

(** X21.  The limit of [get_transfers] cuts the newest-first history
    at the front: the limited list is a prefix of the unlimited one,
    of [limit] entries (or all, if there are fewer) for a limit that is
    not negative; a negative limit does not mean "no limit" but leaves
    out the [-limit] oldest entries. *)
Theorem get_transfers_limit_is_prefix (state : LedgerState)
    (account_id : option string) (limit : Z) :
  let every := get_transfers state account_id None in
  let some := get_transfers state account_id (Some limit) in
  (exists rest, every = some ++ rest) /\
  List.length some =
  (if (limit <? 0)%Z then List.length every - Z.to_nat (- limit)
   else Nat.min (Z.to_nat limit) (List.length every))%nat.
Proof.
  cbv zeta. unfold get_transfers.
  set (l := rev _). unfold slice_to.
  destruct (limit <? 0)%Z.
  - split.
    + exists (skipn (List.length l - Z.to_nat (- limit)) l).
      symmetry. apply firstn_skipn.
    + rewrite length_firstn. lia.
  - split.
    + exists (skipn (Z.to_nat limit) l). symmetry. apply firstn_skipn.
    + apply length_firstn.
Qed.

(** X22.  The account filter of [get_transfers]: for a non-empty id
    every entry returned has it as sender or receiver, and every such
    entry of the unfiltered answer is returned; the empty id, like
    [None], filters nothing. *)
Theorem get_transfers_filters_by_account (state : LedgerState)
    (account_id : string) (limit : option Z) :
  (account_id <> EmptyString ->
   forall t,
     In t (get_transfers state (Some account_id) None) <->
     In t (get_transfers state None None) /\
     (from_account t = account_id \/ to_account t = account_id)) /\
  get_transfers state (Some EmptyString) limit = get_transfers state None limit.
Proof.
  split; [|reflexivity].
  intros N t. unfold get_transfers.
  destruct (given_cases (Some account_id))
    as [[_ [H|H]]|(a0 & _ & [= <-] & ->)]; [discriminate | congruence |].
  simpl. rewrite <- !in_rev, filter_In. unfold involves.
  rewrite orb_true_iff, !String.eqb_eq. reflexivity.
Qed.

(** *** [ensure_account] *)

(** X23.  [ensure_account] only ever adds: afterwards the account
    exists; an account that existed keeps its entry, and a new one
    starts with the initial balance; the transfer history is untouched;
    account ids stay unique; and a second call for the same id, with
    whatever balance, changes nothing. *)
Theorem ensure_account_only_adds (state : LedgerState) (account_id : string)
    (initial_balance : Z) (now : datetime) :
  let state' := ensure_account state account_id initial_balance now in
  has_key account_id (accounts state') = true /\
  (forall k a, lookup k (accounts state) = Some a ->
     lookup k (accounts state') = Some a) /\
  (has_key account_id (accounts state) = false ->
   balance_of state' account_id = initial_balance /\
   total state' = (total state + initial_balance)%Z) /\
  transfers state' = transfers state /\
  (keys_unique state -> keys_unique state') /\
  (forall b' now', ensure_account state' account_id b' now' = state').
Proof.
  cbv zeta.
  assert (Hnew : has_key account_id
            (accounts state ++
             [(account_id, mkAccount initial_balance (stamp now) [])]) = true).
  { unfold has_key. rewrite lookup_snoc, String.eqb_refl.
    now destruct (lookup account_id (accounts state)). }
  unfold ensure_account.
  destruct (has_key account_id (accounts state)) eqn:Hk; simpl.
  - repeat split; auto; try discriminate.
    intros b' now'. rewrite Hk. reflexivity.
  - split; [exact Hnew|]. split; [|split; [|split; [|split]]].
    + intros k a H. rewrite lookup_snoc, H. reflexivity.
    + intros _. split.
      * unfold balance_of. simpl. rewrite lookup_snoc, String.eqb_refl.
        unfold has_key in Hk.
        destruct (lookup account_id (accounts state)); [discriminate|].
        reflexivity.
      * unfold total. simpl. rewrite map_app, fold_right_app. simpl.
        generalize (map (fun kv : string * Account => balance (snd kv))
                      (accounts state)).
        intros l. induction l as [|x l IH]; simpl; lia.
    + reflexivity.
    + unfold keys_unique. simpl. rewrite map_app. simpl. intros Hu.
      apply NoDup_app; [exact Hu | repeat constructor; simpl; tauto |].
      intros k Hin [<-|[]].
      apply has_key_In in Hin. congruence.
    + intros b' now'. simpl. rewrite Hnew. reflexivity.
Qed.

(** *** [ensure_account], for the service layer *)


Lemma ensure_keeps (state : LedgerState) (k k' : string) (b : Z)
    (now : datetime) (a : Account) :
  lookup k' (accounts state) = Some a ->
  lookup k' (accounts (ensure_account state k b now)) = Some a.
Proof.
  intros H. unfold ensure_account.
  destruct (has_key k (accounts state)); simpl; [exact H|].
  rewrite lookup_snoc, H. reflexivity.
Qed.





Lemma ensure_new (state : LedgerState) (k : string) (b : Z) (now : datetime) :
  has_key k (accounts state) = false ->
  lookup k (accounts (ensure_account state k b now))
  = Some (mkAccount b (stamp now) []).
Proof.
  intros Hk. unfold ensure_account. rewrite Hk. simpl.
  rewrite lookup_snoc, String.eqb_refl. unfold has_key in Hk.
  now destruct (lookup k (accounts state)).
Qed.

End ledger_storeFacts.

(* ================================================================= *)
(** ** The ledger service *)

Module ledger_serviceFacts.
Import models ledger_store ledger_service props_ledger ledger_storeFacts.



(** X25.  Charging a payer the ledger does not know always raises, but
    not without trace: with auto-creation on, the payer's account now
    exists in memory with balance 0, while the ledger file, which
    agreed with memory before the call, does not have it. *)
Theorem charge_unknown_payer_is_created_unsaved (self : LedgerService)
    (payer_id receiver_id : string) (amount_ : Z)
    (job_id_ note_ : option string) (uuid : string)
    (utcnow : nat -> datetime) :
  auto_create_accounts (config self) = true ->
  has_key payer_id (accounts (_state self)) = false ->
  saved self = _state self ->
  let out := charge self payer_id receiver_id amount_ job_id_ note_ uuid utcnow in
  (exists e, snd out = Fail e) /\
  has_key payer_id (accounts (_state (fst out))) = true /\
  balance_of (_state (fst out)) payer_id = 0%Z /\
  has_key payer_id (accounts (saved (fst out))) = false.
Proof.
  intros Hauto Hnew Hsync. cbv zeta. unfold charge. rewrite Hauto.
  set (s1 := ensure_account
               (ensure_account (_state self) payer_id 0 (utcnow 0%nat))
               receiver_id 0 (utcnow 1%nat)).
  assert (Hp0 : lookup payer_id (accounts s1)
                = Some (mkAccount 0 (stamp (utcnow 0%nat)) [])).
  { apply ensure_keeps, ensure_new, Hnew. }
  assert (Hk : has_key payer_id (accounts s1) = true).
  { unfold has_key. now rewrite Hp0. }
  assert (Hb0 : balance_of s1 payer_id = 0%Z).
  { unfold balance_of. now rewrite Hp0. }
  destruct (transfer_cases s1 payer_id receiver_id amount_ job_id_ note_
              uuid (utcnow 2%nat))
    as [[Ha ->]|[(Ha & Hm & ->)|[(p & r & Ha & Hp & Hr & Hb & ->)
       |(p & r & Ha & Hp & Hr & Hb & ->)]]]; simpl.
  - rewrite Hsync. eauto.
  - rewrite Hsync. eauto.
  - rewrite Hsync. eauto.
  - rewrite Hp0 in Hp. injection Hp as <-. simpl in Hb. lia.
Qed.

Lemma charge_unknown_payer_is_created_unsaved_witness :
  let out := charge sample_service "carol" "bob" 1 None None "t-1" ticking in
  (exists e, snd out = Fail e) /\
  has_key "carol" (accounts (_state (fst out))) = true /\
  balance_of (_state (fst out)) "carol" = 0%Z /\
  has_key "carol" (accounts (saved (fst out))) = false.
Proof.
  apply (charge_unknown_payer_is_created_unsaved sample_service "carol" "bob"
           1 None None "t-1" ticking); reflexivity.
Defined.



End ledger_serviceFacts.

(* ================================================================= *)
(** ** The ledger client *)

Module clientFacts.
Import models ledger_store ledger_service props_ledger ledger_storeFacts.



End clientFacts.
